(** * CLARA_VISIO: photon aggregation, hexagonal patches, receptor profile

    A shallow embedding of
      - [Stimulus/Light/photon.py]         (the [Photon] record),
      - [Stimulus/Light/photon_driver.py]  (time binning, point-spread
        weights, the cone and rod light-drive builders),
      - [Cells/Retina/cones.py]            ([cone_sensitivity_nm]),
      - [Utils/hexagonal_layer.py]         ([make_hex_circular_patch]),
      - [PrimaryVisualPathway/.../input_layer.py] ([photoreceptor_profile]).

    Python floats are read as real numbers ([R]); rounding, overflow,
    underflow and NaN are outside that reading.  Module [binary64] embeds
    the time binning, the point-spread weights, the rod builder and the
    cone sensitivity a second time on IEEE 754 binary64 numbers (the
    kernel's primitive floats), to run the program where rounding,
    underflow or NaN decide what it does.  The receptor profile only
    adds, divides and compares decimal literals, so it is embedded over the
    rationals ([Q]) and stays executable.  Python exceptions are values of
    [exn] carried by the [result] monad. *)

From Stdlib Require Import Reals Lra Lia ZArith QArith.
From Stdlib Require Import Permutation Sorted Ascii.
From Stdlib Require Lqa.
From Stdlib Require PrimFloat FloatOps SpecFloat.
From stdpp Require Import gmap strings list fin_maps.

(** ** Exceptions and the error monad *)

Inductive exn : Set :=
| ZeroDivisionError
| ValueError
| KeyError
| IndexError
| NameError
| OverflowError.

Inductive result (A : Type) : Type :=
| Ok (a : A)
| Err (e : exn).
Arguments Ok {A} a.
Arguments Err {A} e.

#[global] Instance result_ret : MRet result := fun A a => Ok a.
#[global] Instance result_bind : MBind result := fun A B f m =>
  match m with
  | Ok a => f a
  | Err e => Err e
  end.

(** [for x in xs: st = body st x], stopping at the first exception. *)
Fixpoint for_each {A S : Type} (body : S -> A -> result S) (xs : list A) (st : S)
  : result S :=
  match xs with
  | [] => Ok st
  | x :: xs' => st' ← body st x; for_each body xs' st'
  end.

(** ** Real-number helpers for the numpy/Python primitives *)

Section RealPrimitives.
Local Open Scope R_scope.

#[global] Instance Rle_decision (a b : R) : Decision (a <= b) := Rle_dec a b.
#[global] Instance Rlt_decision (a b : R) : Decision (a < b) := Rlt_dec a b.

(** [math.floor] and [numpy.ceil] followed by [int]. *)
Definition Rfloor (x : R) : Z := Int_part x.
Definition Rceil (x : R) : Z := (- Int_part (- x))%Z.

(** Python float division [a / b]. *)
Definition py_div (a b : R) : result R :=
  if Req_dec_T b 0 then Err ZeroDivisionError else Ok (a / b).

(** Python float floor division [a // b]. *)
Definition py_floordiv (a b : R) : result Z :=
  if Req_dec_T b 0 then Err ZeroDivisionError else Ok (Rfloor (a / b)).

End RealPrimitives.

(** ** numpy arrays: 1-D as [list R], 2-D as a list of rows *)

Section Arrays.
Local Open Scope R_scope.

(** [a.size] of a 2-D array. *)
Definition size2 (a : list (list R)) : nat := length (concat a).

(** [np.zeros((n, N))]; a negative dimension raises [ValueError]. *)
Definition np_zeros2 (n : Z) (N : nat) : result (list (list R)) :=
  if (n <? 0)%Z then Err ValueError
  else Ok (replicate (Z.to_nat n) (replicate N 0)).

(** [w.sum()]. *)
Definition np_sum (w : list R) : R := foldr Rplus 0 w.

(** Position of an integer index [k] along an axis of length [n]:
    negative indices count from the end, anything else out of range
    raises [IndexError]. *)
Definition np_index (n : nat) (k : Z) : result nat :=
  if decide (0 <= k < Z.of_nat n)%Z then Ok (Z.to_nat k)
  else if decide (- Z.of_nat n <= k < 0)%Z then Ok (Z.to_nat (Z.of_nat n + k))
  else Err IndexError.

(** [a[k] += v] on a 2-D array [a] and a 1-D array [v].  The builders
    only add rows of equal length (one entry per receptor, see
    [radd_shape]), so the element-wise sum never truncates. *)
Definition row_iadd (a : list (list R)) (k : Z) (v : list R) : result (list (list R)) :=
  i ← np_index (length a) k;
  match a !! i with
  | Some row => Ok (<[i := zip_with Rplus row v]> a)
  | None => Err IndexError
  end.

(** Row update [a[k] += v] without the exception: out-of-range indices
    leave the array as it is. *)
Definition radd (k : Z) (v : list R) (a : list (list R)) : list (list R) :=
  match np_index (length a) k with
  | Ok i => alter (fun row => zip_with Rplus row v) i a
  | Err _ => a
  end.

(** The index [k] is out of range for an axis of length [n]. *)
Definition index_fails (n : nat) (k : Z) : bool :=
  match np_index n k with
  | Ok _ => false
  | Err _ => true
  end.

(** [np.argmin]: index of the first minimum; empty input raises. *)
Fixpoint argmin_from (best : R) (besti i : nat) (l : list R) : nat :=
  match l with
  | [] => besti
  | v :: l' =>
      if Rlt_dec v best then argmin_from v i (S i) l'
      else argmin_from best besti (S i) l'
  end.

Definition np_argmin (l : list R) : result nat :=
  match l with
  | [] => Err ValueError
  | v :: l' => Ok (argmin_from v 0%nat 1%nat l')
  end.

(** [np.clip(x, lo, hi)] on one entry, and on a 2-D array. *)
Definition clip (lo hi x : R) : R := Rmin hi (Rmax lo x).

Definition np_clip2 (a : list (list R)) (lo hi : R) : list (list R) :=
  map (map (clip lo hi)) a.

(** [a / c] for a 2-D array and a scalar. *)
Definition np_div2 (a : list (list R)) (c : R) : list (list R) :=
  map (map (fun v => v / c)) a.

(** Entry-wise order on 2-D arrays of the same shape. *)
Definition array_le (a b : list (list R)) : Prop :=
  Forall2 (Forall2 Rle) a b.

(** Every entry of a 2-D array satisfies [P]. *)
Definition all_entries (P : R -> Prop) (a : list (list R)) : Prop :=
  forall row v, row ∈ a -> v ∈ row -> P v.

(** The array has shape [(n, N)]. *)
Definition has_shape (n N : nat) (a : list (list R)) : Prop :=
  length a = n /\ forall row, row ∈ a -> length row = N.

End Arrays.

(** ** [Cells/Retina/cones.py] *)

Module cones.
Section Cones.
Local Open Scope R_scope.

(** [str.upper] on the ASCII letters. *)
Definition upper_ascii (c : ascii) : ascii :=
  let n := nat_of_ascii c in
  if (andb (97 <=? n) (n <=? 122))%nat then ascii_of_nat (n - 32) else c.

Fixpoint upper (s : string) : string :=
  match s with
  | EmptyString => EmptyString
  | String c s' => String (upper_ascii c) (upper s')
  end.


(** [{...}.get(key, default)] on a literal dictionary. *)
Fixpoint dict_get (d : list (string * R)) (key : string) (default : R) : R :=
  match d with
  | [] => default
  | (k, v) :: d' => if String.eqb k key then v else dict_get d' key default
  end.

Definition cone_sensitivity_nm (lambda_nm : R) (cone_type : string) : R :=
  let cone_type := upper cone_type in
  let mu := dict_get [("L"%string, 560); ("M"%string, 530); ("S"%string, 420)] cone_type 560 in
  let sigma := dict_get [("L"%string, 40); ("M"%string, 40); ("S"%string, 35)] cone_type 40 in
  let x := (lambda_nm - mu) / sigma in
  exp (-0.5 * x * x).

(** The Gaussian of the specification:
    [exp(-0.5 * ((lambda - peak) / bandwidth)^2)]. *)
Definition gaussian (peak bandwidth lambda_nm : R) : R :=
  exp (-0.5 * ((lambda_nm - peak) / bandwidth) ^ 2).

End Cones.
End cones.

(** ** [Stimulus/Light/photon.py] *)

Module photon.
Record Photon : Type := {
  lambda_nm : R;
  x : option R;
  y : option R;
  t : option R
}.

Section Energy.
Local Open Scope R_scope.

(** The property [energy_joule]: [E = hc / lambda], with the Planck
    constant (J s) and the speed of light (m/s) as locals. *)
Definition energy_joule (self : Photon) : result R :=
  let h := 6.62607015e-34 in
  let c := 2.99792458e8 in
  py_div (h * c) (lambda_nm self * 1e-9).

End Energy.
End photon.

(** ** [Stimulus/Light/photon_driver.py] *)

Module photon_driver.
Import photon.
Section Driver.
Local Open Scope R_scope.

(** Map a photon time to a frame index; [None] if out of window. *)
Definition _time_bin_index (t : option R) (t0 dt T : R) : result (option Z) :=
  match t with
  | None => Ok None
  | Some t =>
      if Rlt_dec t t0 then Ok None
      else if Rge_dec t (t0 + T) then Ok None
      else k ← py_floordiv (t - t0) dt; Ok (Some k)
  end.

(** Spatial weights from photon position [(px, py)] to the receptors at
    [(rx, ry)]: nearest neighbour when [sigma_um <= 0], otherwise a
    Gaussian normalised by its sum when that sum is positive. *)
Definition _gaussian_psf_weights (px_um py_um : R) (rx_um ry_um : list R)
    (sigma_um : R) : result (list R) :=
  if Rle_dec sigma_um 0 then
    let d2 := zip_with (fun rx ry => (rx - px_um) ^ 2 + (ry - py_um) ^ 2) rx_um ry_um in
    idx ← np_argmin d2;
    let w := replicate (length rx_um) 0 in
    Ok (<[idx := 1]> w)
  else
    let dx := map (fun rx => rx - px_um) rx_um in
    let dy := map (fun ry => ry - py_um) ry_um in
    let r2 := zip_with (fun dx dy => dx * dx + dy * dy) dx dy in
    let w := map (fun r2 => exp (-0.5 * r2 / sigma_um ^ 2)) r2 in
    let s := np_sum w in
    if Rgt_dec s 0 then Ok (map (fun w => w / s) w) else Ok w.

(** [N = 0 if pos.size == 0 else pos.shape[0]] for an [(N, 2)] array. *)
Definition n_receptors (pos : list (R * R)) : nat :=
  match pos with
  | [] => 0%nat
  | _ => length pos
  end.

(** [n_steps = int(np.ceil(T / dt))]. *)
Definition n_steps_of (T dt : R) : result Z :=
  q ← py_div T dt; Ok (Rceil q).

(** The bare name [cone_sensitivity_nm] in the module's globals.  The
    module's import is [from Cells.Retina import cones], which binds
    [cones] only; [binding] is what the name resolves to when the builder
    runs, [None] for an unbound name. *)
Definition call_cone_sensitivity_nm (binding : option (R -> string -> R))
    (lambda_nm : R) (cone_type : string) : result R :=
  match binding with
  | Some f => Ok (f lambda_nm cone_type)
  | None => Err NameError
  end.

(** The globals as the module's own statements leave them. *)
Definition module_binding : option (R -> string -> R) := None.

(** The binding the call is written for. *)
Definition intended_binding : option (R -> string -> R) :=
  Some cones.cone_sensitivity_nm.

(** [L_series[tkey]]. *)
Definition getitem (L_series : gmap string (list (list R))) (tkey : string)
  : result (list (list R)) :=
  match L_series !! tkey with
  | Some a => Ok a
  | None => Err KeyError
  end.

(** [L_series[tkey][k] += v]. *)
Definition iadd_at (L_series : gmap string (list (list R)))
    (write : string * Z * list R) : result (gmap string (list (list R))) :=
  let '(tkey, k, v) := write in
  a ← getitem L_series tkey;
  a' ← row_iadd a k v;
  Ok (<[tkey := a']> L_series).

(** [if pos.size: w_sp = _gaussian_psf_weights(...);
     if w > 0: L_series[tkey][k] += w * w_sp]. *)
Definition deposit (L_series : gmap string (list (list R))) (tkey : string)
    (pos : list (R * R)) (w : R) (k : Z) (px py sigma_um : R)
  : result (gmap string (list (list R))) :=
  match pos with
  | [] => Ok L_series
  | _ =>
      w_sp ← _gaussian_psf_weights px py (map fst pos) (map snd pos) sigma_um;
      if Rgt_dec w 0 then iadd_at L_series (tkey, k, map (Rmult w) w_sp)
      else Ok L_series
  end.

(** Body of [for ph in photons] in [build_L_series_for_cones]. *)
Definition accumulate_cone_photon (binding : option (R -> string -> R))
    (S_pos M_pos L_pos : list (R * R)) (T dt t0 sigma_um : R)
    (L_series : gmap string (list (list R))) (ph : Photon)
  : result (gmap string (list (list R))) :=
  k ← _time_bin_index (Some (default t0 (t ph))) t0 dt T;
  match k with
  | None => Ok L_series
  | Some k =>
      match x ph, y ph with
      | Some px, Some py =>
          wS ← call_cone_sensitivity_nm binding (lambda_nm ph) "S";
          wM ← call_cone_sensitivity_nm binding (lambda_nm ph) "M";
          wL ← call_cone_sensitivity_nm binding (lambda_nm ph) "L";
          L1 ← deposit L_series "S" S_pos wS k px py sigma_um;
          L2 ← deposit L1 "M" M_pos wM k px py sigma_um;
          deposit L2 "L" L_pos wL k px py sigma_um
      | _, _ => Ok L_series
      end
  end.

(** Body of [for tkey, pos in cone_positions.items()]. *)
Definition allocate (n_steps : Z) (L_series : gmap string (list (list R)))
    (item : string * list (R * R)) : result (gmap string (list (list R))) :=
  z ← np_zeros2 n_steps (n_receptors item.2);
  Ok (<[item.1 := z]> L_series).

Definition eps : R := 1e-12.

(** Body of [for tkey in ['S', 'M', 'L']]. *)
Definition normalize (photons_per_L1 : R) (L_series : gmap string (list (list R)))
    (tkey : string) : result (gmap string (list (list R))) :=
  a ← getitem L_series tkey;
  if decide (size2 a = 0%nat) then Ok L_series
  else Ok (<[tkey := np_clip2 (np_div2 a (photons_per_L1 + eps)) 0 1]> L_series).

Definition build_L_series_for_cones (binding : option (R -> string -> R))
    (photons : list Photon) (cone_positions : gmap string (list (R * R)))
    (T dt t0 sigma_um photons_per_L1 : R)
  : result (gmap string (list (list R))) :=
  n_steps ← n_steps_of T dt;
  L_series ← for_each (allocate n_steps) (map_to_list cone_positions) ∅;
  let S_pos := default [] (cone_positions !! "S") in
  let M_pos := default [] (cone_positions !! "M") in
  let L_pos := default [] (cone_positions !! "L") in
  L_series ← for_each
    (accumulate_cone_photon binding S_pos M_pos L_pos T dt t0 sigma_um)
    photons L_series;
  for_each (normalize photons_per_L1) ["S"; "M"; "L"] L_series.

(** Body of [for ph in photons] in [build_L_series_for_rods]. *)
Definition accumulate_rod_photon (rx ry : list R) (T dt t0 sigma_um : R)
    (Lr : list (list R)) (ph : Photon) : result (list (list R)) :=
  k ← _time_bin_index (Some (default t0 (t ph))) t0 dt T;
  match k, x ph, y ph with
  | Some k, Some px, Some py =>
      w_sp ← _gaussian_psf_weights px py rx ry sigma_um;
      row_iadd Lr k w_sp
  | _, _, _ => Ok Lr
  end.

Definition build_L_series_for_rods (photons : list Photon)
    (rod_positions : list (R * R)) (T dt t0 sigma_um photons_per_L1 : R)
  : result (list (list R)) :=
  n_steps ← n_steps_of T dt;
  let N := n_receptors rod_positions in
  Lr ← np_zeros2 n_steps N;
  if decide (N = 0%nat) then Ok Lr
  else
    let rx := map fst rod_positions in
    let ry := map snd rod_positions in
    Lr ← for_each (accumulate_rod_photon rx ry T dt t0 sigma_um) photons Lr;
    Ok (np_clip2 (np_div2 Lr (photons_per_L1 + eps)) 0 1).

(** A photon the builders discard: arrival time outside
    [[t0, t0 + T)], or a spatial coordinate missing. *)
Definition discarded (t0 T : R) (ph : Photon) : Prop :=
  (exists tv, t ph = Some tv /\ (tv < t0 \/ tv >= t0 + T))
  \/ x ph = None \/ y ph = None.

(** *** The loops seen as lists of row updates

    The functions below do not occur in the source.  They describe what a
    photon does to the accumulators without running the loop: the row
    updates it issues, and the effect of one update ([radd]) on a state
    that has the target row. *)

Definition apply_write (L_series : gmap string (list (list R)))
    (write : string * Z * list R) : gmap string (list (list R)) :=
  alter (radd write.1.2 write.2) write.1.1 L_series.

(** Bin and position of a photon that passes both filters. *)
Definition retained (T dt t0 : R) (ph : Photon) : option (Z * R * R) :=
  match _time_bin_index (Some (default t0 (t ph))) t0 dt T with
  | Ok (Some k) =>
      match x ph, y ph with
      | Some px, Some py => Some (k, px, py)
      | _, _ => None
      end
  | _ => None
  end.

Definition psf_weights (px py : R) (pos : list (R * R)) (sigma_um : R) : list R :=
  match _gaussian_psf_weights px py (map fst pos) (map snd pos) sigma_um with
  | Ok w => w
  | Err _ => []
  end.

Definition deposit_writes (tkey : string) (pos : list (R * R)) (w : R) (k : Z)
    (px py sigma_um : R) : list (string * Z * list R) :=
  match pos with
  | [] => []
  | _ =>
      if Rgt_dec w 0 then [(tkey, k, map (Rmult w) (psf_weights px py pos sigma_um))]
      else []
  end.

Definition cone_writes (f : R -> string -> R) (S_pos M_pos L_pos : list (R * R))
    (T dt t0 sigma_um : R) (ph : Photon) : list (string * Z * list R) :=
  match retained T dt t0 ph with
  | None => []
  | Some (k, px, py) =>
      deposit_writes "S" S_pos (f (lambda_nm ph) "S") k px py sigma_um
      ++ deposit_writes "M" M_pos (f (lambda_nm ph) "M") k px py sigma_um
      ++ deposit_writes "L" L_pos (f (lambda_nm ph) "L") k px py sigma_um
  end.

Definition rod_writes (rod_positions : list (R * R)) (T dt t0 sigma_um : R)
    (ph : Photon) : list (Z * list R) :=
  match retained T dt t0 ph with
  | None => []
  | Some (k, px, py) => [(k, psf_weights px py rod_positions sigma_um)]
  end.

(** The keys the cone builder accumulates into and normalises. *)
Definition is_cone_key (tkey : string) : Prop :=
  tkey = "S"%string \/ tkey = "M"%string \/ tkey = "L"%string.

#[global] Instance is_cone_key_dec (tkey : string) : Decision (is_cone_key tkey).
Proof. unfold is_cone_key. apply _. Defined.

(** What the normalisation loop does to one array. *)
Definition normalize_array (photons_per_L1 : R) (a : list (list R)) : list (list R) :=
  if decide (size2 a = 0%nat) then a
  else np_clip2 (np_div2 a (photons_per_L1 + eps)) 0 1.

(** The three iterations of the normalisation loop on a state that has
    the three cone keys. *)
Definition normalized (photons_per_L1 : R) (L_series : gmap string (list (list R)))
  : gmap string (list (list R)) :=
  alter (normalize_array photons_per_L1) "L"
    (alter (normalize_array photons_per_L1) "M"
       (alter (normalize_array photons_per_L1) "S" L_series)).

(** State of the cone accumulators between two loop iterations: the keys
    of [cone_positions], each with an array of [n] rows and one column per
    receptor, all-zero outside the three cone keys. *)
Definition series_inv (cone_positions : gmap string (list (R * R))) (n : nat)
    (L_series : gmap string (list (list R))) : Prop :=
  forall tkey,
    match cone_positions !! tkey with
    | Some pos =>
        exists a, L_series !! tkey = Some a /\
                  has_shape n (n_receptors pos) a /\
                  (~ is_cone_key tkey -> a = replicate n (replicate (n_receptors pos) 0))
    | None => L_series !! tkey = None
    end.

(** A row update the cone loop can issue. *)
Definition good_write (cone_positions : gmap string (list (R * R)))
    (write : string * Z * list R) : Prop :=
  is_cone_key write.1.1 /\
  exists pos, cone_positions !! write.1.1 = Some pos /\
              length write.2 = n_receptors pos.

(** The all-zero accumulators the cone builder starts from. *)
Definition zero_series (n : nat) (cone_positions : gmap string (list (R * R)))
  : gmap string (list (list R)) :=
  (fun pos => replicate n (replicate (n_receptors pos) 0)) <$> cone_positions.

End Driver.
End photon_driver.

(** ** [Utils/hexagonal_layer.py] *)

Module hexagonal_layer.

Record HexPatch : Type := {
  radius_um : R;
  pitch_um : R;
  jitter_um : R;
  seed : option Z;
  center : R * R;
  coords : list (R * R)
}.

Section Lattice.
Local Open Scope R_scope.

(** [np.arctan2(y, x)]. *)
Definition np_arctan2 (y x : R) : R :=
  if Rlt_dec 0 x then atan (y / x)
  else if Rlt_dec x 0 then
    if Rle_dec 0 y then atan (y / x) + PI else atan (y / x) - PI
  else if Rlt_dec 0 y then PI / 2
  else if Rlt_dec y 0 then - (PI / 2)
  else 0.

(** [a.mean()]. *)
Definition np_mean (a : list R) : R := np_sum a / INR (length a).

(** Order on sort keys [(primary, secondary)]. *)
Definition key_le (k1 k2 : R * R) : Prop :=
  k1.1 < k2.1 \/ (k1.1 = k2.1 /\ k1.2 <= k2.2).

Definition key_leb (k1 k2 : R * R) : bool :=
  if Rlt_dec k1.1 k2.1 then true
  else if Req_dec_T k1.1 k2.1 then (if Rle_dec k1.2 k2.2 then true else false)
  else false.

(** Stable insertion of index [i] in front of the first [j] whose key is
    not smaller. *)
Fixpoint insert_index (key : nat -> R * R) (i : nat) (l : list nat) : list nat :=
  match l with
  | [] => [i]
  | j :: l' =>
      if key_leb (key i) (key j) then i :: j :: l'
      else j :: insert_index key i l'
  end.

(** [np.lexsort((secondary, primary))]: the indices in increasing order
    of [primary], ties by [secondary], remaining ties in index order. *)
Definition np_lexsort (secondary primary : list R) : list nat :=
  let key i := (nth i primary 0, nth i secondary 0) in
  foldr (insert_index key) [] (seq 0 (length primary)).

(** [coords[order]]. *)
Definition take_rows (coords : list (R * R)) (order : list nat) : list (R * R) :=
  map (fun i => nth i coords (0, 0)) order.

(** The external [hexalattice.create_hex_grid(nx, ny, min_diam)] (its
    first return value) and the normal samples of
    [np.random.default_rng(seed).normal(0.0, scale, size=(n, 2))], row
    [i] of [n]. *)
Variable create_hex_grid : Z -> Z -> R -> list (R * R).
Variable rng_normal : option Z -> R -> nat -> nat -> R * R.

(** [nx] and [ny]: the grid covers the bounding square of the circle. *)
Definition grid_dims (radius_um pitch_um : R) : result (Z * Z) :=
  let width_um := 2 * radius_um in
  let height_um := 2 * radius_um in
  qx ← py_div width_um pitch_um;
  let nx := (Rceil qx + 2)%Z in
  let ny := (Rceil (height_um / (pitch_um * sqrt 3 / 2)) + 2)%Z in
  Ok (nx, ny).

(** [coords[:, 0] -= coords[:, 0].mean(); coords[:, 1] -= coords[:, 1].mean()]. *)
Definition recenter (coords : list (R * R)) : list (R * R) :=
  let m0 := np_mean (map fst coords) in
  let coords := map (fun p => (p.1 - m0, p.2)) coords in
  let m1 := np_mean (map snd coords) in
  map (fun p => (p.1, p.2 - m1)) coords.

(** [coords[coords[:, 0]**2 + coords[:, 1]**2 <= radius_um**2]]. *)
Definition circular_mask (radius_um : R) (coords : list (R * R)) : list (R * R) :=
  let r2 := radius_um ^ 2 in
  List.filter (fun p => bool_decide (p.1 ^ 2 + p.2 ^ 2 <= r2)) coords.

(** [if jitter_um > 0: coords += rng.normal(0.0, jitter_um, size=coords.shape)]. *)
Definition add_jitter (jitter_um : R) (seed : option Z) (coords : list (R * R))
  : list (R * R) :=
  if Rlt_dec 0 jitter_um then
    imap (fun i p =>
            let n := rng_normal seed jitter_um (length coords) i in
            (p.1 + n.1, p.2 + n.2)) coords
  else coords.

(** [coords[:, 0] += center[0]; coords[:, 1] += center[1]]. *)
Definition translate (center : R * R) (coords : list (R * R)) : list (R * R) :=
  map (fun p => (p.1 + center.1, p.2 + center.2)) coords.

(** The radial sort that closes the function: [r], [theta], [lexsort],
    [coords[order]]. *)
Definition radial_sort (coords : list (R * R)) : list (R * R) :=
  let r := map (fun p => sqrt (p.1 ^ 2 + p.2 ^ 2)) coords in
  let theta := map (fun p => np_arctan2 p.2 p.1) coords in
  let order := np_lexsort r theta in
  take_rows coords order.

Definition make_hex_circular_patch (radius_um pitch_um jitter_um : R)
    (seed : option Z) (center : R * R) : result HexPatch :=
  if Rle_dec radius_um 0 then
    Ok (Build_HexPatch radius_um pitch_um jitter_um seed center [])
  else
    dims ← grid_dims radius_um pitch_um;
    let coords := create_hex_grid dims.1 dims.2 pitch_um in
    let coords := recenter coords in
    let coords := circular_mask radius_um coords in
    let coords := add_jitter jitter_um seed coords in
    let coords := translate center coords in
    let coords := radial_sort coords in
    Ok (Build_HexPatch radius_um pitch_um jitter_um seed center coords).

End Lattice.

Section Ordering.
Local Open Scope R_scope.

(** Polar angle and radius of [p] measured from [c]. *)
Definition polar_key (c p : R * R) : R * R :=
  (np_arctan2 (p.2 - c.2) (p.1 - c.1), sqrt ((p.1 - c.1) ^ 2 + (p.2 - c.2) ^ 2)).

(** [l] is ordered by angle first and radius second, both measured
    from [c]. *)
Definition sorted_about (c : R * R) (l : list (R * R)) : Prop :=
  StronglySorted (fun p q => key_le (polar_key c p) (polar_key c q)) l.

(** Euclidean distance. *)
Definition dist (p q : R * R) : R :=
  sqrt ((p.1 - q.1) ^ 2 + (p.2 - q.2) ^ 2).

(** The row-offset hexagonal grid of [hexalattice]: [ny] rows of [nx]
    points, horizontal spacing [d], vertical spacing [d * sqrt 3 / 2],
    odd rows shifted right by [d / 2], listed row by row.  Used as a
    concrete instance of [create_hex_grid]. *)
Definition hex_row (nx : nat) (d : R) (j : nat) : list (R * R) :=
  map (fun i => ((INR i + (if Nat.odd j then 0.5 else 0)) * d,
                 INR j * (sqrt 3 / 2) * d))
      (seq 0 nx).

Definition hex_grid (nx ny : Z) (d : R) : list (R * R) :=
  concat (map (hex_row (Z.to_nat nx) d) (seq 0 (Z.to_nat ny))).

(** A generator that draws no noise, for runs with [jitter_um <= 0]. *)
Definition no_noise (seed : option Z) (scale : R) (n i : nat) : R * R := (0, 0).

(** A generator whose every sample is [(scale, - scale)], a concrete
    stand-in for the random stream in runs with [jitter_um > 0]. *)
Definition constant_noise (seed : option Z) (scale : R) (n i : nat) : R * R :=
  (scale, - scale).

End Ordering.
End hexagonal_layer.

(** ** [PrimaryVisualPathway/NeuralRetina/MaculaLutea/input_layer.py] *)

Module input_layer.

Record ConeTypes : Type := { L : Q; M : Q; S : Q }.

Record Profile : Type := {
  cone : Q;
  rod : Q;
  cone_types : ConeTypes
}.

Section ProfileTable.
Local Open Scope Q_scope.

(** Python's [max(a, b)]. *)
Definition py_max (a b : Q) : Q := if Qlt_le_dec a b then b else a.

(** The eccentricity bands: cone density, rod density and L:M:S ratio. *)
Definition band (ecc_um : Q) : Z * Z * (Q * Q * Q) :=
  if Qlt_le_dec ecc_um 100 then (200000%Z, 0%Z, (0.50, 0.50, 0.00))
  else if Qlt_le_dec ecc_um 350 then (180000%Z, 0%Z, (0.48, 0.48, 0.04))
  else if Qlt_le_dec ecc_um 1500 then (100000%Z, 20000%Z, (0.50, 0.45, 0.05))
  else if Qlt_le_dec ecc_um 2750 then (40000%Z, 100000%Z, (0.50, 0.43, 0.07))
  else if Qlt_le_dec ecc_um 5500 then (15000%Z, 150000%Z, (0.50, 0.42, 0.08))
  else (5000%Z, 120000%Z, (0.48, 0.44, 0.08)).

Definition photoreceptor_profile (ecc_um : Q) : Profile :=
  let '(cone_density, rod_density, lms_ratio) := band ecc_um in
  let total := (cone_density + rod_density)%Z in
  if (total =? 0)%Z then
    {| cone := 0; rod := 0; cone_types := {| L := 0; M := 0; S := 0 |} |}
  else
    let p_cone := inject_Z cone_density / inject_Z total in
    let p_rod := inject_Z rod_density / inject_Z total in
    let '(l, m, s_) := lms_ratio in
    let s := py_max 1e-12 (l + m + s_) in
    {| cone := p_cone;
       rod := p_rod;
       cone_types := {| L := p_cone * (l / s);
                        M := p_cone * (m / s);
                        S := p_cone * (s_ / s) |} |}.

End ProfileTable.
End input_layer.

(** ** The same functions on binary64 numbers

    Python's [float] and numpy's [float64] are IEEE 754 binary64 numbers,
    and so are the kernel's primitive floats, with the same correctly
    rounded [+], [-], [*], [/] and the same comparisons.  This module
    embeds the time binning, the point-spread weights, the rod builder and
    the cone sensitivity once more on these numbers: it runs the program
    where rounding, underflow or NaN decide what it returns. *)

Module binary64.
Import PrimFloat.
Local Open Scope float_scope.
#[local] Set Warnings "-inexact-float".

(** *** Library functions *)

(** A finite float as [m * 2^e]. *)
Definition decode (x : float) : option (Z * Z) :=
  match FloatOps.Prim2SF x with
  | SpecFloat.S754_zero _ => Some (0, 0)%Z
  | SpecFloat.S754_finite s m e => Some (if s then Z.neg m else Z.pos m, e)
  | _ => None
  end.

(** [m * 2^e] rounded to the nearest float, ties to even. *)
Definition round (m e : Z) : float :=
  FloatOps.SF2Prim (SpecFloat.binary_normalize FloatOps.prec FloatOps.emax m e false).

(** C's [floor], [ceil] and [fmod]; all three are exact. *)
Definition floor (x : float) : float :=
  match decode x with
  | Some (m, e) => if (m =? 0)%Z || (0 <=? e)%Z then x else round (Z.shiftl m e) 0
  | None => x
  end.

Definition np_ceil (x : float) : float := - floor (- x).

Definition fmod (x y : float) : float :=
  match decode x, decode y with
  | Some (mx, ex), Some (my, ey) =>
      if (my =? 0)%Z then nan
      else
        let e := Z.min ex ey in
        let r := Z.rem (mx * 2 ^ (ex - e)) (my * 2 ^ (ey - e)) in
        if (r =? 0)%Z then (if get_sign x then neg_zero else zero) else round r e
  | Some _, None => if is_nan y then nan else x
  | None, _ => nan
  end.

(** Python [a / b] on floats. *)
Definition py_div (a b : float) : result float :=
  if b =? 0 then Err ZeroDivisionError else Ok (a / b).

(** Python [vx // wx] on floats, as CPython's [float_floor_div] computes
    it: the quotient of [vx - fmod(vx, wx)] by [wx], snapped to the nearest
    integral value. *)
Definition py_floordiv (vx wx : float) : result float :=
  if wx =? 0 then Err ZeroDivisionError
  else
    let rem := fmod vx wx in
    let div := (vx - rem) / wx in
    let div :=
      if negb (rem =? 0) && negb (Bool.eqb (wx <? 0) (rem <? 0)) then div - 1 else div in
    if negb (div =? 0) then
      let floordiv := floor div in
      Ok (if 0.5 <? div - floordiv then floordiv + 1 else floordiv)
    else Ok (if get_sign (vx / wx) then neg_zero else zero).

(** Python [int(x)]: truncation; infinities and NaN raise. *)
Definition py_int (x : float) : result Z :=
  match decode x with
  | Some (m, e) => Ok (if (0 <=? e)%Z then m * 2 ^ e else Z.quot m (2 ^ (- e)))%Z
  | None => if is_nan x then Err ValueError else Err OverflowError
  end.

(** [exp x] to about 117 bits, as mantissa and exponent: the Taylor
    series of [x / 1024] in 160-bit fixed point, squared ten times. *)
Definition exp_bits (m e : Z) : Z * Z :=
  let one := (2 ^ 160)%Z in
  let y := Z.shiftl m (e + 150) in
  let series :=
    fold_left (fun '(term, acc) k =>
                 let term := (Z.shiftr (term * y) 160 / k)%Z in (term, (acc + term)%Z))
              (map Z.of_nat (seq 1 40)) (one, one) in
  Nat.iter 10 (fun '(M, E) =>
                 let d := (Z.log2 (M * M) - 127)%Z in
                 (Z.shiftr (M * M) d, 2 * E + d)%Z)
           (snd series, (-160)%Z).

(** [np.exp]: the exponential rounded to the nearest float.  Below
    [-746] the exponential is under half the least positive float and the
    result is [0.0]; above [710] it is [inf].  The C library and numpy
    agree with the rounded exponential up to one unit in the last place. *)
Definition np_exp (x : float) : float :=
  match decode x with
  | Some (m, e) =>
      if x <? -746 then 0
      else if 710 <? x then infinity
      else let '(M, E) := exp_bits m e in round M E
  | None => if x <? 0 then 0 else x
  end.

(** [str.upper]: the ASCII letters, and U+017F (LATIN SMALL LETTER LONG S,
    the bytes 197 191 in UTF-8), whose upper case is [S].  Other characters
    outside ASCII are left as they are: none of them has [L], [M] or [S] as
    its upper case, the only strings [cone_sensitivity_nm] looks up. *)
Fixpoint upper (s : string) : string :=
  match s with
  | EmptyString => EmptyString
  | String "197" (String "191" s') => String "S" (upper s')
  | String c s' => String (cones.upper_ascii c) (upper s')
  end.

(** *** numpy arrays of floats *)

(** [w.sum()], left to right.  numpy adds longer arrays in another
    order; for up to two entries every order gives the same float. *)
Definition np_sum (w : list float) : float := fold_left add w 0.

(** [np.argmin] on an array without NaN: index of the first minimum;
    empty input raises. *)
Fixpoint argmin_from (best : float) (besti i : nat) (l : list float) : nat :=
  match l with
  | [] => besti
  | v :: l' =>
      if v <? best then argmin_from v i (S i) l'
      else argmin_from best besti (S i) l'
  end.

Definition np_argmin (l : list float) : result nat :=
  match l with
  | [] => Err ValueError
  | v :: l' => Ok (argmin_from v 0%nat 1%nat l')
  end.

(** [np.zeros((n, N))]. *)
Definition np_zeros2 (n : Z) (N : nat) : result (list (list float)) :=
  if (n <? 0)%Z then Err ValueError
  else Ok (replicate (Z.to_nat n) (replicate N 0)).

(** [a[k] += v]. *)
Definition row_iadd (a : list (list float)) (k : Z) (v : list float)
  : result (list (list float)) :=
  i ← np_index (length a) k;
  match a !! i with
  | Some row => Ok (<[i := zip_with add row v]> a)
  | None => Err IndexError
  end.

(** [np.clip(x, lo, hi)] on one entry: [min(max(x, lo), hi)], where a NaN
    [x] passes through both. *)
Definition clip (lo hi x : float) : float :=
  let m := if is_nan x || (lo <? x) then x else lo in
  if is_nan m || (m <? hi) then m else hi.

(** The test [0 <= v <= 1] on a float; false for NaN. *)
Definition in_unit_interval (v : float) : bool := (0 <=? v) && (v <=? 1).

(** *** [Cells/Retina/cones.py] *)

Fixpoint dict_get (d : list (string * float)) (key : string) (default : float) : float :=
  match d with
  | [] => default
  | (k, v) :: d' => if String.eqb k key then v else dict_get d' key default
  end.

Definition cone_sensitivity_nm (lambda_nm : float) (cone_type : string) : float :=
  let cone_type := upper cone_type in
  let mu := dict_get [("L"%string, 560); ("M"%string, 530); ("S"%string, 420)] cone_type 560 in
  let sigma := dict_get [("L"%string, 40); ("M"%string, 40); ("S"%string, 35)] cone_type 40 in
  let x := (lambda_nm - mu) / sigma in
  np_exp (-0.5 * x * x).

(** *** [Stimulus/Light/photon.py] and [photon_driver.py] *)

Record Photon : Type := {
  lambda_nm : float;
  x : option float;
  y : option float;
  t : option float
}.

(** [if t < t0 or t >= t0 + T: return None], then
    [int((t - t0) // dt)]. *)
Definition _time_bin_index (t : option float) (t0 dt T : float) : result (option Z) :=
  match t with
  | None => Ok None
  | Some t =>
      if (t <? t0) || (t0 + T <=? t) then Ok None
      else q ← py_floordiv (t - t0) dt; k ← py_int q; Ok (Some k)
  end.

(** The squares [(...)**2] and [sigma_um**2] are the products of the
    number with itself. *)
Definition _gaussian_psf_weights (px_um py_um : float) (rx_um ry_um : list float)
    (sigma_um : float) : result (list float) :=
  if sigma_um <=? 0 then
    let d2 := zip_with (fun rx ry => (rx - px_um) * (rx - px_um) + (ry - py_um) * (ry - py_um))
                       rx_um ry_um in
    idx ← np_argmin d2;
    let w := replicate (length rx_um) 0 in
    Ok (<[idx := 1]> w)
  else
    let dx := map (fun rx => rx - px_um) rx_um in
    let dy := map (fun ry => ry - py_um) ry_um in
    let r2 := zip_with (fun dx dy => dx * dx + dy * dy) dx dy in
    let w := map (fun r2 => np_exp (-0.5 * r2 / (sigma_um * sigma_um))) r2 in
    let s := np_sum w in
    if 0 <? s then Ok (map (fun w => w / s) w) else Ok w.

(** [n_steps = int(np.ceil(T / dt))]. *)
Definition n_steps_of (T dt : float) : result Z :=
  q ← py_div T dt; py_int (np_ceil q).

(** Body of [for ph in photons] in [build_L_series_for_rods]. *)

Definition accumulate_rod_photon (rx ry : list float) (T dt t0 sigma_um : float)
    (Lr : list (list float)) (ph : Photon) : result (list (list float)) :=
  k ← _time_bin_index (Some (default t0 (t ph))) t0 dt T;
  match k, x ph, y ph with
  | Some k, Some px, Some py =>
      w_sp ← _gaussian_psf_weights px py rx ry sigma_um;
      row_iadd Lr k w_sp
  | _, _, _ => Ok Lr
  end.

(** [N] is the number of rows of [rod_positions]; the last line is
    [np.clip(Lr / (photons_per_L1 + 1e-12), 0.0, 1.0)], where the division
    by [0.0] gives an infinity or NaN and no exception. *)
Definition build_L_series_for_rods (photons : list Photon)
    (rod_positions : list (float * float)) (T dt t0 sigma_um photons_per_L1 : float)
  : result (list (list float)) :=
  n_steps ← n_steps_of T dt;
  let N := length rod_positions in
  Lr ← np_zeros2 n_steps N;
  if decide (N = 0%nat) then Ok Lr
  else
    let rx := map fst rod_positions in
    let ry := map snd rod_positions in
    Lr ← for_each (accumulate_rod_photon rx ry T dt t0 sigma_um) photons Lr;
    Ok (map (map (fun v => clip 0 1 (v / (photons_per_L1 + 1e-12)))) Lr).

End binary64.

(** * Properties *)

(** ** Receptor profile *)

Section ProfileFacts.
Import input_layer.
Local Open Scope Q_scope.

(** C7. For every eccentricity [>= 0] the cone and rod probabilities sum
    to 1 and the three subtype fractions L, M, S sum to the cone
    probability. *)
Theorem photoreceptor_profile_normalized (ecc_um : Q) :
  0 <= ecc_um ->
  let p := photoreceptor_profile ecc_um in
  cone p + rod p == 1 /\
  L (cone_types p) + M (cone_types p) + S (cone_types p) == cone p.
Proof.
  intros _. unfold photoreceptor_profile, band.
  repeat (destruct (Qlt_le_dec ecc_um _); [cbn; split; reflexivity|]).
  cbn; split; reflexivity.
Qed.

Lemma photoreceptor_profile_normalized_witness :
  0 <= 2000 /\
  cone (photoreceptor_profile 2000) + rod (photoreceptor_profile 2000) == 1.
Proof.
  split; [discriminate|].
  apply (photoreceptor_profile_normalized 2000). discriminate.
Defined.

End ProfileFacts.

(** ** Floor, ceiling and Python division *)

Section RealFacts.
Local Open Scope R_scope.

Lemma Rfloor_spec (v : R) : IZR (Rfloor v) <= v < IZR (Rfloor v) + 1.
Proof.
  unfold Rfloor. destruct (base_Int_part v) as [H1 H2]. lra.
Qed.

Lemma Rceil_spec (v : R) : v <= IZR (Rceil v) < v + 1.
Proof.
  unfold Rceil. destruct (base_Int_part (- v)) as [H1 H2].
  rewrite opp_IZR. lra.
Qed.

Lemma Rfloor_unique (v : R) (z : Z) : IZR z <= v < IZR z + 1 -> Rfloor v = z.
Proof.
  intros [H1 H2]. destruct (Rfloor_spec v) as [H3 H4].
  assert (Ha : (z < Rfloor v + 1)%Z) by (apply lt_IZR; rewrite plus_IZR; lra).
  assert (Hb : (Rfloor v < z + 1)%Z) by (apply lt_IZR; rewrite plus_IZR; lra).
  lia.
Qed.

Lemma Rceil_unique (v : R) (z : Z) : IZR z - 1 < v <= IZR z -> Rceil v = z.
Proof.
  intros [H1 H2]. destruct (Rceil_spec v) as [H3 H4].
  assert (Ha : (z < Rceil v + 1)%Z) by (apply lt_IZR; rewrite plus_IZR; lra).
  assert (Hb : (Rceil v < z + 1)%Z) by (apply lt_IZR; rewrite plus_IZR; lra).
  lia.
Qed.

Lemma py_div_nonzero (a b : R) : b <> 0 -> py_div a b = Ok (a / b).
Proof. intros Hb. unfold py_div. destruct (Req_dec_T b 0); [contradiction | reflexivity]. Qed.

Lemma py_floordiv_nonzero (a b : R) : b <> 0 -> py_floordiv a b = Ok (Rfloor (a / b)).
Proof. intros Hb. unfold py_floordiv. destruct (Req_dec_T b 0); [contradiction | reflexivity]. Qed.

End RealFacts.


(** ** Spectral sensitivity *)

Section ConeFacts.
Import cones.
Local Open Scope R_scope.



Lemma cone_sensitivity_nm_unfold (lambda_nm : R) (cone_type : string) :
  cone_sensitivity_nm lambda_nm cone_type =
  gaussian
    (dict_get [("L"%string, 560); ("M"%string, 530); ("S"%string, 420)] (upper cone_type) 560)
    (dict_get [("L"%string, 40); ("M"%string, 40); ("S"%string, 35)] (upper cone_type) 40)
    lambda_nm.
Proof. unfold cone_sensitivity_nm, gaussian. f_equal. ring. Qed.



End ConeFacts.

(** ** Point-spread weights *)

Section PsfFacts.
Import photon_driver.
Local Open Scope R_scope.

Lemma np_sum_map_div (w : list R) (s : R) :
  np_sum (map (fun v => v / s) w) = np_sum w / s.
Proof.
  induction w as [|v w IH]; cbn; [lra|].
  fold (np_sum (map (fun v => v / s) w)). fold (np_sum w). rewrite IH. lra.
Qed.

Lemma np_sum_pos (w : list R) :
  w <> [] -> (forall v, v ∈ w -> 0 < v) -> 0 < np_sum w.
Proof.
  induction w as [|v w IH]; [done|]. intros _ Hpos. cbn. fold (np_sum w).
  assert (0 < v) by (apply Hpos; left).
  destruct w as [|v' w']; [cbn; lra|].
  assert (0 < np_sum (v' :: w')).
  { apply IH; [done|]. intros u Hu. apply Hpos. by right. }
  lra.
Qed.

Lemma np_sum_nonneg (w : list R) :
  (forall v, v ∈ w -> 0 <= v) -> 0 <= np_sum w.
Proof.
  induction w as [|v w IH]; intros Hpos; cbn; [lra|]. fold (np_sum w).
  assert (0 <= v) by (apply Hpos; left).
  assert (0 <= np_sum w) by (apply IH; intros u Hu; apply Hpos; by right).
  lra.
Qed.

(** C3, amended. For [sigma_um > 0] and a receptor array with at least
    one receptor within [38 * sigma_um] of the photon, the weights returned
    by [_gaussian_psf_weights] (one per receptor) sum to 1; in exact
    arithmetic the sum is 1 itself, hence within 1e-9 of it.  With every
    receptor farther away than about [38.6 * sigma_um] each binary64
    exponential underflows to [0.0], the sum [s] is 0, the guard
    [if s > 0] skips the division and the weights are all 0
    ([gaussian_psf_weights_underflow]). *)
Theorem gaussian_psf_weights_sum_to_one (px py sigma_um : R) (rx ry : list R) :
  0 < sigma_um -> rx <> [] -> length rx = length ry ->
  (exists i x y, rx !! i = Some x /\ ry !! i = Some y /\
                 (x - px) ^ 2 + (y - py) ^ 2 <= (38 * sigma_um) ^ 2) ->
  exists w,
    _gaussian_psf_weights px py rx ry sigma_um = Ok w /\
    length w = length rx /\
    np_sum w = 1 /\
    Rabs (np_sum w - 1) <= 1e-9.
Proof.
  intros Hs Hne Hlen _. unfold _gaussian_psf_weights.
  destruct (Rle_dec sigma_um 0) as [?|_]; [lra|].
  set (w := map _ (zip_with _ _ _)).
  assert (Hwlen : length w = length rx).
  { unfold w. rewrite length_map, length_zip_with, !length_map. lia. }
  assert (Hpos : 0 < np_sum w).
  { apply np_sum_pos.
    - intros Hnil. rewrite Hnil in Hwlen. destruct rx; [done | discriminate].
    - intros v Hv. unfold w in Hv. apply list_elem_of_fmap in Hv as (r2 & -> & _).
      apply exp_pos. }
  destruct (Rgt_dec (np_sum w) 0) as [_|Hn]; [|unfold Rgt in Hn; lra].
  eexists. split; [reflexivity|].
  rewrite length_map, np_sum_map_div.
  assert (Hone : np_sum w / np_sum w = 1) by (field; lra).
  rewrite Hone. repeat split; [done|].
  replace (1 - 1) with 0 by ring. rewrite Rabs_R0. lra.
Qed.

Lemma gaussian_psf_weights_sum_to_one_witness :
  exists w, _gaussian_psf_weights 10 0 [0; 100] [0; 0] 10 = Ok w /\
            length w = 2%nat /\ np_sum w = 1 /\ Rabs (np_sum w - 1) <= 1e-9.
Proof.
  apply (gaussian_psf_weights_sum_to_one 10 0 10 [0; 100] [0; 0]);
    [lra | discriminate | reflexivity |].
  exists 0%nat, 0, 0. repeat split. lra.
Defined.

End PsfFacts.

(** ** Loops in the error monad *)

Section ForEachFacts.
Context {A S : Type}.
Implicit Types (body : S -> A -> result S) (xs ys : list A) (st : S).

Lemma for_each_app body xs ys st :
  for_each body (xs ++ ys) st = (st' ← for_each body xs st; for_each body ys st').
Proof.
  revert st. induction xs as [|x xs IH]; intros st; cbn; [done|].
  destruct (body st x) as [st'|e]; cbn; [apply IH | done].
Qed.

(** An iteration that leaves every state as it is can be dropped. *)
Lemma for_each_skip body xs ys x st :
  (forall st', body st' x = Ok st') ->
  for_each body (xs ++ x :: ys) st = for_each body (xs ++ ys) st.
Proof.
  intros Hx. rewrite !for_each_app.
  destruct (for_each body xs st) as [st'|e]; cbn; [|done].
  by rewrite Hx.
Qed.

Lemma for_each_ext body body' xs st :
  (forall st' x, x ∈ xs -> body st' x = body' st' x) ->
  for_each body xs st = for_each body' xs st.
Proof.
  revert st. induction xs as [|x xs IH]; intros st Hb; cbn; [done|].
  rewrite <- Hb by left. destruct (body st x); cbn; [|done].
  apply IH. intros st' y Hy. apply Hb. by right.
Qed.

Section Commuting.
Variable body : S -> A -> result S.
Variable Inv : S -> Prop.
Variable Good : A -> Prop.
Variable fails : A -> bool.
Variable e : exn.
Variable pure : S -> A -> S.
Hypothesis body_spec : forall st x, Inv st -> Good x ->
  body st x = if fails x then Err e else Ok (pure st x).
Hypothesis pure_inv : forall st x, Inv st -> Good x -> Inv (pure st x).
Hypothesis pure_comm : forall st x y, pure (pure st x) y = pure (pure st y) x.

Lemma foldl_pure_inv xs st : Inv st -> Forall Good xs -> Inv (foldl pure st xs).
Proof.
  revert st. induction xs as [|x xs IH]; intros st Hst Hg; cbn; [done|].
  inversion Hg; subst. apply IH; [by apply pure_inv | done].
Qed.

(** The loop fails with [e] as soon as one element fails, and otherwise
    folds the exception-free update. *)
Lemma for_each_closed xs st :
  Inv st -> Forall Good xs ->
  for_each body xs st = if existsb fails xs then Err e else Ok (foldl pure st xs).
Proof.
  revert st. induction xs as [|x xs IH]; intros st Hst Hg; cbn; [done|].
  inversion Hg; subst. rewrite body_spec by done.
  destruct (fails x) eqn:Hx; cbn; [done|].
  apply IH; [by apply pure_inv | done].
Qed.

Lemma foldl_pure_perm xs ys st : xs ≡ₚ ys -> foldl pure st xs = foldl pure st ys.
Proof.
  intros Hp. revert st. induction Hp as [|x xs ys _ IH|x y xs|xs ys zs _ IH1 _ IH2];
    intros st; cbn.
  - done.
  - apply IH.
  - by rewrite pure_comm.
  - by rewrite IH1.
Qed.

Lemma existsb_perm xs ys : xs ≡ₚ ys -> existsb fails xs = existsb fails ys.
Proof.
  induction 1 as [|x xs ys _ IH|x y xs|xs ys zs _ IH1 _ IH2]; cbn.
  - done.
  - by rewrite IH.
  - by destruct (fails x), (fails y).
  - by rewrite IH1.
Qed.

(** The order of the elements is not observable. *)
Lemma for_each_perm xs ys st :
  Inv st -> Forall Good xs -> xs ≡ₚ ys ->
  for_each body xs st = for_each body ys st.
Proof.
  intros Hst Hg Hp.
  rewrite !for_each_closed; try done.
  - by rewrite (existsb_perm xs ys), (foldl_pure_perm xs ys).
  - by rewrite <- Hp.
Qed.

End Commuting.
End ForEachFacts.

(** A loop whose body runs an inner loop over [inner x] is the loop over
    the concatenated inner lists. *)
Lemma for_each_flatten {A B S : Type} (inner : A -> list B)
    (step : S -> B -> result S) (xs : list A) (st : S) :
  for_each (fun st x => for_each step (inner x) st) xs st
  = for_each step (concat (map inner xs)) st.
Proof.
  revert st. induction xs as [|x xs IH]; intros st; [done|].
  cbn [for_each map concat]. rewrite for_each_app.
  destruct (for_each step (inner x) st); cbn; [apply IH | done].
Qed.

(** ** Arrays *)

Section ArrayFacts.
Local Open Scope R_scope.

Lemma np_index_lt (n : nat) (k : Z) (i : nat) : np_index n k = Ok i -> (i < n)%nat.
Proof.
  unfold np_index. repeat case_decide; intros [= <-]; lia.
Qed.

Lemma np_index_err (n : nat) (k : Z) (e : exn) : np_index n k = Err e -> e = IndexError.
Proof.
  unfold np_index. repeat case_decide; intros [=]; done.
Qed.

Lemma radd_length (k : Z) (v : list R) (a : list (list R)) :
  length (radd k v a) = length a.
Proof. unfold radd. destruct (np_index _ _); [apply length_alter | done]. Qed.

(** [a[k] += v] either raises [IndexError] or is [radd]. *)
Lemma row_iadd_spec (a : list (list R)) (k : Z) (v : list R) :
  row_iadd a k v =
  if index_fails (length a) k then Err IndexError else Ok (radd k v a).
Proof.
  unfold row_iadd, radd, index_fails.
  destruct (np_index (length a) k) as [i|e] eqn:Hi; cbn.
  - apply np_index_lt in Hi. destruct (lookup_lt_is_Some_2 a i Hi) as [row Hrow].
    rewrite Hrow. f_equal. apply list_eq. intros j.
    destruct (decide (i = j)) as [<-|Hne].
    + rewrite list_lookup_insert_eq by done. rewrite list_lookup_alter_eq, Hrow. done.
    + rewrite list_lookup_insert_ne by done. by rewrite list_lookup_alter_ne.
  - by rewrite (np_index_err _ _ _ Hi).
Qed.

Lemma zip_with_Rplus_comm (row v1 v2 : list R) :
  zip_with Rplus (zip_with Rplus row v1) v2 = zip_with Rplus (zip_with Rplus row v2) v1.
Proof.
  revert v1 v2. induction row as [|r row IH]; intros [|a v1] [|b v2]; cbn; try done.
  f_equal; [ring | apply IH].
Qed.

Lemma radd_comm (k1 k2 : Z) (v1 v2 : list R) (a : list (list R)) :
  radd k1 v1 (radd k2 v2 a) = radd k2 v2 (radd k1 v1 a).
Proof.
  unfold radd at 1 3. rewrite !radd_length. unfold radd.
  destruct (np_index (length a) k1) as [i1|] eqn:H1,
           (np_index (length a) k2) as [i2|] eqn:H2; try done.
  destruct (decide (i1 = i2)) as [<-|Hne].
  - rewrite !list_alter_alter_eq. apply list_alter_ext; [|done].
    intros row _. cbn. apply zip_with_Rplus_comm.
  - by apply list_alter_alter_ne.
Qed.

Lemma radd_shape (n N : nat) (k : Z) (v : list R) (a : list (list R)) :
  length v = N -> has_shape n N a -> has_shape n N (radd k v a).
Proof.
  intros Hv [Hn Hrows]. split; [by rewrite radd_length|].
  intros row Hrow. unfold radd in Hrow.
  destruct (np_index (length a) k) as [i|]; [|by apply Hrows].
  apply list_elem_of_lookup in Hrow as [j Hj].
  destruct (decide (i = j)) as [<-|Hne].
  - rewrite list_lookup_alter_eq in Hj.
    destruct (a !! i) as [row0|] eqn:Hi; [|done]. cbn in Hj. injection Hj as <-.
    rewrite length_zip_with. rewrite (Hrows row0); [lia|].
    apply list_elem_of_lookup. eauto.
  - rewrite list_lookup_alter_ne in Hj by done.
    apply Hrows. apply list_elem_of_lookup. eauto.
Qed.

Lemma zeros_shape (n N : nat) : has_shape n N (replicate n (replicate N 0)).
Proof.
  split; [apply length_replicate|].
  intros row Hrow. apply elem_of_replicate in Hrow as [-> _]. apply length_replicate.
Qed.

Lemma zeros_entries (n N : nat) (P : R -> Prop) :
  P 0 -> all_entries P (replicate n (replicate N 0)).
Proof.
  intros H0 row v Hrow Hv.
  apply elem_of_replicate in Hrow as [-> _].
  apply elem_of_replicate in Hv as [-> _]. done.
Qed.

Lemma clip_range (lo hi v : R) : lo <= hi -> lo <= clip lo hi v <= hi.
Proof.
  intros Hle. unfold clip, Rmin, Rmax.
  destruct (Rle_dec lo v); destruct (Rle_dec hi _); lra.
Qed.

Lemma np_clip2_entries (a : list (list R)) (lo hi : R) :
  lo <= hi -> all_entries (fun v => lo <= v <= hi) (np_clip2 a lo hi).
Proof.
  intros Hle row v Hrow Hv. unfold np_clip2 in Hrow.
  apply list_elem_of_fmap in Hrow as (row0 & -> & _).
  apply list_elem_of_fmap in Hv as (v0 & -> & _).
  by apply clip_range.
Qed.

Lemma map_map_shape (f : R -> R) (n N : nat) (a : list (list R)) :
  has_shape n N a -> has_shape n N (map (map f) a).
Proof.
  intros [Hn Hrows]. split; [by rewrite length_map|].
  intros row Hrow. apply list_elem_of_fmap in Hrow as (row0 & -> & Hrow0).
  rewrite length_map. by apply Hrows.
Qed.

Lemma size2_zero_entries (a : list (list R)) (P : R -> Prop) :
  size2 a = 0%nat -> all_entries P a.
Proof.
  unfold size2. intros Hsz row v Hrow Hv.
  apply length_zero_iff_nil in Hsz.
  assert (Hin : v ∈ concat a).
  { apply list_elem_of_In, in_concat. exists row. split; by apply list_elem_of_In. }
  rewrite Hsz in Hin. by apply not_elem_of_nil in Hin.
Qed.

End ArrayFacts.

(** ** Time binning *)

Section TimeBinFacts.
Import photon photon_driver.
Local Open Scope R_scope.

Lemma n_steps_of_pos (T dt : R) : dt <> 0 -> n_steps_of T dt = Ok (Rceil (T / dt)).
Proof. intros Hdt. unfold n_steps_of. rewrite py_div_nonzero by done. reflexivity. Qed.

Lemma time_bin_index_in_window (tv t0 dt T : R) :
  dt <> 0 -> t0 <= tv < t0 + T ->
  _time_bin_index (Some tv) t0 dt T = Ok (Some (Rfloor ((tv - t0) / dt))).
Proof.
  intros Hdt [H1 H2]. unfold _time_bin_index.
  destruct (Rlt_dec tv t0); [lra|].
  destruct (Rge_dec tv (t0 + T)); [lra|].
  rewrite py_floordiv_nonzero by done. reflexivity.
Qed.

Lemma time_bin_index_outside (tv t0 dt T : R) :
  tv < t0 \/ tv >= t0 + T -> _time_bin_index (Some tv) t0 dt T = Ok None.
Proof.
  intros H. unfold _time_bin_index.
  destruct (Rlt_dec tv t0); [reflexivity|].
  destruct (Rge_dec tv (t0 + T)); [reflexivity|]. lra.
Qed.

Lemma time_bin_index_Some_inv (tv t0 dt T : R) (k : Z) :
  _time_bin_index (Some tv) t0 dt T = Ok (Some k) ->
  t0 <= tv < t0 + T /\ dt <> 0 /\ k = Rfloor ((tv - t0) / dt).
Proof.
  unfold _time_bin_index, py_floordiv.
  destruct (Rlt_dec tv t0); [discriminate|].
  destruct (Rge_dec tv (t0 + T)); [discriminate|].
  destruct (Req_dec_T dt 0); [discriminate|].
  cbn. intros [= <-]. repeat split; try lra; done.
Qed.

Lemma bin_index_valid (T dt t0 tv : R) (k : Z) :
  0 < T -> 0 < dt ->
  _time_bin_index (Some tv) t0 dt T = Ok (Some k) ->
  (0 <= k < Rceil (T / dt))%Z.
Proof.
  intros HT Hdt Hk.
  apply time_bin_index_Some_inv in Hk as ([H1 H2] & _ & ->).
  set (q := (tv - t0) / dt). set (c := T / dt).
  assert (Hq0 : 0 <= q) by (apply Rle_mult_inv_pos; lra).
  assert (Hqc : q < c).
  { unfold q, c, Rdiv. apply Rmult_lt_compat_r; [apply Rinv_0_lt_compat|]; lra. }
  destruct (Rfloor_spec q) as [Hf1 Hf2]. destruct (Rceil_spec c) as [Hc1 Hc2].
  split.
  - apply Z.lt_succ_r. apply lt_IZR. rewrite succ_IZR. lra.
  - apply lt_IZR. lra.
Qed.

Lemma np_index_in_range (n : nat) (k : Z) :
  (0 <= k < Z.of_nat n)%Z -> np_index n k = Ok (Z.to_nat k).
Proof. intros Hk. unfold np_index. by rewrite decide_True. Qed.

(** The bound the builders rely on, in exact arithmetic: with [T > 0]
    and [dt > 0], every time the filter retains gets a bin index [k] with
    [0 <= k <= ceil(T/dt) - 1], so the write [a[k] += v] into an array of
    [ceil(T/dt)] rows lands on row [k].  The program computes the window
    test and the index in binary64, where the bound can fail
    ([time_bin_index_out_of_bounds]). *)
Lemma time_bin_index_in_bounds (T dt t0 tv : R) (k : Z) :
  0 < T -> 0 < dt ->
  _time_bin_index (Some tv) t0 dt T = Ok (Some k) ->
  n_steps_of T dt = Ok (Rceil (T / dt)) /\
  (0 <= k <= Rceil (T / dt) - 1)%Z /\
  forall (a : list (list R)) (v : list R),
    length a = Z.to_nat (Rceil (T / dt)) ->
    row_iadd a k v = Ok (radd k v a) /\ np_index (length a) k = Ok (Z.to_nat k).
Proof.
  intros HT Hdt Hk. pose proof (bin_index_valid T dt t0 tv k HT Hdt Hk) as Hb.
  split; [apply n_steps_of_pos; lra|]. split; [lia|].
  intros a v Ha.
  assert (Hi : np_index (length a) k = Ok (Z.to_nat k))
    by (apply np_index_in_range; lia).
  split; [|done]. rewrite row_iadd_spec. unfold index_fails. by rewrite Hi.
Qed.

End TimeBinFacts.

(** ** The photon loops *)

Section DriverFacts.
Import photon photon_driver.
Local Open Scope R_scope.

Lemma result_bind_ret {A : Type} (m : result A) : (a ← m; Ok a) = m.
Proof. by destruct m. Qed.

Lemma n_receptors_length (pos : list (R * R)) : n_receptors pos = length pos.
Proof. by destruct pos. Qed.

Lemma psf_ok (px py sigma_um : R) (pos : list (R * R)) :
  pos <> [] ->
  exists w, _gaussian_psf_weights px py (map fst pos) (map snd pos) sigma_um = Ok w
            /\ length w = length pos.
Proof.
  intros Hne. unfold _gaussian_psf_weights.
  destruct (Rle_dec sigma_um 0).
  - destruct pos as [|p pos]; [done|]. cbn [map zip_with np_argmin].
    eexists. split; [reflexivity|].
    rewrite length_insert, length_replicate. cbn. by rewrite length_map.
  - match goal with |- context [Rgt_dec ?s 0] => destruct (Rgt_dec s 0) end;
      eexists; (split; [reflexivity|]);
      rewrite ?length_map, length_zip_with, !length_map; lia.
Qed.

Lemma psf_weights_ok (px py sigma_um : R) (pos : list (R * R)) :
  pos <> [] ->
  _gaussian_psf_weights px py (map fst pos) (map snd pos) sigma_um
    = Ok (psf_weights px py pos sigma_um)
  /\ length (psf_weights px py pos sigma_um) = length pos.
Proof.
  intros Hne. destruct (psf_ok px py sigma_um pos Hne) as (w & Hw & Hlen).
  unfold psf_weights. by rewrite Hw.
Qed.

Lemma time_bin_index_ok (tv : option R) (t0 dt T : R) :
  dt <> 0 -> exists k, _time_bin_index tv t0 dt T = Ok k.
Proof.
  intros Hdt. unfold _time_bin_index. destruct tv as [tv|]; [|eauto].
  destruct (Rlt_dec tv t0); [eauto|]. destruct (Rge_dec tv (t0 + T)); [eauto|].
  rewrite py_floordiv_nonzero by done. cbn. eauto.
Qed.

(** A discarded photon leaves the accumulators as they are. *)
Lemma discarded_not_retained (T dt t0 : R) (ph : Photon) :
  discarded t0 T ph -> retained T dt t0 ph = None.
Proof.
  unfold retained. intros [(tv & Ht & Hout) | [Hx | Hy]].
  - rewrite Ht. cbn [default]. by rewrite time_bin_index_outside.
  - rewrite Hx. by destruct (_time_bin_index _ _ _ _) as [[?|]|].
  - rewrite Hy. by destruct (_time_bin_index _ _ _ _) as [[?|]|], (x ph).
Qed.

Lemma deposit_as_writes (L_series : gmap string (list (list R))) (tkey : string)
    (pos : list (R * R)) (w : R) (k : Z) (px py sigma_um : R) :
  deposit L_series tkey pos w k px py sigma_um
  = for_each iadd_at (deposit_writes tkey pos w k px py sigma_um) L_series.
Proof.
  unfold deposit, deposit_writes. destruct pos as [|p pos]; [done|].
  destruct (psf_weights_ok px py sigma_um (p :: pos)) as [-> _]; [done|].
  cbn [mbind result_bind]. destruct (Rgt_dec w 0); [|done].
  cbn [for_each]. symmetry. apply result_bind_ret.
Qed.

(** With the name bound to [f], a cone iteration issues the row updates
    of [cone_writes] in order. *)
Lemma accumulate_cone_photon_bound (f : R -> string -> R)
    (S_pos M_pos L_pos : list (R * R)) (T dt t0 sigma_um : R)
    (L_series : gmap string (list (list R))) (ph : Photon) :
  dt <> 0 ->
  accumulate_cone_photon (Some f) S_pos M_pos L_pos T dt t0 sigma_um L_series ph
  = for_each iadd_at (cone_writes f S_pos M_pos L_pos T dt t0 sigma_um ph) L_series.
Proof.
  intros Hdt. unfold accumulate_cone_photon, cone_writes, retained.
  destruct (time_bin_index_ok (Some (default t0 (t ph))) t0 dt T Hdt) as [k ->].
  cbn [mbind result_bind]. destruct k as [k|]; [|done].
  destruct (x ph) as [px|]; [|done]. destruct (y ph) as [py|]; [|done].
  cbn [call_cone_sensitivity_nm mbind result_bind].
  rewrite for_each_app, deposit_as_writes.
  destruct (for_each iadd_at _ L_series) as [L1|]; [|done]. cbn [mbind result_bind].
  rewrite for_each_app, deposit_as_writes.
  destruct (for_each iadd_at _ L1) as [L2|]; [|done]. cbn [mbind result_bind].
  apply deposit_as_writes.
Qed.

(** With the name unbound, a cone iteration raises [NameError] for every
    photon that passes the filters and does nothing for the others. *)
Lemma accumulate_cone_photon_unbound
    (S_pos M_pos L_pos : list (R * R)) (T dt t0 sigma_um : R)
    (L_series : gmap string (list (list R))) (ph : Photon) :
  dt <> 0 ->
  accumulate_cone_photon None S_pos M_pos L_pos T dt t0 sigma_um L_series ph
  = if bool_decide (is_Some (retained T dt t0 ph)) then Err NameError else Ok L_series.
Proof.
  intros Hdt. unfold accumulate_cone_photon, retained.
  destruct (time_bin_index_ok (Some (default t0 (t ph))) t0 dt T Hdt) as [k ->].
  cbn [mbind result_bind]. destruct k as [k|]; [|done].
  destruct (x ph) as [px|]; [|done]. destruct (y ph) as [py|]; done.
Qed.

Lemma accumulate_rod_photon_as_writes (rod_positions : list (R * R))
    (T dt t0 sigma_um : R) (Lr : list (list R)) (ph : Photon) :
  dt <> 0 -> rod_positions <> [] ->
  accumulate_rod_photon (map fst rod_positions) (map snd rod_positions)
    T dt t0 sigma_um Lr ph
  = for_each (fun a w => row_iadd a w.1 w.2)
      (rod_writes rod_positions T dt t0 sigma_um ph) Lr.
Proof.
  intros Hdt Hne. unfold accumulate_rod_photon, rod_writes, retained.
  destruct (time_bin_index_ok (Some (default t0 (t ph))) t0 dt T Hdt) as [k ->].
  cbn [mbind result_bind]. destruct k as [k|]; [|done].
  destruct (x ph) as [px|]; [|done]. destruct (y ph) as [py|]; [|done].
  destruct (psf_weights_ok px py sigma_um rod_positions Hne) as [-> _].
  cbn [mbind result_bind for_each fst snd]. symmetry. apply result_bind_ret.
Qed.

Lemma cone_discarded_skip (binding : option (R -> string -> R))
    (S_pos M_pos L_pos : list (R * R)) (T dt t0 sigma_um : R)
    (L_series : gmap string (list (list R))) (ph : Photon) :
  dt <> 0 -> discarded t0 T ph ->
  accumulate_cone_photon binding S_pos M_pos L_pos T dt t0 sigma_um L_series ph
  = Ok L_series.
Proof.
  intros Hdt Hd. destruct binding as [f|].
  - rewrite accumulate_cone_photon_bound by done. unfold cone_writes.
    by rewrite discarded_not_retained.
  - rewrite accumulate_cone_photon_unbound by done.
    by rewrite discarded_not_retained.
Qed.

Lemma rod_discarded_skip (rod_positions : list (R * R))
    (T dt t0 sigma_um : R) (Lr : list (list R)) (ph : Photon) :
  dt <> 0 -> rod_positions <> [] -> discarded t0 T ph ->
  accumulate_rod_photon (map fst rod_positions) (map snd rod_positions)
    T dt t0 sigma_um Lr ph = Ok Lr.
Proof.
  intros Hdt Hne Hd. rewrite accumulate_rod_photon_as_writes by done.
  unfold rod_writes. by rewrite discarded_not_retained.
Qed.

End DriverFacts.

(** ** Row updates on the cone accumulators *)

Section ConeStateFacts.
Import photon photon_driver.
Local Open Scope R_scope.

Variable cone_positions : gmap string (list (R * R)).
Variable n : nat.

Lemma iadd_at_spec (L_series : gmap string (list (list R))) (w : string * Z * list R) :
  series_inv cone_positions n L_series -> good_write cone_positions w ->
  iadd_at L_series w
  = if index_fails n w.1.2 then Err IndexError else Ok (apply_write L_series w).
Proof.
  destruct w as [[tkey k] v]. intros Hinv (_ & pos & Hpos & _). cbn in *.
  specialize (Hinv tkey). rewrite Hpos in Hinv. destruct Hinv as (a & Ha & [Hlen _] & _).
  unfold getitem, apply_write. rewrite Ha. cbn [mbind result_bind fst snd].
  rewrite row_iadd_spec, Hlen. destruct (index_fails n k); [done|].
  cbn. f_equal. symmetry. by apply alter_alt_Some.
Qed.

Lemma apply_write_inv (L_series : gmap string (list (list R))) (w : string * Z * list R) :
  series_inv cone_positions n L_series -> good_write cone_positions w ->
  series_inv cone_positions n (apply_write L_series w).
Proof.
  destruct w as [[tkey k] v]. intros Hinv (Hkey & pos & Hpos & Hlen) tkey'.
  cbn in *. unfold apply_write. cbn [fst snd].
  specialize (Hinv tkey'). destruct (decide (tkey = tkey')) as [<-|Hne].
  - rewrite lookup_alter_eq. rewrite Hpos in Hinv |- *.
    destruct Hinv as (a & -> & Hshape & _). exists (radd k v a).
    split; [done|]. split; [by apply radd_shape|].
    intros Hn. by destruct (Hn Hkey).
  - by rewrite lookup_alter_ne.
Qed.


Lemma zero_series_inv : series_inv cone_positions n (zero_series n cone_positions).
Proof.
  intros tkey. unfold zero_series. rewrite lookup_fmap.
  destruct (cone_positions !! tkey) as [pos|]; [|done]. cbn.
  eexists. split; [reflexivity|]. split; [apply zeros_shape | done].
Qed.

Lemma deposit_writes_nonempty (tkey : string) (pos : list (R * R)) (w : R) (k : Z)
    (px py sigma_um : R) :
  pos <> [] ->
  deposit_writes tkey pos w k px py sigma_um
  = if Rgt_dec w 0 then [(tkey, k, map (Rmult w) (psf_weights px py pos sigma_um))]
    else [].
Proof. by destruct pos. Qed.

Lemma deposit_writes_good (tkey : string) (w : R) (k : Z) (px py sigma_um : R) :
  is_cone_key tkey ->
  Forall (good_write cone_positions)
    (deposit_writes tkey (default [] (cone_positions !! tkey)) w k px py sigma_um).
Proof.
  intros Hkey.
  destruct (cone_positions !! tkey) as [pos|] eqn:Hpos; cbn [default]; [|done].
  assert (Hcase : pos = [] \/ pos <> []) by (destruct pos; [by left | by right]).
  destruct Hcase as [->|Hne]; [done|].
  rewrite deposit_writes_nonempty by done.
  destruct (Rgt_dec w 0); [|done].
  apply Forall_cons. split; [|done]. split; [done|]. exists pos. split; [done|].
  cbn. rewrite length_map, n_receptors_length.
  by apply psf_weights_ok.
Qed.

Lemma cone_writes_good (f : R -> string -> R) (T dt t0 sigma_um : R) (ph : Photon) :
  Forall (good_write cone_positions)
    (cone_writes f (default [] (cone_positions !! "S"))
       (default [] (cone_positions !! "M")) (default [] (cone_positions !! "L"))
       T dt t0 sigma_um ph).
Proof.
  unfold cone_writes. destruct (retained T dt t0 ph) as [[[k px] py]|]; [|done].
  rewrite !Forall_app. repeat split; apply deposit_writes_good; unfold is_cone_key; auto.
Qed.

End ConeStateFacts.

Section AllocationFacts.
Import photon photon_driver.
Local Open Scope R_scope.

Lemma allocate_nonneg (n_steps : Z) (m : gmap string (list (list R)))
    (item : string * list (R * R)) :
  (0 <= n_steps)%Z ->
  allocate n_steps m item
  = Ok (<[item.1 := replicate (Z.to_nat n_steps) (replicate (n_receptors item.2) 0)]> m).
Proof.
  intros Hn. unfold allocate, np_zeros2. by rewrite (proj2 (Z.ltb_ge _ _) Hn).
Qed.

Lemma allocate_negative (n_steps : Z) (m : gmap string (list (list R)))
    (item : string * list (R * R)) :
  (n_steps < 0)%Z -> allocate n_steps m item = Err ValueError.
Proof.
  intros Hn. unfold allocate, np_zeros2. by rewrite (proj2 (Z.ltb_lt _ _) Hn).
Qed.

Lemma allocate_lookup (n_steps : Z) (l : list (string * list (R * R)))
    (m out : gmap string (list (list R))) (tkey : string) :
  (0 <= n_steps)%Z -> NoDup l.*1 ->
  for_each (allocate n_steps) l m = Ok out ->
  out !! tkey =
    match (list_to_map l : gmap string (list (R * R))) !! tkey with
    | Some pos => Some (replicate (Z.to_nat n_steps) (replicate (n_receptors pos) 0))
    | None => m !! tkey
    end.
Proof.
  intros Hn. revert m. induction l as [|[k0 p0] l IH]; intros m Hnd Hout.
  - cbn in Hout. injection Hout as <-. by rewrite list_to_map_nil, lookup_empty.
  - cbn in Hnd. apply NoDup_cons in Hnd as [Hk0 Hnd].
    cbn [for_each] in Hout. rewrite allocate_nonneg in Hout by done.
    cbn [mbind result_bind fst snd] in Hout.
    rewrite (IH _ Hnd Hout), list_to_map_cons.
    destruct (decide (k0 = tkey)) as [->|Hne].
    + rewrite lookup_insert_eq.
      rewrite (not_elem_of_list_to_map_1 l tkey Hk0). by rewrite lookup_insert_eq.
    + rewrite !lookup_insert_ne by done. done.
Qed.

Lemma allocate_total (n_steps : Z) (l : list (string * list (R * R)))
    (m : gmap string (list (list R))) :
  (0 <= n_steps)%Z -> exists out, for_each (allocate n_steps) l m = Ok out.
Proof.
  intros Hn. revert m. induction l as [|[k0 p0] l IH]; intros m; [by eexists|].
  cbn [for_each]. rewrite allocate_nonneg by done. apply IH.
Qed.

(** The allocation loop: [ValueError] for a negative number of steps and
    a non-empty dictionary, the all-zero series otherwise. *)
Lemma allocate_all (n_steps : Z) (cone_positions : gmap string (list (R * R))) :
  for_each (allocate n_steps) (map_to_list cone_positions) ∅
  = if bool_decide (n_steps < 0)%Z && negb (bool_decide (cone_positions = ∅))
    then Err ValueError
    else Ok (zero_series (Z.to_nat n_steps) cone_positions).
Proof.
  case_bool_decide as Hn; cbn.
  - case_bool_decide as He; cbn.
    + subst. rewrite map_to_list_empty. cbn. f_equal;
        unfold zero_series; by rewrite ?fmap_empty.
    + destruct (map_to_list cone_positions) as [|[k0 p0] l] eqn:Hl.
      * by apply map_to_list_empty_iff in Hl.
      * cbn [for_each]. by rewrite allocate_negative.
  - assert (Hn' : (0 <= n_steps)%Z) by lia.
    destruct (allocate_total n_steps (map_to_list cone_positions) ∅ Hn') as [out Hout].
    rewrite Hout. f_equal. apply map_eq. intros tkey.
    rewrite (allocate_lookup _ _ _ _ tkey Hn' (NoDup_fst_map_to_list _) Hout).
    rewrite list_to_map_to_list. unfold zero_series. rewrite lookup_fmap.
    by destruct (cone_positions !! tkey).
Qed.

End AllocationFacts.

(** ** The cone accumulation loop *)

Section ConeLoopFacts.
Import photon photon_driver.
Local Open Scope R_scope.

Variable cone_positions : gmap string (list (R * R)).
Variable n : nat.
Variables T dt t0 sigma_um : R.
Hypothesis dt_nonzero : dt <> 0.

Local Abbreviation S_pos := (default [] (cone_positions !! "S")).
Local Abbreviation M_pos := (default [] (cone_positions !! "M")).
Local Abbreviation L_pos := (default [] (cone_positions !! "L")).
Local Abbreviation body binding :=
  (accumulate_cone_photon binding S_pos M_pos L_pos T dt t0 sigma_um).
Local Abbreviation writes f := (cone_writes f S_pos M_pos L_pos T dt t0 sigma_um).

Lemma cone_writes_all_good (f : R -> string -> R) (photons : list Photon) :
  Forall (good_write cone_positions) (concat (map (writes f) photons)).
Proof.
  induction photons as [|ph photons IH]; cbn [map concat]; [done|].
  apply Forall_app. split; [apply cone_writes_good | done].
Qed.

Lemma cone_loop_bound (f : R -> string -> R) (photons : list Photon)
    (L_series : gmap string (list (list R))) :
  series_inv cone_positions n L_series ->
  for_each (body (Some f)) photons L_series
  = if existsb (fun w => index_fails n w.1.2) (concat (map (writes f) photons))
    then Err IndexError
    else Ok (foldl apply_write L_series (concat (map (writes f) photons))).
Proof.
  intros Hinv.
  rewrite (for_each_ext _ (fun st ph => for_each iadd_at (writes f ph) st)).
  2:{ intros st ph _. by apply accumulate_cone_photon_bound. }
  rewrite for_each_flatten.
  apply (for_each_closed iadd_at (series_inv cone_positions n)
           (good_write cone_positions)); try done.
  - intros st w. apply iadd_at_spec.
  - intros st w. apply apply_write_inv.
  - apply cone_writes_all_good.
Qed.

Lemma cone_loop_unbound (photons : list Photon)
    (L_series : gmap string (list (list R))) :
  for_each (body None) photons L_series
  = if existsb (fun ph => bool_decide (is_Some (retained T dt t0 ph))) photons
    then Err NameError else Ok L_series.
Proof.
  revert L_series. induction photons as [|ph photons IH]; intros L_series; [done|].
  cbn [for_each existsb].
  rewrite accumulate_cone_photon_unbound by done.
  case_bool_decide; cbn; [done | apply IH].
Qed.

Lemma cone_loop_inv (binding : option (R -> string -> R)) (photons : list Photon)
    (L_series out : gmap string (list (list R))) :
  series_inv cone_positions n L_series ->
  for_each (body binding) photons L_series = Ok out ->
  series_inv cone_positions n out.
Proof.
  intros Hinv. destruct binding as [f|].
  - rewrite cone_loop_bound by done. destruct (existsb _ _); [done|].
    intros [= <-].
    apply (foldl_pure_inv (series_inv cone_positions n) (good_write cone_positions));
      try done.
    + intros st w. apply apply_write_inv.
    + apply cone_writes_all_good.
  - rewrite cone_loop_unbound. destruct (existsb _ _); [done|]. by intros [= <-].
Qed.



End ConeLoopFacts.

(** ** Normalisation *)

Section NormalizeFacts.
Import photon photon_driver.
Local Open Scope R_scope.

Variable photons_per_L1 : R.

Lemma normalize_array_shape (n N : nat) (a : list (list R)) :
  has_shape n N a -> has_shape n N (normalize_array photons_per_L1 a).
Proof.
  intros Hs. unfold normalize_array. case_decide; [done|].
  unfold np_clip2, np_div2. by do 2 apply map_map_shape.
Qed.

Lemma normalize_array_entries (a : list (list R)) :
  all_entries (fun v => 0 <= v <= 1) (normalize_array photons_per_L1 a).
Proof.
  unfold normalize_array. case_decide; [by apply size2_zero_entries|].
  apply np_clip2_entries. lra.
Qed.

Lemma normalize_array_zeros (n N : nat) :
  normalize_array photons_per_L1 (replicate n (replicate N 0))
  = replicate n (replicate N 0).
Proof.
  unfold normalize_array. case_decide; [done|].
  unfold np_clip2, np_div2. rewrite !fmap_replicate.
  replace (clip 0 1 (0 / (photons_per_L1 + eps))) with 0; [done|].
  unfold Rdiv. rewrite Rmult_0_l. unfold clip, Rmin, Rmax.
  destruct (Rle_dec 0 0); [|lra]. destruct (Rle_dec 1 0); lra.
Qed.

Lemma normalize_spec (L_series : gmap string (list (list R))) (tkey : string) :
  normalize photons_per_L1 L_series tkey
  = match L_series !! tkey with
    | Some _ => Ok (alter (normalize_array photons_per_L1) tkey L_series)
    | None => Err KeyError
    end.
Proof.
  unfold normalize, getitem. destruct (L_series !! tkey) as [a|] eqn:Ha; [|done].
  cbn [mbind result_bind]. rewrite (alter_alt_Some _ _ _ a Ha).
  unfold normalize_array. case_decide; [|done].
  f_equal. symmetry. by apply insert_id.
Qed.

(** The normalisation loop raises [KeyError] unless the three cone keys
    are present, and then normalises their arrays. *)
Lemma normalize_all (L_series : gmap string (list (list R))) :
  for_each (normalize photons_per_L1) ["S"; "M"; "L"]%string L_series
  = if bool_decide (is_Some (L_series !! "S") /\ is_Some (L_series !! "M")
                    /\ is_Some (L_series !! "L"))
    then Ok (normalized photons_per_L1 L_series)
    else Err KeyError.
Proof.
  cbn [for_each]. rewrite normalize_spec.
  destruct (L_series !! "S") as [aS|] eqn:HS;
    [|rewrite bool_decide_false; [done | by intros [[? [=]] _]]].
  cbn [mbind result_bind]. rewrite normalize_spec, lookup_alter_ne by done.
  destruct (L_series !! "M") as [aM|] eqn:HM;
    [|rewrite bool_decide_false; [done | by intros (_ & [? [=]] & _)]].
  cbn [mbind result_bind]. rewrite normalize_spec, !lookup_alter_ne by done.
  destruct (L_series !! "L") as [aL|] eqn:HL;
    [|rewrite bool_decide_false; [done | by intros (_ & _ & [? [=]])]].
  cbn [mbind result_bind]. rewrite bool_decide_true by eauto. done.
Qed.

Lemma normalized_lookup (L_series : gmap string (list (list R))) (tkey : string) :
  normalized photons_per_L1 L_series !! tkey
  = if decide (is_cone_key tkey)
    then normalize_array photons_per_L1 <$> L_series !! tkey
    else L_series !! tkey.
Proof.
  unfold normalized. case_decide as Hk.
  - destruct Hk as [-> | [-> | ->]].
    + by rewrite !lookup_alter_ne, lookup_alter_eq by done.
    + by rewrite lookup_alter_ne, lookup_alter_eq, lookup_alter_ne by done.
    + by rewrite lookup_alter_eq, !lookup_alter_ne by done.
  - unfold is_cone_key in Hk. rewrite !lookup_alter_ne by naive_solver. done.
Qed.

Lemma normalized_inv (cone_positions : gmap string (list (R * R))) (n : nat)
    (L_series : gmap string (list (list R))) :
  series_inv cone_positions n L_series ->
  series_inv cone_positions n (normalized photons_per_L1 L_series).
Proof.
  intros Hinv tkey. specialize (Hinv tkey). rewrite normalized_lookup.
  destruct (cone_positions !! tkey) as [pos|].
  - destruct Hinv as (a & -> & Hs & Hz). case_decide; [|eauto].
    cbn. eexists. split; [reflexivity|]. split; [by apply normalize_array_shape | done].
  - rewrite Hinv. by case_decide.
Qed.

Lemma normalized_entries (cone_positions : gmap string (list (R * R))) (n : nat)
    (L_series : gmap string (list (list R))) (tkey : string) (a : list (list R)) :
  series_inv cone_positions n L_series ->
  normalized photons_per_L1 L_series !! tkey = Some a ->
  all_entries (fun v => 0 <= v <= 1) a.
Proof.
  intros Hinv. specialize (Hinv tkey). rewrite normalized_lookup.
  case_decide as Hk.
  - destruct (L_series !! tkey) as [a0|]; [|done]. cbn. intros [= <-].
    apply normalize_array_entries.
  - intros Ha. rewrite Ha in Hinv.
    destruct (cone_positions !! tkey) as [pos|]; [|done].
    destruct Hinv as (a' & [= <-] & _ & Hz). rewrite (Hz Hk).
    apply zeros_entries. lra.
Qed.

End NormalizeFacts.

(** ** The rod accumulation loop *)

Section RodLoopFacts.
Import photon photon_driver.
Local Open Scope R_scope.

Variable rod_positions : list (R * R).
Variable n : nat.
Variables T dt t0 sigma_um : R.
Hypothesis dt_nonzero : dt <> 0.
Hypothesis rods_nonempty : rod_positions <> [].

Local Abbreviation body :=
  (accumulate_rod_photon (map fst rod_positions) (map snd rod_positions)
     T dt t0 sigma_um).
Local Abbreviation writes := (rod_writes rod_positions T dt t0 sigma_um).

Lemma rod_loop_closed (photons : list Photon) (Lr : list (list R)) :
  length Lr = n ->
  for_each body photons Lr
  = if existsb (fun w => index_fails n w.1) (concat (map writes photons))
    then Err IndexError
    else Ok (foldl (fun a w => radd w.1 w.2 a) Lr (concat (map writes photons))).
Proof.
  intros Hlen.
  rewrite (for_each_ext _ (fun st ph =>
             for_each (fun a w => row_iadd a w.1 w.2) (writes ph) st)).
  2:{ intros st ph _. by apply accumulate_rod_photon_as_writes. }
  rewrite for_each_flatten.
  apply (for_each_closed _ (fun a => length a = n) (fun _ => True)); try done.
  - intros a w Ha _. by rewrite row_iadd_spec, Ha.
  - intros a w Ha _. by rewrite radd_length.
  - by apply Forall_forall.
Qed.


End RodLoopFacts.

(** ** The builders *)

Section BuilderFacts.
Import photon photon_driver.
Local Open Scope R_scope.

Lemma n_steps_of_zero (T : R) : n_steps_of T 0 = Err ZeroDivisionError.
Proof.
  unfold n_steps_of, py_div. destruct (Req_dec_T 0 0); [done | congruence].
Qed.

Lemma build_cones_zero_dt (binding : option (R -> string -> R)) (photons : list Photon)
    (cone_positions : gmap string (list (R * R))) (T t0 sigma_um photons_per_L1 : R) :
  build_L_series_for_cones binding photons cone_positions T 0 t0 sigma_um photons_per_L1
  = Err ZeroDivisionError.
Proof. unfold build_L_series_for_cones. by rewrite n_steps_of_zero. Qed.

Lemma build_rods_zero_dt (photons : list Photon) (rod_positions : list (R * R))
    (T t0 sigma_um photons_per_L1 : R) :
  build_L_series_for_rods photons rod_positions T 0 t0 sigma_um photons_per_L1
  = Err ZeroDivisionError.
Proof. unfold build_L_series_for_rods. by rewrite n_steps_of_zero. Qed.

(** The cone builder, step by step, for a non-zero time step. *)
Lemma build_cones_unfold (binding : option (R -> string -> R)) (photons : list Photon)
    (cone_positions : gmap string (list (R * R))) (T dt t0 sigma_um photons_per_L1 : R) :
  dt <> 0 ->
  build_L_series_for_cones binding photons cone_positions T dt t0 sigma_um photons_per_L1
  = if bool_decide (Rceil (T / dt) < 0)%Z && negb (bool_decide (cone_positions = ∅))
    then Err ValueError
    else
      L_series ← for_each
        (accumulate_cone_photon binding
           (default [] (cone_positions !! "S")) (default [] (cone_positions !! "M"))
           (default [] (cone_positions !! "L")) T dt t0 sigma_um)
        photons (zero_series (Z.to_nat (Rceil (T / dt))) cone_positions);
      for_each (normalize photons_per_L1) ["S"; "M"; "L"]%string L_series.
Proof.
  intros Hdt. unfold build_L_series_for_cones.
  rewrite n_steps_of_pos by done. cbn [mbind result_bind].
  rewrite allocate_all. by destruct (_ && _).
Qed.

(** The rod builder, step by step, for a non-zero time step. *)
Lemma build_rods_unfold (photons : list Photon) (rod_positions : list (R * R))
    (T dt t0 sigma_um photons_per_L1 : R) :
  dt <> 0 ->
  build_L_series_for_rods photons rod_positions T dt t0 sigma_um photons_per_L1
  = if bool_decide (Rceil (T / dt) < 0)%Z then Err ValueError
    else
      let Lr := replicate (Z.to_nat (Rceil (T / dt)))
                  (replicate (n_receptors rod_positions) 0) in
      if decide (n_receptors rod_positions = 0%nat) then Ok Lr
      else
        Lr ← for_each
          (accumulate_rod_photon (map fst rod_positions) (map snd rod_positions)
             T dt t0 sigma_um) photons Lr;
        Ok (np_clip2 (np_div2 Lr (photons_per_L1 + eps)) 0 1).
Proof.
  intros Hdt. unfold build_L_series_for_rods.
  rewrite n_steps_of_pos by done. cbn [mbind result_bind]. unfold np_zeros2.
  case_bool_decide as Hn.
  - by rewrite (proj2 (Z.ltb_lt _ _) Hn).
  - rewrite (proj2 (Z.ltb_ge _ _)) by lia. done.
Qed.

Lemma n_receptors_nonzero (pos : list (R * R)) :
  n_receptors pos <> 0%nat -> pos <> [].
Proof. by destruct pos. Qed.

(** C1. A photon whose arrival time lies outside [[t0, t0 + T)], or that
    misses [x] or [y], contributes nothing: the cone and the rod builder
    return the same result (arrays or exception) with and without it. *)
Theorem discarded_photon_no_effect (binding : option (R -> string -> R))
    (before after : list Photon) (ph : Photon)
    (cone_positions : gmap string (list (R * R))) (rod_positions : list (R * R))
    (T dt t0 sigma_um cone_photons_per_L1 rod_photons_per_L1 : R) :
  discarded t0 T ph ->
  build_L_series_for_cones binding (before ++ ph :: after) cone_positions
    T dt t0 sigma_um cone_photons_per_L1
  = build_L_series_for_cones binding (before ++ after) cone_positions
      T dt t0 sigma_um cone_photons_per_L1
  /\
  build_L_series_for_rods (before ++ ph :: after) rod_positions
    T dt t0 sigma_um rod_photons_per_L1
  = build_L_series_for_rods (before ++ after) rod_positions
      T dt t0 sigma_um rod_photons_per_L1.
Proof.
  intros Hd. destruct (Req_dec_T dt 0) as [->|Hdt].
  { by rewrite !build_cones_zero_dt, !build_rods_zero_dt. }
  split.
  - rewrite !build_cones_unfold by done. destruct (_ && _); [done|].
    rewrite for_each_skip; [done|].
    intros st. by apply cone_discarded_skip.
  - rewrite !build_rods_unfold by done. case_bool_decide; [done|].
    cbn zeta. case_decide as HN; [done|]. apply n_receptors_nonzero in HN.
    rewrite for_each_skip; [done|].
    intros st. by apply rod_discarded_skip.
Qed.

Lemma discarded_photon_no_effect_witness :
  let ph := {| lambda_nm := 560; x := None; y := Some 0; t := Some 0.01 |} in
  let far := {| lambda_nm := 560; x := Some 0; y := Some 0; t := Some 0.01 |} in
  discarded 0 0.1 ph /\
  build_L_series_for_rods ([far] ++ ph :: []) [(0, 0)] 0.1 0.01 0 10 10
  = build_L_series_for_rods ([far] ++ []) [(0, 0)] 0.1 0.01 0 10 10.
Proof.
  intros ph far.
  assert (Hd : discarded 0 0.1 ph) by (right; left; reflexivity).
  split; [exact Hd|].
  apply (discarded_photon_no_effect None [far] [] ph ∅ [(0, 0)] 0.1 0.01 0 10 50 10 Hd).
Defined.



End BuilderFacts.

(** ** Shape and range of the outputs *)

Section OutputFacts.
Import photon photon_driver.
Local Open Scope R_scope.

(** What a successful run of the cone builder went through. *)
Lemma build_cones_Ok_inv (binding : option (R -> string -> R)) (photons : list Photon)
    (cone_positions : gmap string (list (R * R))) (T dt t0 sigma_um photons_per_L1 : R)
    (out : gmap string (list (list R))) :
  build_L_series_for_cones binding photons cone_positions T dt t0 sigma_um photons_per_L1
    = Ok out ->
  exists L_series,
    series_inv cone_positions (Z.to_nat (Rceil (T / dt))) L_series /\
    out = normalized photons_per_L1 L_series /\
    is_Some (cone_positions !! "S") /\ (0 <= Rceil (T / dt))%Z.
Proof.
  destruct (Req_dec_T dt 0) as [->|Hdt]; [by rewrite build_cones_zero_dt|].
  rewrite build_cones_unfold by done.
  destruct (_ && _) eqn:Hneg; [done|].
  assert (Hn : (0 <= Rceil (T / dt))%Z \/ cone_positions = ∅).
  { apply andb_false_iff in Hneg as [Hn | Hn].
    - apply bool_decide_eq_false in Hn. left. lia.
    - apply negb_false_iff, bool_decide_eq_true in Hn. by right. }
  clear Hneg.
  destruct (for_each _ photons _) as [L_series|] eqn:Hloop; [|done].
  cbn [mbind result_bind]. rewrite normalize_all.
  case_bool_decide as Hkeys; [|done]. intros [= <-].
  apply (cone_loop_inv cone_positions (Z.to_nat (Rceil (T / dt)))) in Hloop;
    [|done|apply zero_series_inv].
  exists L_series. split; [done|]. split; [done|].
  assert (HS : is_Some (cone_positions !! "S")).
  { destruct Hkeys as [[a Ha] _]. specialize (Hloop "S"%string).
    destruct (cone_positions !! "S"); [eauto | congruence]. }
  split; [done|]. destruct Hn as [Hn | ->]; [done|].
  rewrite lookup_empty in HS. by destruct HS.
Qed.

(** C2, amended. Every entry of every array returned by the cone
    builder and by the rod builder lies in [[0, 1]], whatever the photons,
    the receptor coordinates and the parameters, as long as the
    normalisation denominator [photons_per_L1 + 1e-12] is not zero.  With a
    zero denominator the division gives NaN or infinity and [np.clip]
    passes NaN through ([zero_denominator_gives_nan]). *)
Theorem output_entries_in_unit_interval (binding : option (R -> string -> R))
    (photons : list Photon)
    (cone_positions : gmap string (list (R * R))) (rod_positions : list (R * R))
    (T dt t0 sigma_um cone_photons_per_L1 rod_photons_per_L1 : R) :
  cone_photons_per_L1 + eps <> 0 -> rod_photons_per_L1 + eps <> 0 ->
  (forall out tkey a,
     build_L_series_for_cones binding photons cone_positions
       T dt t0 sigma_um cone_photons_per_L1 = Ok out ->
     out !! tkey = Some a -> all_entries (fun v => 0 <= v <= 1) a)
  /\
  (forall Lr,
     build_L_series_for_rods photons rod_positions
       T dt t0 sigma_um rod_photons_per_L1 = Ok Lr ->
     all_entries (fun v => 0 <= v <= 1) Lr).
Proof.
  intros _ _. split.
  - intros out tkey a Hout Ha.
    apply build_cones_Ok_inv in Hout as (L_series & Hinv & -> & _).
    by eapply normalized_entries.
  - intros Lr. destruct (Req_dec_T dt 0) as [->|Hdt]; [by rewrite build_rods_zero_dt|].
    rewrite build_rods_unfold by done. case_bool_decide; [done|]. cbn zeta.
    case_decide as HN.
    + intros [= <-]. rewrite HN. intros row v Hrow Hv.
      apply elem_of_replicate in Hrow as [-> _]. by apply not_elem_of_nil in Hv.
    + destruct (for_each _ photons _) as [Lr'|]; [|done]. cbn. intros [= <-].
      apply np_clip2_entries. lra.
Qed.

(** C10. The dictionary returned by the cone builder has exactly the
    keys of [cone_positions]; each key holds an array of [ceil(T/dt)] rows
    and one column per receptor of that key; a key other than S, M, L
    holds the all-zero array, whatever the photons. *)
Theorem cone_series_keys_and_shapes (binding : option (R -> string -> R))
    (photons : list Photon) (cone_positions : gmap string (list (R * R)))
    (T dt t0 sigma_um photons_per_L1 : R) (out : gmap string (list (list R))) :
  build_L_series_for_cones binding photons cone_positions T dt t0 sigma_um photons_per_L1
    = Ok out ->
  dom out = dom cone_positions /\
  (0 <= Rceil (T / dt))%Z /\
  forall tkey pos, cone_positions !! tkey = Some pos ->
    exists a, out !! tkey = Some a /\
      has_shape (Z.to_nat (Rceil (T / dt))) (length pos) a /\
      (tkey <> "S"%string -> tkey <> "M"%string -> tkey <> "L"%string ->
       a = replicate (Z.to_nat (Rceil (T / dt))) (replicate (length pos) 0)).
Proof.
  intros Hout. apply build_cones_Ok_inv in Hout as (L_series & Hinv & -> & _ & Hn).
  apply (normalized_inv photons_per_L1) in Hinv.
  split; [|split; [done|]].
  - apply set_eq. intros tkey. rewrite !elem_of_dom. specialize (Hinv tkey).
    destruct (cone_positions !! tkey) as [pos|].
    + destruct Hinv as (a & -> & _). split; eauto.
    + rewrite Hinv. split; intros [? [=]].
  - intros tkey pos Hpos. specialize (Hinv tkey). rewrite Hpos in Hinv.
    destruct Hinv as (a & Ha & Hs & Hz). rewrite n_receptors_length in *.
    exists a. split; [done|]. split; [done|].
    intros HS HM HL. apply Hz. by intros [?|[?|?]].
Qed.

Lemma deposit_writes_bin (tkey : string) (pos : list (R * R)) (w0 : R) (k : Z)
    (px py sigma_um : R) (w : string * Z * list R) :
  w ∈ deposit_writes tkey pos w0 k px py sigma_um -> w.1.2 = k.
Proof.
  unfold deposit_writes. destruct pos; [by intros ?%not_elem_of_nil|].
  destruct (Rgt_dec w0 0); [|by intros ?%not_elem_of_nil].
  by intros ->%list_elem_of_singleton.
Qed.

Lemma retained_bin (T dt t0 : R) (ph : Photon) (k : Z) (px py : R) :
  retained T dt t0 ph = Some (k, px, py) ->
  _time_bin_index (Some (default t0 (t ph))) t0 dt T = Ok (Some k).
Proof.
  unfold retained. destruct (_time_bin_index _ _ _ _) as [[k'|]|]; try done.
  destruct (x ph), (y ph); try done. by intros [= -> _ _].
Qed.

Lemma cone_writes_bin (f : R -> string -> R) (S_pos M_pos L_pos : list (R * R))
    (T dt t0 sigma_um : R) (ph : Photon) (w : string * Z * list R) :
  w ∈ cone_writes f S_pos M_pos L_pos T dt t0 sigma_um ph ->
  _time_bin_index (Some (default t0 (t ph))) t0 dt T = Ok (Some w.1.2).
Proof.
  unfold cone_writes. destruct (retained T dt t0 ph) as [[[k px] py]|] eqn:Hr;
    [|by intros ?%not_elem_of_nil].
  apply retained_bin in Hr. rewrite !elem_of_app.
  intros [Hw | [Hw | Hw]]; apply deposit_writes_bin in Hw; by rewrite Hw.
Qed.

Lemma rod_writes_bin (rod_positions : list (R * R)) (T dt t0 sigma_um : R)
    (ph : Photon) (w : Z * list R) :
  w ∈ rod_writes rod_positions T dt t0 sigma_um ph ->
  _time_bin_index (Some (default t0 (t ph))) t0 dt T = Ok (Some w.1).
Proof.
  unfold rod_writes. destruct (retained T dt t0 ph) as [[[k px] py]|] eqn:Hr;
    [|by intros ?%not_elem_of_nil].
  apply retained_bin in Hr. by intros ->%list_elem_of_singleton.
Qed.

Lemma in_concat_map {A B : Type} (g : A -> list B) (xs : list A) (w : B) :
  In w (concat (map g xs)) -> exists x, w ∈ g x.
Proof.
  intros (ws & Hws & Hw)%in_concat. apply in_map_iff in Hws as (x0 & <- & _).
  exists x0. by apply list_elem_of_In.
Qed.

Lemma Rceil_pos (T dt : R) : 0 < T -> 0 < dt -> (0 < Rceil (T / dt))%Z.
Proof.
  intros HT Hdt. apply lt_IZR. destruct (Rceil_spec (T / dt)) as [Hc _].
  assert (0 < T / dt) by (apply Rdiv_lt_0_compat; lra). lra.
Qed.

Lemma bin_index_never_fails (T dt t0 tv : R) (k : Z) :
  0 < T -> 0 < dt ->
  _time_bin_index (Some tv) t0 dt T = Ok (Some k) ->
  index_fails (Z.to_nat (Rceil (T / dt))) k = false.
Proof.
  intros HT Hdt Hk. pose proof (bin_index_valid T dt t0 tv k HT Hdt Hk).
  unfold index_fails. rewrite np_index_in_range; [done | lia].
Qed.

(** With a positive window and time step, the three cone keys present
    and the sensitivity function bound, the cone builder returns. *)
Lemma build_cones_returns (f : R -> string -> R) (photons : list Photon)
    (cone_positions : gmap string (list (R * R))) (T dt t0 sigma_um photons_per_L1 : R) :
  0 < T -> 0 < dt ->
  is_Some (cone_positions !! "S") -> is_Some (cone_positions !! "M") ->
  is_Some (cone_positions !! "L") ->
  exists out,
    build_L_series_for_cones (Some f) photons cone_positions
      T dt t0 sigma_um photons_per_L1 = Ok out.
Proof.
  intros HT Hdt HS HM HL. pose proof (Rceil_pos T dt HT Hdt) as Hn.
  rewrite build_cones_unfold by lra.
  rewrite bool_decide_false by lia. cbn [andb].
  set (n := Z.to_nat (Rceil (T / dt))).
  pose proof (zero_series_inv cone_positions n) as Hinv0.
  rewrite (cone_loop_bound cone_positions n) by (done || lra).
  destruct (existsb _ _) eqn:Hex.
  - apply existsb_exists in Hex as (w & Hw & Hf). exfalso.
    apply in_concat_map in Hw as (ph & Hw).
    apply cone_writes_bin in Hw. subst n.
    rewrite (bin_index_never_fails T dt t0 _ _ HT Hdt Hw) in Hf. done.
  - cbn [mbind result_bind]. rewrite normalize_all.
    match goal with |- context [foldl apply_write ?L ?ws] =>
      set (Lf := foldl apply_write L ws) end.
    assert (Hinv : series_inv cone_positions n Lf).
    { apply (foldl_pure_inv (series_inv cone_positions n) (good_write cone_positions));
        [intros st w; apply apply_write_inv | done | apply cone_writes_all_good]. }
    clearbody Lf.
    rewrite bool_decide_true; [eauto|].
    pose proof (Hinv "S"%string) as H1. pose proof (Hinv "M"%string) as H2.
    pose proof (Hinv "L"%string) as H3.
    destruct HS as [? HS], HM as [? HM], HL as [? HL].
    rewrite HS in H1. rewrite HM in H2. rewrite HL in H3.
    destruct H1 as (? & -> & _), H2 as (? & -> & _), H3 as (? & -> & _). eauto.
Qed.

(** With a positive window and time step the rod builder returns. *)
Lemma build_rods_returns (photons : list Photon) (rod_positions : list (R * R))
    (T dt t0 sigma_um photons_per_L1 : R) :
  0 < T -> 0 < dt ->
  exists Lr,
    build_L_series_for_rods photons rod_positions T dt t0 sigma_um photons_per_L1 = Ok Lr.
Proof.
  intros HT Hdt. pose proof (Rceil_pos T dt HT Hdt) as Hn.
  rewrite build_rods_unfold by lra.
  rewrite bool_decide_false by lia. cbn zeta.
  case_decide as HN; [eauto|]. apply n_receptors_nonzero in HN.
  rewrite (rod_loop_closed rod_positions (Z.to_nat (Rceil (T / dt))))
    by (done || lra || apply length_replicate).
  destruct (existsb _ _) eqn:Hex; [|cbn; eauto].
  apply existsb_exists in Hex as (w & Hw & Hf). exfalso.
  apply in_concat_map in Hw as (ph & Hw).
  apply rod_writes_bin in Hw.
  rewrite (bin_index_never_fails T dt t0 _ _ HT Hdt Hw) in Hf. done.
Qed.

(** With the module's own globals the bare name is unbound: the cone
    builder raises [NameError] as soon as one photon passes the filters. *)
Lemma build_cones_module_binding (photons : list Photon)
    (cone_positions : gmap string (list (R * R))) (T dt t0 sigma_um photons_per_L1 : R) :
  0 < T -> 0 < dt ->
  Exists (fun ph => is_Some (retained T dt t0 ph)) photons ->
  build_L_series_for_cones module_binding photons cone_positions
    T dt t0 sigma_um photons_per_L1 = Err NameError.
Proof.
  intros HT Hdt Hex. pose proof (Rceil_pos T dt HT Hdt) as Hn.
  rewrite build_cones_unfold by lra.
  rewrite bool_decide_false by lia. cbn [andb]. unfold module_binding.
  rewrite cone_loop_unbound by lra.
  replace (existsb _ photons) with true; [done|].
  symmetry. apply existsb_exists. apply Exists_exists in Hex as (ph & Hin & Hr).
  exists ph. split; [by apply list_elem_of_In | by apply bool_decide_eq_true].
Qed.

End OutputFacts.

(** ** Concrete runs *)

Section DriverWitnesses.
Import photon photon_driver.
Local Open Scope R_scope.

Lemma output_entries_in_unit_interval_witness :
  let ph := {| lambda_nm := 560; x := Some 0; y := Some 0; t := Some 0.01 |} in
  let cone_positions : gmap string (list (R * R)) :=
    <["S" := []]> (<["M" := []]> (<["L" := [(0, 0)]]> ∅)) in
  exists out,
    build_L_series_for_cones intended_binding [ph] cone_positions 0.1 0.01 0 10 50
      = Ok out /\
    forall tkey a, out !! tkey = Some a -> all_entries (fun v => 0 <= v <= 1) a.
Proof.
  intros ph cone_positions.
  destruct (build_cones_returns cones.cone_sensitivity_nm [ph] cone_positions
              0.1 0.01 0 10 50) as [out Hout];
    [lra | lra | by eexists | by eexists | by eexists |].
  exists out. split; [exact Hout|].
  intros tkey a.
  assert (H50 : 50 + eps <> 0) by (unfold eps; lra).
  assert (H10 : 10 + eps <> 0) by (unfold eps; lra).
  exact (proj1 (output_entries_in_unit_interval intended_binding [ph] cone_positions []
                  0.1 0.01 0 10 50 10 H50 H10) out tkey a Hout).
Defined.

Lemma cone_series_keys_and_shapes_witness :
  let ph := {| lambda_nm := 560; x := Some 0; y := Some 0; t := Some 0.01 |} in
  let cone_positions : gmap string (list (R * R)) :=
    <["S" := []]> (<["M" := []]> (<["L" := [(0, 0)]]> (<["rod" := [(1, 1)]]> ∅))) in
  exists out,
    build_L_series_for_cones intended_binding [ph] cone_positions 0.1 0.01 0 10 50
      = Ok out /\
    dom out = dom cone_positions.
Proof.
  intros ph cone_positions.
  destruct (build_cones_returns cones.cone_sensitivity_nm [ph] cone_positions
              0.1 0.01 0 10 50) as [out Hout];
    [lra | lra | by eexists | by eexists | by eexists |].
  exists out. split; [exact Hout|].
  exact (proj1 (cone_series_keys_and_shapes intended_binding [ph] cone_positions
                  0.1 0.01 0 10 50 out Hout)).
Defined.

End DriverWitnesses.

(** ** Hexagonal patches: the radial sort *)

Section LexsortFacts.
Import hexagonal_layer.
Local Open Scope R_scope.

Lemma key_leb_spec (k1 k2 : R * R) : key_leb k1 k2 = true <-> key_le k1 k2.
Proof.
  unfold key_leb, key_le.
  destruct (Rlt_dec k1.1 k2.1); [tauto|].
  destruct (Req_dec_T k1.1 k2.1); [|split; [done | lra]].
  destruct (Rle_dec k1.2 k2.2); [tauto|]. split; [done | lra].
Qed.

Lemma key_leb_false (k1 k2 : R * R) : key_leb k1 k2 = false -> key_le k2 k1.
Proof.
  unfold key_leb, key_le.
  destruct (Rlt_dec k1.1 k2.1); [done|].
  destruct (Req_dec_T k1.1 k2.1); [|intros _; lra].
  destruct (Rle_dec k1.2 k2.2); [done|]. intros _. lra.
Qed.

Lemma key_le_trans (k1 k2 k3 : R * R) : key_le k1 k2 -> key_le k2 k3 -> key_le k1 k3.
Proof. unfold key_le. lra. Qed.

Variable key : nat -> R * R.
Local Abbreviation index_le := (fun i j : nat => key_le (key i) (key j)).

Lemma insert_index_perm (i : nat) (l : list nat) : insert_index key i l ≡ₚ i :: l.
Proof.
  induction l as [|j l IH]; cbn; [done|].
  destruct (key_leb (key i) (key j)); [done|].
  rewrite IH. apply perm_swap.
Qed.

Lemma insert_index_sorted (i : nat) (l : list nat) :
  StronglySorted index_le l -> StronglySorted index_le (insert_index key i l).
Proof.
  induction 1 as [|j l Hs IH Hj]; cbn.
  - repeat constructor.
  - destruct (key_leb (key i) (key j)) eqn:Hij.
    + apply key_leb_spec in Hij. constructor; [by constructor|].
      constructor; [done|].
      eapply Forall_impl; [exact Hj|]. intros m Hm. by eapply key_le_trans.
    + apply key_leb_false in Hij. constructor; [done|].
      rewrite insert_index_perm. by constructor.
Qed.

Lemma insertion_sort_sorted (l : list nat) :
  StronglySorted index_le (foldr (insert_index key) [] l).
Proof.
  induction l as [|i l IH]; cbn; [constructor | by apply insert_index_sorted].
Qed.

Lemma insertion_sort_perm (l : list nat) : foldr (insert_index key) [] l ≡ₚ l.
Proof.
  induction l as [|i l IH]; cbn; [done|]. by rewrite insert_index_perm, IH.
Qed.

End LexsortFacts.

Section RadialSortFacts.
Import hexagonal_layer.
Local Open Scope R_scope.

Lemma np_arctan2_origin : np_arctan2 0 0 = 0.
Proof.
  unfold np_arctan2. destruct (Rlt_dec 0 0); [lra|]. done.
Qed.

Lemma polar_key_origin (p : R * R) :
  polar_key (0, 0) p = (np_arctan2 p.2 p.1, sqrt (p.1 ^ 2 + p.2 ^ 2)).
Proof. unfold polar_key. cbn [fst snd]. by rewrite !Rminus_0_r. Qed.

Lemma take_rows_all (coords : list (R * R)) :
  take_rows coords (seq 0 (length coords)) = coords.
Proof.
  unfold take_rows. apply list_eq. intros i. rewrite list_lookup_fmap.
  destruct (decide (i < length coords)%nat) as [Hlt|Hge].
  - rewrite lookup_seq_lt by done. cbn.
    destruct (lookup_lt_is_Some_2 coords i Hlt) as [p Hp]. rewrite Hp.
    f_equal. by apply nth_lookup_Some with (d := (0, 0)) in Hp.
  - rewrite lookup_seq_ge by lia. cbn. symmetry. apply lookup_ge_None. lia.
Qed.

(** The radial sort reorders the points and loses none. *)
Lemma radial_sort_perm (coords : list (R * R)) : radial_sort coords ≡ₚ coords.
Proof.
  unfold radial_sort, np_lexsort. cbn zeta. rewrite length_map.
  rewrite <- (take_rows_all coords) at 3. unfold take_rows.
  apply Permutation_map, insertion_sort_perm.
Qed.

(** The sort keys are polar angle and radius about the origin of the
    coordinate system. *)
Lemma radial_sort_sorted (coords : list (R * R)) :
  sorted_about (0, 0) (radial_sort coords).
Proof.
  unfold radial_sort, np_lexsort, sorted_about, take_rows. cbn zeta.
  set (key := fun i : nat => (nth i _ 0, nth i _ 0)).
  assert (Hkey : forall i, key i = polar_key (0, 0) (nth i coords (0, 0))).
  { intros i. unfold key. rewrite polar_key_origin. f_equal.
    - etransitivity; [|apply (map_nth (fun p : R * R => np_arctan2 p.2 p.1))].
      f_equal. cbn [fst snd]. symmetry. apply np_arctan2_origin.
    - etransitivity; [|apply (map_nth (fun p : R * R => sqrt (p.1 ^ 2 + p.2 ^ 2)))].
      f_equal. cbn [fst snd]. replace (0 ^ 2 + 0 ^ 2) with 0 by ring.
      symmetry. apply sqrt_0. }
  pose proof (insertion_sort_sorted key (seq 0 (length (map (fun p => np_arctan2 p.2 p.1) coords)))) as Hs.
  induction Hs as [|i l Hs IH Hi]; cbn [map]; constructor; [done|].
  apply Forall_map. eapply Forall_impl; [exact Hi|].
  intros j Hj. cbn beta. by rewrite <- !Hkey.
Qed.

End RadialSortFacts.

(** ** Hexagonal patches: a concrete run *)

Section HexRun.
Import hexagonal_layer.
Local Open Scope R_scope.

Lemma sqrt3_sq : sqrt 3 * sqrt 3 = 3.
Proof. apply sqrt_sqrt. lra. Qed.

Lemma sqrt3_bounds : 1.7 < sqrt 3 < 1.8.
Proof.
  pose proof sqrt3_sq as Hs. pose proof (sqrt_pos 3) as Hp. split; nra.
Qed.

Lemma grid_dims_3_4 : grid_dims 3 4 = Ok (4%Z, 4%Z).
Proof.
  pose proof sqrt3_sq as Hs. pose proof sqrt3_bounds as Hb.
  unfold grid_dims. cbn zeta. rewrite py_div_nonzero by lra.
  cbn [mbind result_bind]. do 2 f_equal.
  - rewrite (Rceil_unique (2 * 3 / 4) 2); [done | lra].
  - rewrite (Rceil_unique (2 * 3 / (4 * sqrt 3 / 2)) 2); [done|].
    replace (2 * 3 / (4 * sqrt 3 / 2)) with (sqrt 3) by (field_simplify_eq; lra).
    lra.
Qed.

Lemma hex_grid_4_4_4 :
  hex_grid 4 4 4 =
  [ (0, 0); (4, 0); (8, 0); (12, 0);
    (2, 2 * sqrt 3); (6, 2 * sqrt 3); (10, 2 * sqrt 3); (14, 2 * sqrt 3);
    (0, 4 * sqrt 3); (4, 4 * sqrt 3); (8, 4 * sqrt 3); (12, 4 * sqrt 3);
    (2, 6 * sqrt 3); (6, 6 * sqrt 3); (10, 6 * sqrt 3); (14, 6 * sqrt 3) ].
Proof.
  unfold hex_grid, hex_row.
  change (Z.to_nat 4) with 4%nat.
  cbn [seq map concat app Nat.odd Nat.even negb INR].
  repeat (apply (f_equal2 cons); [apply (f_equal2 pair); lra|]). done.
Qed.

(** Centroid removal on the 4 x 4 grid of pitch 4. *)
Lemma recenter_hex_grid_4_4_4 :
  recenter (hex_grid 4 4 4) =
  [ (-7, - (3 * sqrt 3)); (-3, - (3 * sqrt 3)); (1, - (3 * sqrt 3)); (5, - (3 * sqrt 3));
    (-5, - sqrt 3); (-1, - sqrt 3); (3, - sqrt 3); (7, - sqrt 3);
    (-7, sqrt 3); (-3, sqrt 3); (1, sqrt 3); (5, sqrt 3);
    (-5, 3 * sqrt 3); (-1, 3 * sqrt 3); (3, 3 * sqrt 3); (7, 3 * sqrt 3) ].
Proof.
  rewrite hex_grid_4_4_4. unfold recenter, np_mean, np_sum.
  cbn [map fst snd foldr length INR].
  repeat (apply (f_equal2 cons); [apply (f_equal2 pair); field|]). done.
Qed.

Lemma circular_mask_keep (radius_um : R) (p : R * R) (coords : list (R * R)) :
  p.1 ^ 2 + p.2 ^ 2 <= radius_um ^ 2 ->
  circular_mask radius_um (p :: coords) = p :: circular_mask radius_um coords.
Proof. intros Hp. unfold circular_mask. cbn. by rewrite bool_decide_true. Qed.

Lemma circular_mask_drop (radius_um : R) (p : R * R) (coords : list (R * R)) :
  radius_um ^ 2 < p.1 ^ 2 + p.2 ^ 2 ->
  circular_mask radius_um (p :: coords) = circular_mask radius_um coords.
Proof. intros Hp. unfold circular_mask. cbn. rewrite bool_decide_false; [done | lra]. Qed.

Lemma circular_mask_hex_grid_4_4_4 :
  circular_mask 3 (recenter (hex_grid 4 4 4)) = [(-1, - sqrt 3); (1, sqrt 3)].
Proof.
  pose proof sqrt3_sq as Hs.
  rewrite recenter_hex_grid_4_4_4.
  do 5 (rewrite circular_mask_drop by (cbn [fst snd]; nra)).
  rewrite circular_mask_keep by (cbn [fst snd]; nra).
  do 4 (rewrite circular_mask_drop by (cbn [fst snd]; nra)).
  rewrite circular_mask_keep by (cbn [fst snd]; nra).
  do 5 (rewrite circular_mask_drop by (cbn [fst snd]; nra)).
  done.
Qed.

Lemma np_arctan2_right (y x : R) : 0 < x -> - (PI / 2) < np_arctan2 y x < PI / 2.
Proof.
  intros Hx. unfold np_arctan2. destruct (Rlt_dec 0 x); [|lra].
  pose proof (atan_bound (y / x)). lra.
Qed.

Lemma np_arctan2_upper_left (y x : R) : x < 0 -> 0 <= y -> PI / 2 < np_arctan2 y x.
Proof.
  intros Hx Hy. unfold np_arctan2. destruct (Rlt_dec 0 x); [lra|].
  destruct (Rlt_dec x 0); [|lra]. destruct (Rle_dec 0 y); [|lra].
  pose proof (atan_bound (y / x)). lra.
Qed.

Lemma np_arctan2_lower_left (y x : R) : x < 0 -> y < 0 -> np_arctan2 y x < - (PI / 2).
Proof.
  intros Hx Hy. unfold np_arctan2. destruct (Rlt_dec 0 x); [lra|].
  destruct (Rlt_dec x 0); [|lra]. destruct (Rle_dec 0 y); [lra|].
  pose proof (atan_bound (y / x)). lra.
Qed.

(** The patch of radius 3 and pitch 4 centred at (0, 40), on the
    hexagonal grid, without jitter: two points survive the mask, and the
    sort puts the right-hand one first. *)
Lemma hex_patch_3_4_run :
  make_hex_circular_patch hex_grid no_noise 3 4 0 None (0, 40)
  = Ok {| radius_um := 3; pitch_um := 4; jitter_um := 0; seed := None;
          center := (0, 40);
          coords := [(1 + 0, sqrt 3 + 40); (-1 + 0, - sqrt 3 + 40)] |}.
Proof.
  pose proof sqrt3_bounds as Hb.
  unfold make_hex_circular_patch. destruct (Rle_dec 3 0); [lra|].
  rewrite grid_dims_3_4. cbn [mbind result_bind fst snd]. cbn zeta.
  rewrite circular_mask_hex_grid_4_4_4.
  unfold add_jitter. destruct (Rlt_dec 0 0); [lra|].
  unfold translate. cbn [map fst snd].
  do 2 f_equal. unfold radial_sort, np_lexsort. cbn zeta.
  cbn [map length seq foldr insert_index nth fst snd].
  match goal with |- context [key_leb ?a ?b] => destruct (key_leb a b) eqn:Hk end;
    [exfalso | done].
  apply key_leb_spec in Hk. revert Hk. unfold key_le. cbn [fst snd].
  pose proof (np_arctan2_upper_left (- sqrt 3 + 40) (-1 + 0)).
  pose proof (np_arctan2_right (sqrt 3 + 40) (1 + 0)). lra.
Qed.

(** C5, as stated, fails: for a patch centred away from the origin the
    returned coordinates are not ordered by the polar angle measured from
    the patch centre. *)
Lemma hex_patch_not_sorted_about_center :
  exists patch,
    make_hex_circular_patch hex_grid no_noise 3 4 0 None (0, 40) = Ok patch /\
    ~ sorted_about (center patch) (coords patch).
Proof.
  eexists. split; [apply hex_patch_3_4_run|]. cbn [center coords].
  pose proof sqrt3_bounds as Hb.
  intros Hs. inversion Hs as [|p l _ Hall]; subst.
  apply Forall_cons in Hall as [Hle _]. revert Hle.
  unfold key_le, polar_key. cbn [fst snd].
  pose proof (np_arctan2_right (sqrt 3 + 40 - 40) (1 + 0 - 0)).
  pose proof (np_arctan2_lower_left (- sqrt 3 + 40 - 40) (-1 + 0 - 0)). lra.
Qed.

End HexRun.

(** ** Hexagonal patches: ordering and containment *)

Section HexPatchFacts.
Import hexagonal_layer.
Local Open Scope R_scope.

Variable create_hex_grid : Z -> Z -> R -> list (R * R).
Variable rng_normal : option Z -> R -> nat -> nat -> R * R.

Lemma grid_dims_nonzero (radius_um pitch_um : R) :
  pitch_um <> 0 -> exists dims, grid_dims radius_um pitch_um = Ok dims.
Proof.
  intros Hp. unfold grid_dims. cbn zeta. rewrite py_div_nonzero by done.
  cbn. eauto.
Qed.

(** For a non-zero pitch the generator returns, and what it returns is
    the sorted, translated, jittered, masked, recentred grid. *)
Lemma make_hex_circular_patch_returns (radius_um pitch_um jitter_um : R)
    (seed : option Z) (center : R * R) :
  pitch_um <> 0 \/ radius_um <= 0 ->
  exists patch,
    make_hex_circular_patch create_hex_grid rng_normal
      radius_um pitch_um jitter_um seed center = Ok patch.
Proof.
  intros Hp. unfold make_hex_circular_patch.
  destruct (Rle_dec radius_um 0); [eauto|].
  destruct Hp as [Hp|?]; [|lra].
  destruct (grid_dims_nonzero radius_um pitch_um Hp) as [dims ->]. cbn. eauto.
Qed.

Lemma make_hex_circular_patch_coords (radius_um pitch_um jitter_um : R)
    (seed : option Z) (center : R * R) (patch : HexPatch) :
  make_hex_circular_patch create_hex_grid rng_normal
    radius_um pitch_um jitter_um seed center = Ok patch ->
  hexagonal_layer.center patch = center /\
  (coords patch = [] \/
   exists dims,
     ~ radius_um <= 0 /\
     coords patch =
       radial_sort
         (translate center
            (add_jitter rng_normal jitter_um seed
               (circular_mask radius_um
                  (recenter (create_hex_grid dims.1 dims.2 pitch_um)))))).
Proof.
  unfold make_hex_circular_patch. destruct (Rle_dec radius_um 0).
  - intros [= <-]. cbn. auto.
  - destruct (grid_dims radius_um pitch_um) as [dims|]; [|done].
    cbn. intros [= <-]. cbn. eauto.
Qed.

(** C5, amended. The returned coordinates are ordered by polar angle
    first and radius second, both measured from the origin of the
    coordinate system; this is the patch centre when the patch is centred
    at (0, 0). *)
Theorem hex_patch_sorted_about_origin (radius_um pitch_um jitter_um : R)
    (seed : option Z) (center : R * R) (patch : HexPatch) :
  make_hex_circular_patch create_hex_grid rng_normal
    radius_um pitch_um jitter_um seed center = Ok patch ->
  sorted_about (0, 0) (coords patch) /\
  (center = (0, 0) -> sorted_about (hexagonal_layer.center patch) (coords patch)).
Proof.
  intros Hrun. apply make_hex_circular_patch_coords in Hrun as [Hc Hcoords].
  assert (Hs : sorted_about (0, 0) (coords patch)).
  { destruct Hcoords as [-> | (dims & _ & ->)]; [constructor|].
    apply radial_sort_sorted. }
  split; [done|]. intros ->. by rewrite Hc.
Qed.

Lemma circular_mask_in (radius_um : R) (coords : list (R * R)) (p : R * R) :
  p ∈ circular_mask radius_um coords -> p.1 ^ 2 + p.2 ^ 2 <= radius_um ^ 2.
Proof.
  unfold circular_mask. cbn zeta. intros Hp%list_elem_of_In.
  apply filter_In in Hp as [_ Hp]. by apply bool_decide_eq_true in Hp.
Qed.

(** C6. Without jitter and with [pitch_um > 0], the generator returns a
    patch whose coordinates all lie within [radius_um] of the centre; for
    [radius_um <= 0] the coordinate set is empty. *)
Theorem hex_patch_within_radius (radius_um pitch_um : R)
    (seed : option Z) (center : R * R) :
  0 < pitch_um ->
  exists patch,
    make_hex_circular_patch create_hex_grid rng_normal
      radius_um pitch_um 0 seed center = Ok patch /\
    (forall p, p ∈ coords patch -> dist p center <= radius_um) /\
    (radius_um <= 0 -> coords patch = []).
Proof.
  intros Hp.
  destruct (make_hex_circular_patch_returns radius_um pitch_um 0 seed center)
    as [patch Hrun]; [left; lra|].
  exists patch. split; [done|].
  pose proof Hrun as Hrun'.
  apply make_hex_circular_patch_coords in Hrun as [_ Hcoords]. split.
  - intros p Hin. destruct Hcoords as [Hnil | (dims & Hr & Hcoords)].
    { rewrite Hnil in Hin. by apply not_elem_of_nil in Hin. }
    rewrite Hcoords, radial_sort_perm in Hin.
    unfold add_jitter in Hin. destruct (Rlt_dec 0 0); [lra|].
    unfold translate in Hin. apply list_elem_of_fmap in Hin as (q & -> & Hq).
    apply circular_mask_in in Hq. unfold dist. cbn [fst snd].
    replace ((q.1 + center.1 - center.1) ^ 2 + (q.2 + center.2 - center.2) ^ 2)
      with (q.1 ^ 2 + q.2 ^ 2) by ring.
    rewrite <- (sqrt_pow2 radius_um) by lra. by apply sqrt_le_1_alt.
  - intros Hr. unfold make_hex_circular_patch in Hrun'.
    destruct (Rle_dec radius_um 0); [|done]. by injection Hrun' as <-.
Qed.

End HexPatchFacts.

Section HexPatchWitnesses.
Import hexagonal_layer.
Local Open Scope R_scope.

Lemma hex_patch_sorted_about_origin_witness :
  exists patch,
    make_hex_circular_patch hex_grid no_noise 3 4 0 None (0, 40) = Ok patch /\
    sorted_about (0, 0) (coords patch).
Proof.
  eexists. split; [apply hex_patch_3_4_run|].
  exact (proj1 (hex_patch_sorted_about_origin hex_grid no_noise 3 4 0 None (0, 40) _
                  hex_patch_3_4_run)).
Defined.

Lemma hex_patch_within_radius_witness :
  exists patch,
    make_hex_circular_patch hex_grid no_noise 3 4 0 None (0, 40) = Ok patch /\
    (forall p, p ∈ coords patch -> dist p (0, 40) <= 3) /\
    (3 <= 0 -> coords patch = []).
Proof.
  apply (hex_patch_within_radius hex_grid no_noise 3 4 None (0, 40)). lra.
Defined.

End HexPatchWitnesses.

(** ** The two scenarios of the specification *)

Section Scenarios.
Import photon photon_driver.
Local Open Scope R_scope.

(** [psf_sigma = 0], receptors at (0,0) and (100,0), photon at (10,0):
    all the weight goes to the receptor at (0,0). *)
Example nearest_neighbour_scenario :
  _gaussian_psf_weights 10 0 [0; 100] [0; 0] 0 = Ok [1; 0].
Proof.
  unfold _gaussian_psf_weights. destruct (Rle_dec 0 0); [|lra].
  cbn [zip_with np_argmin argmin_from mbind result_bind].
  destruct (Rlt_dec _ _) as [Hlt|_]; [lra|]. reflexivity.
Qed.

Lemma psf_weights_single_on_target (sigma_um : R) :
  0 < sigma_um -> psf_weights 0 0 [(0, 0)] sigma_um = [1].
Proof.
  intros Hs. unfold psf_weights, _gaussian_psf_weights.
  destruct (Rle_dec sigma_um 0); [lra|]. cbn [map zip_with fst snd np_sum foldr].
  replace (-0.5 * ((0 - 0) * (0 - 0) + (0 - 0) * (0 - 0)) / sigma_um ^ 2) with 0
    by (field; lra).
  rewrite exp_0. destruct (Rgt_dec (1 + 0) 0) as [_|Hn]; [|unfold Rgt in Hn; lra].
  f_equal. f_equal. field.
Qed.

Lemma cone_sensitivity_at_peak : cones.cone_sensitivity_nm 560 "L" = 1.
Proof.
  rewrite cone_sensitivity_nm_unfold.
  assert (Hu : cones.upper "L" = "L"%string) by reflexivity. rewrite Hu.
  change (cones.gaussian 560 40 560 = 1). unfold cones.gaussian.
  replace (-0.5 * ((560 - 560) / 40) ^ 2) with 0 by field. apply exp_0.
Qed.

(** One photon of 560 nm at (0,0), arriving at 0.01 s; one L cone at
    (0,0); window [[0, 0.1)], [dt = 0.01], [sigma_um = 10],
    [photons_per_L1 = 50]: ten time bins, bin 1 of the L cone holds
    [1 / (50 + eps)], every other bin holds 0, and the S and M arrays
    have no column. *)
Example single_photon_scenario :
  let ph := {| lambda_nm := 560; x := Some 0; y := Some 0; t := Some 0.01 |} in
  let cone_positions : gmap string (list (R * R)) :=
    <["S" := []]> (<["M" := []]> (<["L" := [(0, 0)]]> ∅)) in
  exists out,
    build_L_series_for_cones intended_binding [ph] cone_positions 0.1 0.01 0 10 50
      = Ok out /\
    out !! "L" = Some ([[0]; [1 / (50 + eps)]] ++ replicate 8 [0]) /\
    out !! "S" = Some (replicate 10 []) /\
    out !! "M" = Some (replicate 10 []).
Proof.
  assert (Hn : Rceil (0.1 / 0.01) = 10%Z) by (apply Rceil_unique; lra).
  intros ph cone_positions.
  assert (Hk : retained 0.1 0.01 0 ph = Some (1%Z, 0, 0)).
  { unfold retained, ph. cbn [t x y default from_option]. unfold Datatypes.id.
    rewrite time_bin_index_in_window by lra.
    replace (Rfloor ((0.01 - 0) / 0.01)) with 1%Z; [done|].
    symmetry. apply Rfloor_unique. lra. }
  assert (HS : cone_positions !! "S" = Some []) by reflexivity.
  assert (HM : cone_positions !! "M" = Some []) by reflexivity.
  assert (HL : cone_positions !! "L" = Some [(0, 0)]) by reflexivity.
  eexists. split.
  { rewrite build_cones_unfold by lra. rewrite Hn. cbn [bool_decide andb].
    rewrite bool_decide_false by lia. cbn [andb].
    unfold intended_binding.
    rewrite (cone_loop_bound cone_positions 10 0.1 0.01 0 10);
      [|lra|apply zero_series_inv].
    cbn [map concat]. unfold cone_writes. rewrite Hk, HS, HM, HL.
    cbn [default from_option lambda_nm ph]. unfold Datatypes.id.
    cbn [deposit_writes app].
    rewrite cone_sensitivity_at_peak.
    destruct (Rgt_dec 1 0) as [_|Hn1]; [|unfold Rgt in Hn1; lra].
    cbn [existsb fst snd orb app]. rewrite psf_weights_single_on_target by lra.
    change (index_fails 10 1) with false. cbn [orb foldl mbind result_bind].
    rewrite normalize_all. rewrite bool_decide_true; [reflexivity|].
    unfold apply_write, zero_series. cbn [fst snd].
    rewrite !lookup_alter_ne by done. rewrite lookup_alter_eq, !lookup_fmap.
    rewrite HS, HM, HL. repeat split; by eexists. }
  assert (Hclip0 : clip 0 1 (0 / (50 + eps)) = 0).
  { unfold Rdiv. rewrite Rmult_0_l. unfold clip, Rmin, Rmax.
    destruct (Rle_dec 0 0); [|lra]. destruct (Rle_dec 1 0); lra. }
  assert (Hclip1 : clip 0 1 ((0 + 1 * 1) / (50 + eps)) = 1 / (50 + eps)).
  { unfold eps. assert (H0 : 0 < 1 / (50 + 1e-12)) by (apply Rdiv_lt_0_compat; lra).
    assert (H1 : 1 / (50 + 1e-12) < 1).
    { apply (Rmult_lt_reg_r (50 + 1e-12)); [lra|]. field_simplify; lra. }
    replace ((0 + 1 * 1) / (50 + 1e-12)) with (1 / (50 + 1e-12)) by (field; lra).
    unfold clip, Rmin, Rmax.
    destruct (Rle_dec 0 (1 / (50 + 1e-12))); [|lra].
    destruct (Rle_dec 1 (1 / (50 + 1e-12))); lra. }
  rewrite !normalized_lookup. unfold apply_write, zero_series. cbn [fst snd].
  split; [|split].
  - rewrite decide_True by (unfold is_cone_key; auto).
    rewrite lookup_alter_eq, lookup_fmap, HL.
    cbn [fmap option_fmap option_map n_receptors].
    unfold radd. rewrite length_replicate.
    change (np_index (Z.to_nat 10) 1) with (Ok (A:=nat) 1%nat).
    change (Z.to_nat 10) with 10%nat.
    cbn [replicate alter list_alter zip_with map length].
    unfold normalize_array. rewrite decide_False by (cbn; lia).
    unfold np_clip2, np_div2. cbn [map app replicate].
    rewrite Hclip0, Hclip1. reflexivity.
  - rewrite decide_True by (unfold is_cone_key; auto).
    rewrite lookup_alter_ne by done. rewrite lookup_fmap, HS. reflexivity.
  - rewrite decide_True by (unfold is_cone_key; auto).
    rewrite lookup_alter_ne by done. rewrite lookup_fmap, HM. reflexivity.
Qed.

End Scenarios.

(** ** The program on binary64 numbers

    The runs below evaluate the [binary64] embedding at inputs where the
    real-number reading of the floats and the program part ways. *)

Section Binary64Runs.
Import PrimFloat.
Local Open Scope float_scope.
#[local] Set Warnings "-inexact-float".

(** C9. The bound fails on the program: with [t0 = 0.3], [T = 0.55] and
    [dt = 0.05] the sum [t0 + T] rounds to 0.8500000000000001, so a photon
    at [t = 0.85] passes the window test [t < t0 + T]; its index
    [(t - t0) // dt] is 11, the arrays have [int(ceil(T / dt)) = 11] rows,
    and the write [Lr[11] += w_sp] raises [IndexError]. *)
Theorem time_bin_index_out_of_bounds :
  let ph := {| binary64.lambda_nm := 560; binary64.x := Some 0;
               binary64.y := Some 0; binary64.t := Some 0.85 |} in
  (0 <? 0.55) = true /\ (0 <? 0.05) = true /\
  (0.3 <=? 0.85) = true /\ (0.85 <? 0.3 + 0.55) = true /\
  binary64._time_bin_index (Some 0.85) 0.3 0.05 0.55 = Ok (Some 11%Z) /\
  binary64.n_steps_of 0.55 0.05 = Ok 11%Z /\
  binary64.build_L_series_for_rods [ph] [(0, 0)] 0.55 0.05 0.3 10 10 = Err IndexError.
Proof.
  repeat split; vm_compute; reflexivity.
Qed.

(** C2, as stated, fails: with [photons_per_L1 = -1e-12] the denominator
    [photons_per_L1 + 1e-12] is [0.0].  The row of the one photon becomes
    [1/0 = inf] and is clipped to 1; every other row is [0/0], NaN, which
    [np.clip] leaves as it is and which is not in [[0, 1]]. *)
Theorem zero_denominator_gives_nan :
  let ph := {| binary64.lambda_nm := 560; binary64.x := Some 0;
               binary64.y := Some 0; binary64.t := Some 0 |} in
  binary64.build_L_series_for_rods [ph] [(0, 0)] 0.1 0.01 0 10 (-1e-12)
    = Ok ([1] :: replicate 9 [nan]) /\
  binary64.in_unit_interval nan = false.
Proof.
  split; vm_compute; reflexivity.
Qed.

(** C3, as stated, fails: for a photon 900 um and 890 um away from two
    receptors and [sigma_um = 10], both exponentials underflow to [0.0],
    their sum is 0, the guard [if s > 0] skips the division, and the
    weights [[0, 0]] sum to 0, not to 1. *)
Theorem gaussian_psf_weights_underflow :
  (0 <? 10) = true /\
  binary64._gaussian_psf_weights 900 0 [0; 10] [0; 0] 10 = Ok [0; 0] /\
  binary64.np_sum [0; 0] = 0 /\
  (1e-9 <? abs (binary64.np_sum [0; 0] - 1)) = true.
Proof.
  repeat split; vm_compute; reflexivity.
Qed.



End Binary64Runs.

(** * Further properties of the modelled code *)

(** ** Photon energy *)

Section EnergyFacts.
Import photon.
Local Open Scope R_scope.

Lemma energy_joule_value (ph : Photon) :
  lambda_nm ph <> 0 ->
  energy_joule ph = Ok (6.62607015e-34 * 2.99792458e8 / (lambda_nm ph * 1e-9)).
Proof.
  intros Hl. unfold energy_joule. cbn zeta. apply py_div_nonzero.
  intros H0. apply Hl. lra.
Qed.

(** X1. [energy_joule] raises [ZeroDivisionError] exactly for a zero
    wavelength; for any other wavelength it returns an energy [E] with
    [E * lambda_nm * 1e-9 = h * c]. *)
Theorem energy_joule_error_iff_zero_wavelength (ph : Photon) :
  (energy_joule ph = Err ZeroDivisionError <-> lambda_nm ph = 0) /\
  (lambda_nm ph <> 0 ->
   exists E, energy_joule ph = Ok E /\
             E * (lambda_nm ph * 1e-9) = 6.62607015e-34 * 2.99792458e8).
Proof.
  split.
  - split.
    + intros He. destruct (Req_dec_T (lambda_nm ph) 0) as [|Hn]; [done|].
      rewrite energy_joule_value in He by done. discriminate.
    + intros Hz. unfold energy_joule, py_div. cbn zeta. rewrite Hz.
      destruct (Req_dec_T (0 * 1e-9) 0) as [|Hn]; [done|]. exfalso. apply Hn. lra.
  - intros Hl. eexists. split; [by apply energy_joule_value|]. field. lra.
Qed.

(** X2. Among photons of positive wavelength the energy is positive and
    strictly decreasing in the wavelength. *)
Theorem energy_joule_decreasing (p1 p2 : Photon) :
  0 < lambda_nm p1 -> lambda_nm p1 < lambda_nm p2 ->
  exists E1 E2,
    energy_joule p1 = Ok E1 /\ energy_joule p2 = Ok E2 /\ 0 < E2 < E1.
Proof.
  intros H1 H12. do 2 eexists.
  split; [apply energy_joule_value; lra|]. split; [apply energy_joule_value; lra|].
  set (hc := 6.62607015e-34 * 2.99792458e8).
  assert (Hhc : 0 < hc) by (unfold hc; lra).
  assert (Ha : 0 < lambda_nm p1 * 1e-9) by lra.
  assert (Hb : lambda_nm p1 * 1e-9 < lambda_nm p2 * 1e-9) by lra.
  split.
  - apply Rdiv_lt_0_compat; lra.
  - unfold Rdiv. apply Rmult_lt_compat_l; [done|].
    apply Rinv_lt_contravar; [|done]. apply Rmult_lt_0_compat; lra.
Qed.

Lemma energy_joule_decreasing_witness :
  exists E1 E2,
    energy_joule {| lambda_nm := 420; x := None; y := None; t := None |} = Ok E1 /\
    energy_joule {| lambda_nm := 560; x := None; y := None; t := None |} = Ok E2 /\
    0 < E2 < E1.
Proof.
  apply (energy_joule_decreasing
           {| lambda_nm := 420; x := None; y := None; t := None |}
           {| lambda_nm := 560; x := None; y := None; t := None |}); cbn; lra.
Defined.

End EnergyFacts.

(** ** Time bins *)

Section TimeBinExtra.
Import photon photon_driver.
Local Open Scope R_scope.

(** X4. For [dt > 0] a later arrival inside the window never gets a
    smaller bin index. *)
Theorem time_bin_index_monotone (t1 t2 t0 dt T : R) (k1 k2 : Z) :
  0 < dt -> t1 <= t2 ->
  _time_bin_index (Some t1) t0 dt T = Ok (Some k1) ->
  _time_bin_index (Some t2) t0 dt T = Ok (Some k2) ->
  (k1 <= k2)%Z.
Proof.
  intros Hdt H12 H1 H2.
  apply time_bin_index_Some_inv in H1 as (Hw1 & _ & ->).
  apply time_bin_index_Some_inv in H2 as (Hw2 & _ & ->).
  destruct (Rfloor_spec ((t1 - t0) / dt)) as [Ha _].
  destruct (Rfloor_spec ((t2 - t0) / dt)) as [_ Hb].
  assert (Hq : (t1 - t0) / dt <= (t2 - t0) / dt).
  { unfold Rdiv. apply Rmult_le_compat_r; [|lra].
    left. apply Rinv_0_lt_compat. lra. }
  apply Z.lt_succ_r, lt_IZR. rewrite succ_IZR. lra.
Qed.

Lemma time_bin_index_monotone_witness :
  _time_bin_index (Some 0.01) 0 0.01 0.1 = Ok (Some 1%Z) /\
  _time_bin_index (Some 0.025) 0 0.01 0.1 = Ok (Some 2%Z) /\
  (1 <= 2)%Z.
Proof.
  assert (H1 : _time_bin_index (Some 0.01) 0 0.01 0.1 = Ok (Some 1%Z)).
  { rewrite time_bin_index_in_window by lra. do 2 f_equal. apply Rfloor_unique. lra. }
  assert (H2 : _time_bin_index (Some 0.025) 0 0.01 0.1 = Ok (Some 2%Z)).
  { rewrite time_bin_index_in_window by lra. do 2 f_equal. apply Rfloor_unique. lra. }
  split; [exact H1|]. split; [exact H2|].
  apply (time_bin_index_monotone 0.01 0.025 0 0.01 0.1 1 2); [lra | lra | exact H1 | exact H2].
Defined.

(** X5. [_time_bin_index] raises only [ZeroDivisionError], and exactly
    when [dt = 0] and the time lies inside the window; a missing time or a
    time outside the window gives [None] whatever [dt] is. *)
Theorem time_bin_index_error_iff (tv : option R) (t0 dt T : R) (e : exn) :
  _time_bin_index tv t0 dt T = Err e
  <-> e = ZeroDivisionError /\ dt = 0 /\
      exists v, tv = Some v /\ t0 <= v < t0 + T.
Proof.
  unfold _time_bin_index, py_floordiv. destruct tv as [v|].
  - destruct (Rlt_dec v t0) as [Hlt|Hge].
    { split; [done|]. intros (_ & _ & v' & [= <-] & Hw). lra. }
    destruct (Rge_dec v (t0 + T)) as [Hge'|Hlt'].
    { split; [done|]. intros (_ & _ & v' & [= <-] & Hw). lra. }
    destruct (Req_dec_T dt 0) as [Hz|Hnz]; cbn.
    + split.
      * intros [= <-]. repeat split; [done|]. exists v. split; [done | lra].
      * by intros (-> & _).
    + split; [done|]. by intros (_ & Hz & _).
  - split; [done|]. by intros (_ & _ & v & [=] & _).
Qed.

End TimeBinExtra.

(** ** Point-spread weights, both branches *)

Section PsfExtra.
Import photon_driver.
Local Open Scope R_scope.

Lemma argmin_from_spec (l pre : list R) (best : R) (besti : nat) :
  pre !! besti = Some best ->
  (forall j v, pre !! j = Some v -> best <= v) ->
  (forall j v, (j < besti)%nat -> pre !! j = Some v -> best < v) ->
  exists m,
    (pre ++ l) !! argmin_from best besti (length pre) l = Some m /\
    (forall j v, (pre ++ l) !! j = Some v -> m <= v) /\
    (forall j v, (j < argmin_from best besti (length pre) l)%nat ->
                 (pre ++ l) !! j = Some v -> m < v).
Proof.
  revert pre best besti. induction l as [|u l IH]; intros pre best besti Hb Hle Hlt.
  - cbn [argmin_from]. rewrite app_nil_r. eauto.
  - cbn [argmin_from].
    replace (pre ++ u :: l) with ((pre ++ [u]) ++ l) by (by rewrite <- app_assoc).
    replace (S (length pre)) with (length (pre ++ [u]))
      by (rewrite length_app; cbn; lia).
    destruct (Rlt_dec u best) as [Hu|Hu].
    + apply IH.
      * by rewrite lookup_app_r, Nat.sub_diag.
      * intros j v Hj. apply lookup_app_Some in Hj as [Hj | [_ Hj]].
        -- specialize (Hle j v Hj). lra.
        -- apply list_lookup_singleton_Some in Hj as [_ <-]. lra.
      * intros j v Hjlt Hj. rewrite lookup_app_l in Hj by done.
        specialize (Hle j v Hj). lra.
    + apply IH.
      * rewrite lookup_app_l; [done|]. by apply lookup_lt_Some in Hb.
      * intros j v Hj. apply lookup_app_Some in Hj as [Hj | [_ Hj]].
        -- by apply (Hle j).
        -- apply list_lookup_singleton_Some in Hj as [_ <-]. lra.
      * intros j v Hjlt Hj. apply lookup_lt_Some in Hb.
        rewrite lookup_app_l in Hj by lia. by apply (Hlt j).
Qed.

(** [np.argmin] of a non-empty array is the first index of its minimum. *)
Lemma np_argmin_spec (l : list R) :
  l <> [] ->
  exists idx m,
    np_argmin l = Ok idx /\ l !! idx = Some m /\
    (forall j v, l !! j = Some v -> m <= v) /\
    (forall j v, (j < idx)%nat -> l !! j = Some v -> m < v).
Proof.
  destruct l as [|u l]; [done|]. intros _. cbn [np_argmin].
  destruct (argmin_from_spec l [u] u 0) as (m & Hm & Hle & Hlt).
  - done.
  - intros [|j] v [=]. lra.
  - intros j v Hj. lia.
  - exists (argmin_from u 0 1 l), m. eauto.
Qed.

Lemma np_sum_one_hot (n idx : nat) :
  (idx < n)%nat -> np_sum (<[idx := 1]> (replicate n 0)) = 1.
Proof.
  revert idx. induction n as [|n IH]; intros idx Hidx; [lia|].
  destruct idx as [|idx]; cbn.
  - fold (np_sum (replicate n 0)).
    assert (Hz : np_sum (replicate n 0) = 0).
    { clear. induction n as [|n IH]; cbn; [done|]. fold (np_sum (replicate n 0)). lra. }
    lra.
  - fold (np_sum (<[idx := 1]> (replicate n 0))). rewrite IH by lia. lra.
Qed.

(** X6. With [sigma_um <= 0] and a non-empty receptor array the weights
    are one-hot: weight 1 on the first receptor at minimal squared distance
    from the photon, 0 on every other receptor; they sum to 1. *)
Theorem nearest_neighbour_one_hot (px py sigma_um : R) (rx ry : list R) :
  sigma_um <= 0 -> rx <> [] -> length rx = length ry ->
  let d2 := zip_with (fun x y => (x - px) ^ 2 + (y - py) ^ 2) rx ry in
  exists idx m,
    _gaussian_psf_weights px py rx ry sigma_um
      = Ok (<[idx := 1]> (replicate (length rx) 0)) /\
    d2 !! idx = Some m /\
    (forall j v, d2 !! j = Some v -> m <= v) /\
    (forall j v, (j < idx)%nat -> d2 !! j = Some v -> m < v) /\
    np_sum (<[idx := 1]> (replicate (length rx) 0)) = 1.
Proof.
  intros Hs Hne Hlen d2.
  assert (Hd2 : length d2 = length rx) by (unfold d2; rewrite length_zip_with; lia).
  destruct (np_argmin_spec d2) as (idx & m & Harg & Hm & Hle & Hlt).
  { intros Hnil. rewrite Hnil in Hd2. destruct rx; [done | discriminate]. }
  exists idx, m. unfold _gaussian_psf_weights.
  destruct (Rle_dec sigma_um 0); [|lra]. fold d2. rewrite Harg. cbn.
  repeat split; try done.
  apply np_sum_one_hot. apply lookup_lt_Some in Hm. lia.
Qed.

Lemma nearest_neighbour_one_hot_witness :
  exists idx m,
    _gaussian_psf_weights 60 0 [0; 100; 20] [0; 0; 0] 0
      = Ok (<[idx := 1]> (replicate 3 0)) /\
    zip_with (fun x y => (x - 60) ^ 2 + (y - 0) ^ 2) [0; 100; 20] [0; 0; 0] !! idx
      = Some m /\
    (forall j v,
       zip_with (fun x y => (x - 60) ^ 2 + (y - 0) ^ 2) [0; 100; 20] [0; 0; 0] !! j
         = Some v -> m <= v) /\
    (forall j v, (j < idx)%nat ->
       zip_with (fun x y => (x - 60) ^ 2 + (y - 0) ^ 2) [0; 100; 20] [0; 0; 0] !! j
         = Some v -> m < v) /\
    np_sum (<[idx := 1]> (replicate 3 0)) = 1.
Proof.
  apply (nearest_neighbour_one_hot 60 0 0 [0; 100; 20] [0; 0; 0]);
    [lra | discriminate | reflexivity].
Defined.

(** X7. With no receptor, the nearest-neighbour branch raises
    [ValueError] (argmin of an empty array) and the Gaussian branch
    returns the empty weight array. *)
Theorem psf_weights_no_receptor (px py sigma_um : R) :
  _gaussian_psf_weights px py [] [] sigma_um
  = if Rle_dec sigma_um 0 then Err ValueError else Ok [].
Proof.
  unfold _gaussian_psf_weights. destruct (Rle_dec sigma_um 0); [done|].
  cbn. destruct (Rgt_dec 0 0); done.
Qed.

Lemma np_sum_ge_elem (w : list R) (i : nat) (v : R) :
  (forall u, u ∈ w -> 0 <= u) -> w !! i = Some v -> v <= np_sum w.
Proof.
  revert i. induction w as [|u w IH]; intros i Hpos Hi; [done|].
  cbn. fold (np_sum w).
  assert (Hw : 0 <= np_sum w).
  { apply np_sum_nonneg. intros z Hz. apply Hpos. by right. }
  assert (Hu : 0 <= u) by (apply Hpos; left).
  destruct i as [|i]; cbn in Hi.
  - injection Hi as <-. lra.
  - assert (v <= np_sum w); [|lra].
    apply (IH i); [|done]. intros z Hz. apply Hpos. by right.
Qed.

(** X8. With [sigma_um > 0] every weight lies in (0, 1], and a receptor
    that is no farther from the photon than another gets at least the
    other's weight. *)
Theorem gaussian_weights_ordered_by_distance (px py sigma_um : R) (rx ry : list R) :
  0 < sigma_um -> length rx = length ry ->
  exists w,
    _gaussian_psf_weights px py rx ry sigma_um = Ok w /\
    forall i j xi yi xj yj wi wj,
      rx !! i = Some xi -> ry !! i = Some yi ->
      rx !! j = Some xj -> ry !! j = Some yj ->
      w !! i = Some wi -> w !! j = Some wj ->
      (xi - px) ^ 2 + (yi - py) ^ 2 <= (xj - px) ^ 2 + (yj - py) ^ 2 ->
      0 < wj /\ wj <= wi /\ wi <= 1.
Proof.
  intros Hs Hlen. unfold _gaussian_psf_weights.
  destruct (Rle_dec sigma_um 0); [lra|].
  set (g := fun r2 : R => exp (-0.5 * r2 / sigma_um ^ 2)).
  set (r2 := zip_with (fun dx dy => dx * dx + dy * dy) _ _).
  set (w := map g r2).
  assert (Hr2 : forall i xi yi, rx !! i = Some xi -> ry !! i = Some yi ->
                  r2 !! i = Some ((xi - px) ^ 2 + (yi - py) ^ 2)).
  { intros i xi yi Hx Hy. unfold r2.
    rewrite lookup_zip_with, !list_lookup_fmap, Hx, Hy. cbn. f_equal. ring. }
  assert (Hg : forall a b, a <= b -> g b <= g a).
  { intros a b Hab. unfold g.
    assert (Hs2 : 0 < / sigma_um ^ 2) by (apply Rinv_0_lt_compat; nra).
    assert (Hord : -0.5 * b / sigma_um ^ 2 <= -0.5 * a / sigma_um ^ 2).
    { unfold Rdiv. apply Rmult_le_compat_r; lra. }
    destruct Hord as [Hlt | ->]; [left; by apply exp_increasing | lra]. }
  assert (Hwpos : forall u, u ∈ w -> 0 < u).
  { intros u Hu. unfold w in Hu. apply list_elem_of_fmap in Hu as (z & -> & _).
    apply exp_pos. }
  assert (Hcase : w = [] \/ 0 < np_sum w).
  { destruct w as [|u w'] eqn:Hw; [by left|]. right. rewrite <- Hw.
    apply np_sum_pos; [by rewrite Hw|]. rewrite <- Hw in Hwpos. done. }
  destruct (Rgt_dec (np_sum w) 0) as [Hpos|Hnpos].
  - eexists. split; [reflexivity|].
    intros i j xi yi xj yj wi wj Hxi Hyi Hxj Hyj Hwi Hwj Hd.
    rewrite list_lookup_fmap in Hwi, Hwj. unfold w in Hwi, Hwj.
    rewrite list_lookup_fmap, (Hr2 i xi yi) in Hwi by done.
    rewrite list_lookup_fmap, (Hr2 j xj yj) in Hwj by done.
    change (Some (g ((xi - px) ^ 2 + (yi - py) ^ 2) / np_sum w) = Some wi) in Hwi.
    change (Some (g ((xj - px) ^ 2 + (yj - py) ^ 2) / np_sum w) = Some wj) in Hwj.
    injection Hwi as <-. injection Hwj as <-.
    unfold Rgt in Hpos.
    assert (Hi : w !! i = Some (g ((xi - px) ^ 2 + (yi - py) ^ 2))).
    { unfold w. by rewrite list_lookup_fmap, (Hr2 i xi yi). }
    assert (Hsum : g ((xi - px) ^ 2 + (yi - py) ^ 2) <= np_sum w).
    { apply (np_sum_ge_elem w i); [|done]. intros u Hu. left. by apply Hwpos. }
    assert (Hinv : 0 < / np_sum w) by (by apply Rinv_0_lt_compat).
    assert (Hgj : 0 < g ((xj - px) ^ 2 + (yj - py) ^ 2)) by apply exp_pos.
    specialize (Hg _ _ Hd). unfold Rdiv. repeat split.
    + apply Rmult_lt_0_compat; [exact Hgj | exact Hinv].
    + apply Rmult_le_compat_r; [lra | exact Hg].
    + apply (Rmult_le_reg_r (np_sum w)); [done|].
      rewrite Rmult_assoc, Rinv_l, Rmult_1_r, Rmult_1_l by lra. exact Hsum.
  - exists w. split; [reflexivity|].
    destruct Hcase as [Hnil | Hp]; [|unfold Rgt in Hnpos; lra].
    intros i j xi yi xj yj wi wj _ _ _ _ Hwi. rewrite Hnil in Hwi. done.
Qed.

Lemma gaussian_weights_ordered_by_distance_witness :
  exists w,
    _gaussian_psf_weights 10 0 [0; 100] [0; 0] 10 = Ok w /\
    forall i j xi yi xj yj wi wj,
      [0; 100] !! i = Some xi -> [0; 0] !! i = Some yi ->
      [0; 100] !! j = Some xj -> [0; 0] !! j = Some yj ->
      w !! i = Some wi -> w !! j = Some wj ->
      (xi - 10) ^ 2 + (yi - 0) ^ 2 <= (xj - 10) ^ 2 + (yj - 0) ^ 2 ->
      0 < wj /\ wj <= wi /\ wi <= 1.
Proof.
  apply (gaussian_weights_ordered_by_distance 10 0 10 [0; 100] [0; 0]);
    [lra | reflexivity].
Defined.

Lemma one_hot_entries (n idx : nat) (v : R) :
  v ∈ <[idx := 1]> (replicate n 0) -> 0 <= v <= 1.
Proof.
  intros Hv. apply list_elem_of_lookup in Hv as [j Hj].
  destruct (decide (idx = j)) as [<-|Hne].
  - destruct (decide (idx < n)%nat) as [Hlt|Hge].
    + rewrite list_lookup_insert_eq in Hj by (by rewrite length_replicate).
      injection Hj as <-. lra.
    + rewrite list_insert_ge in Hj by (rewrite length_replicate; lia).
      apply lookup_replicate in Hj as [-> _]. lra.
  - rewrite list_lookup_insert_ne in Hj by done.
    apply lookup_replicate in Hj as [-> _]. lra.
Qed.

(** Whatever the branch, the weights are one per receptor and lie in
    [[0, 1]]. *)
Lemma psf_weights_range (px py sigma_um : R) (rx ry w : list R) :
  length rx = length ry ->
  _gaussian_psf_weights px py rx ry sigma_um = Ok w ->
  length w = length rx /\ forall v, v ∈ w -> 0 <= v <= 1.
Proof.
  intros Hlen. unfold _gaussian_psf_weights. destruct (Rle_dec sigma_um 0).
  - destruct (np_argmin _) as [idx|]; [|done]. cbn. intros [= <-].
    split; [by rewrite length_insert, length_replicate|].
    intros v. apply one_hot_entries.
  - set (w0 := map _ (zip_with _ _ _)).
    assert (Hw0 : forall u, u ∈ w0 -> 0 < u).
    { intros u Hu. unfold w0 in Hu. apply list_elem_of_fmap in Hu as (z & -> & _).
      apply exp_pos. }
    assert (Hl0 : length w0 = length rx).
    { unfold w0. rewrite length_map, length_zip_with, !length_map. lia. }
    destruct (Rgt_dec (np_sum w0) 0) as [Hpos|Hnpos]; intros [= <-].
    + split; [by rewrite length_map|]. intros v Hv.
      apply list_elem_of_fmap in Hv as (u & -> & Hu).
      unfold Rgt in Hpos. pose proof (Hw0 u Hu) as Hu0.
      apply list_elem_of_lookup in Hu as [i Hi].
      assert (Hle : u <= np_sum w0).
      { apply (np_sum_ge_elem w0 i); [|done]. intros z Hz. left. by apply Hw0. }
      assert (Hinv : 0 < / np_sum w0) by (by apply Rinv_0_lt_compat).
      unfold Rdiv. split.
      * left. by apply Rmult_lt_0_compat.
      * apply (Rmult_le_reg_r (np_sum w0)); [done|].
        rewrite Rmult_assoc, Rinv_l by lra. lra.
    + split; [done|]. intros v Hv. exfalso. apply Hnpos.
      apply np_sum_pos; [|done]. intros Hnil. rewrite Hnil in Hv.
      by apply not_elem_of_nil in Hv.
Qed.

(** X9. In both branches [_gaussian_psf_weights] returns one weight per
    receptor, every weight lies in [[0, 1]], and for a non-empty receptor
    array the weights sum to 1 (exactly so in exact arithmetic).  On the
    Gaussian branch one receptor is taken within [38 * sigma_um] of the
    photon, so that not every exponential underflows to [0.0]. *)
Theorem psf_weights_are_a_distribution (px py sigma_um : R) (rx ry : list R) :
  rx <> [] -> length rx = length ry ->
  (sigma_um <= 0 \/
   exists i x y, rx !! i = Some x /\ ry !! i = Some y /\
                 (x - px) ^ 2 + (y - py) ^ 2 <= (38 * sigma_um) ^ 2) ->
  exists w,
    _gaussian_psf_weights px py rx ry sigma_um = Ok w /\
    length w = length rx /\
    (forall v, v ∈ w -> 0 <= v <= 1) /\
    np_sum w = 1.
Proof.
  intros Hne Hlen _. destruct (Rle_dec sigma_um 0) as [Hs|Hs].
  - assert (Hd2 : length (zip_with (fun x y => (x - px) ^ 2 + (y - py) ^ 2) rx ry)
                  = length rx) by (rewrite length_zip_with; lia).
    destruct (np_argmin_spec (zip_with (fun x y => (x - px) ^ 2 + (y - py) ^ 2) rx ry))
      as (idx & m & Harg & Hm & _).
    { intros Hnil. rewrite Hnil in Hd2. destruct rx; [done | discriminate]. }
    assert (Hrun : _gaussian_psf_weights px py rx ry sigma_um
                   = Ok (<[idx := 1]> (replicate (length rx) 0))).
    { unfold _gaussian_psf_weights. destruct (Rle_dec sigma_um 0); [|lra].
      by rewrite Harg. }
    eexists. split; [exact Hrun|].
    destruct (psf_weights_range _ _ _ _ _ _ Hlen Hrun) as [Hl Hr].
    repeat split; try done; try apply Hr; try done.
    apply np_sum_one_hot. apply lookup_lt_Some in Hm. lia.
  - unfold _gaussian_psf_weights. destruct (Rle_dec sigma_um 0); [lra|].
    set (w0 := map _ (zip_with _ _ _)).
    assert (Hl0 : length w0 = length rx).
    { unfold w0. rewrite length_map, length_zip_with, !length_map. lia. }
    assert (Hpos : 0 < np_sum w0).
    { apply np_sum_pos.
      - intros Hnil. rewrite Hnil in Hl0. destruct rx; [done | discriminate].
      - intros v Hv. unfold w0 in Hv. apply list_elem_of_fmap in Hv as (z & -> & _).
        apply exp_pos. }
    destruct (Rgt_dec (np_sum w0) 0) as [_|Hn]; [|unfold Rgt in Hn; lra].
    eexists. split; [reflexivity|].
    assert (Hrun : _gaussian_psf_weights px py rx ry sigma_um
                   = Ok (map (fun v => v / np_sum w0) w0)).
    { unfold _gaussian_psf_weights. destruct (Rle_dec sigma_um 0); [lra|].
      fold w0. destruct (Rgt_dec (np_sum w0) 0) as [_|Hn]; [done|].
      unfold Rgt in Hn. lra. }
    destruct (psf_weights_range _ _ _ _ _ _ Hlen Hrun) as [Hl Hr].
    repeat split; try done; try apply Hr; try done.
    rewrite np_sum_map_div. field. lra.
Qed.

Lemma psf_weights_are_a_distribution_witness :
  exists w,
    _gaussian_psf_weights 60 0 [0; 100; 20] [0; 0; 0] 10 = Ok w /\
    length w = 3%nat /\ (forall v, v ∈ w -> 0 <= v <= 1) /\ np_sum w = 1.
Proof.
  apply (psf_weights_are_a_distribution 60 0 10 [0; 100; 20] [0; 0; 0]);
    [discriminate | reflexivity |].
  right. exists 1%nat, 100, 0. repeat split. lra.
Defined.

End PsfExtra.

(** ** Spectral sensitivity: shape of the curve *)

Section ConeExtra.
Import cones.
Local Open Scope R_scope.

Lemma gaussian_one_iff (peak bandwidth lambda_nm : R) :
  bandwidth <> 0 -> (gaussian peak bandwidth lambda_nm = 1 <-> lambda_nm = peak).
Proof.
  intros Hb. unfold gaussian. split.
  - intros He. rewrite <- exp_0 in He. apply exp_inv in He.
    assert (Hq : (lambda_nm - peak) / bandwidth = 0) by nra.
    apply (f_equal (fun v => v * bandwidth)) in Hq.
    replace ((lambda_nm - peak) / bandwidth * bandwidth) with (lambda_nm - peak) in Hq
      by (field; done).
    lra.
  - intros ->. replace (-0.5 * ((peak - peak) / bandwidth) ^ 2) with 0 by (field; done).
    apply exp_0.
Qed.

Lemma gaussian_unimodal (peak bandwidth l1 l2 : R) :
  0 < bandwidth -> Rabs (l1 - peak) <= Rabs (l2 - peak) ->
  gaussian peak bandwidth l2 <= gaussian peak bandwidth l1.
Proof.
  intros Hb Habs. unfold gaussian. apply Rsqr_le_abs_1 in Habs. unfold Rsqr in Habs.
  assert (Hinv : 0 < / bandwidth) by (by apply Rinv_0_lt_compat).
  assert (Hsq : ((l1 - peak) / bandwidth) ^ 2 <= ((l2 - peak) / bandwidth) ^ 2).
  { unfold Rdiv. replace (((l1 - peak) * / bandwidth) ^ 2)
      with ((l1 - peak) * (l1 - peak) * (/ bandwidth * / bandwidth)) by ring.
    replace (((l2 - peak) * / bandwidth) ^ 2)
      with ((l2 - peak) * (l2 - peak) * (/ bandwidth * / bandwidth)) by ring.
    apply Rmult_le_compat_r; [nra | done]. }
  assert (Hord : -0.5 * ((l2 - peak) / bandwidth) ^ 2
                 <= -0.5 * ((l1 - peak) / bandwidth) ^ 2) by lra.
  destruct Hord as [Hlt | ->]; [left; by apply exp_increasing | lra].
Qed.

Lemma cone_parameters (cone_type : string) :
  let mu := dict_get [("L"%string, 560); ("M"%string, 530); ("S"%string, 420)]
              (upper cone_type) 560 in
  let sigma := dict_get [("L"%string, 40); ("M"%string, 40); ("S"%string, 35)]
                 (upper cone_type) 40 in
  (mu = 560 \/ mu = 530 \/ mu = 420) /\ 0 < sigma.
Proof.
  unfold dict_get.
  destruct (String.eqb "L" (upper cone_type)); [split; [auto | lra]|].
  destruct (String.eqb "M" (upper cone_type)); [split; [auto | lra]|].
  destruct (String.eqb "S" (upper cone_type)); split; auto; lra.
Qed.

(** X10. For every subtype string the sensitivity curve is unimodal and
    symmetric about one of the three peaks 560, 530, 420 nm: it equals 1
    exactly at the peak, and a wavelength at least as close to the peak as
    another has at least the other's sensitivity. *)
Theorem cone_sensitivity_unimodal (cone_type : string) :
  exists peak,
    (peak = 560 \/ peak = 530 \/ peak = 420) /\
    (forall lambda_nm, cone_sensitivity_nm lambda_nm cone_type = 1 <-> lambda_nm = peak) /\
    (forall l1 l2, Rabs (l1 - peak) <= Rabs (l2 - peak) ->
       cone_sensitivity_nm l2 cone_type <= cone_sensitivity_nm l1 cone_type).
Proof.
  destruct (cone_parameters cone_type) as [Hmu Hsigma]. cbn zeta in Hmu, Hsigma.
  eexists. split; [exact Hmu|]. split.
  - intros lambda_nm. rewrite cone_sensitivity_nm_unfold. apply gaussian_one_iff. lra.
  - intros l1 l2 Habs. rewrite !cone_sensitivity_nm_unfold. by apply gaussian_unimodal.
Qed.

Lemma upper_ascii_idempotent (c : ascii) : upper_ascii (upper_ascii c) = upper_ascii c.
Proof. by destruct c as [[] [] [] [] [] [] [] []]. Qed.

Lemma upper_idempotent (s : string) : upper (upper s) = upper s.
Proof.
  induction s as [|c s IH]; cbn [upper]; [done|].
  by rewrite upper_ascii_idempotent, IH.
Qed.

(** X11. The subtype is read without regard to letter case: two strings
    with the same upper-case form, and in particular a string and its
    upper-case form, have the same sensitivity at every wavelength. *)
Theorem cone_sensitivity_case_insensitive (lambda_nm : R) (s1 s2 : string) :
  upper s1 = upper s2 ->
  cone_sensitivity_nm lambda_nm s1 = cone_sensitivity_nm lambda_nm s2 /\
  cone_sensitivity_nm lambda_nm (upper s1) = cone_sensitivity_nm lambda_nm s1.
Proof.
  intros Hu. rewrite !cone_sensitivity_nm_unfold, upper_idempotent. by rewrite Hu.
Qed.

Lemma cone_sensitivity_case_insensitive_witness :
  cone_sensitivity_nm 500 "m" = cone_sensitivity_nm 500 "M" /\
  cone_sensitivity_nm 500 (upper "m") = cone_sensitivity_nm 500 "m".
Proof.
  apply (cone_sensitivity_case_insensitive 500 "m" "M"). reflexivity.
Defined.

End ConeExtra.

(** ** The cone builder: results and exceptions *)

Section ConeBuilderExtra.
Import photon photon_driver.
Local Open Scope R_scope.

Lemma for_each_nil {A S : Type} (body : S -> A -> result S) (st : S) :
  for_each body [] st = Ok st.
Proof. done. Qed.

Lemma series_inv_keys (cone_positions : gmap string (list (R * R))) (n : nat)
    (L_series : gmap string (list (list R))) (tkey : string) :
  series_inv cone_positions n L_series ->
  (is_Some (L_series !! tkey) <-> is_Some (cone_positions !! tkey)).
Proof.
  intros Hinv. specialize (Hinv tkey).
  destruct (cone_positions !! tkey) as [pos|].
  - destruct Hinv as (a & -> & _). split; eauto.
  - rewrite Hinv. split; intros [? [=]].
Qed.

Lemma normalized_zero_series (photons_per_L1 : R) (n : nat)
    (cone_positions : gmap string (list (R * R))) :
  normalized photons_per_L1 (zero_series n cone_positions) = zero_series n cone_positions.
Proof.
  apply map_eq. intros tkey. rewrite normalized_lookup.
  case_decide; [|done]. unfold zero_series. rewrite lookup_fmap.
  destruct (cone_positions !! tkey) as [pos|]; [|done]. cbn.
  by rewrite normalize_array_zeros.
Qed.

(** The cone builder with the name bound, a positive window and a
    positive step: the loop cannot fail, so the result is decided by the
    three cone keys. *)
Lemma build_cones_bound_closed (f : R -> string -> R) (photons : list Photon)
    (cone_positions : gmap string (list (R * R))) (T dt t0 sigma_um photons_per_L1 : R) :
  0 < T -> 0 < dt ->
  exists L_series,
    series_inv cone_positions (Z.to_nat (Rceil (T / dt))) L_series /\
    build_L_series_for_cones (Some f) photons cone_positions
      T dt t0 sigma_um photons_per_L1
    = if bool_decide (is_Some (cone_positions !! "S") /\ is_Some (cone_positions !! "M")
                      /\ is_Some (cone_positions !! "L"))
      then Ok (normalized photons_per_L1 L_series)
      else Err KeyError.
Proof.
  intros HT Hdt. pose proof (Rceil_pos T dt HT Hdt) as Hn.
  set (n := Z.to_nat (Rceil (T / dt))).
  pose proof (zero_series_inv cone_positions n) as Hinv0.
  destruct (for_each
              (accumulate_cone_photon (Some f) (default [] (cone_positions !! "S"))
                 (default [] (cone_positions !! "M"))
                 (default [] (cone_positions !! "L")) T dt t0 sigma_um)
              photons (zero_series n cone_positions)) as [L_series|e] eqn:Hloop.
  - pose proof (cone_loop_inv cone_positions n T dt t0 sigma_um ltac:(lra)
                  (Some f) photons _ _ Hinv0 Hloop) as Hinv.
    exists L_series. split; [done|].
    rewrite build_cones_unfold by lra. rewrite bool_decide_false by lia. cbn [andb].
    fold n. rewrite Hloop. cbn [mbind result_bind]. rewrite normalize_all.
    rewrite (bool_decide_ext
               (is_Some (L_series !! "S") /\ is_Some (L_series !! "M")
                /\ is_Some (L_series !! "L"))
               (is_Some (cone_positions !! "S") /\ is_Some (cone_positions !! "M")
                /\ is_Some (cone_positions !! "L"))); [done|].
    by rewrite !(series_inv_keys cone_positions n L_series).
  - exfalso. rewrite (cone_loop_bound cone_positions n) in Hloop by (done || lra).
    destruct (existsb _ _) eqn:Hex; [|done].
    apply existsb_exists in Hex as (w & Hw & Hf).
    apply in_concat_map in Hw as (ph & Hw). apply cone_writes_bin in Hw. subst n.
    rewrite (bin_index_never_fails T dt t0 _ _ HT Hdt Hw) in Hf. done.
Qed.

(** X12. With the sensitivity function bound, [T > 0] and [dt > 0], the
    cone builder returns a dictionary only if 'S', 'M' and 'L' are all
    keys of [cone_positions], whatever the photons; with one of them
    missing and no photon to process it raises [KeyError]. *)
Theorem cone_builder_needs_three_keys (f : R -> string -> R) (photons : list Photon)
    (cone_positions : gmap string (list (R * R))) (T dt t0 sigma_um photons_per_L1 : R) :
  0 < T -> 0 < dt ->
  let keys := is_Some (cone_positions !! "S") /\ is_Some (cone_positions !! "M")
              /\ is_Some (cone_positions !! "L") in
  let run := build_L_series_for_cones (Some f) photons cone_positions
               T dt t0 sigma_um photons_per_L1 in
  (forall out, run = Ok out -> keys) /\
  (~ keys -> photons = [] -> run = Err KeyError).
Proof.
  intros HT Hdt keys run.
  destruct (build_cones_bound_closed f photons cone_positions T dt t0 sigma_um
              photons_per_L1 HT Hdt) as (L_series & _ & Hrun).
  unfold run. rewrite Hrun. split.
  - intros out Hout. by case_bool_decide.
  - intros Hk _. by rewrite bool_decide_false.
Qed.

Lemma cone_builder_needs_three_keys_witness :
  build_L_series_for_cones intended_binding [] (<["L" := [(0, 0)]]> ∅)
    0.1 0.01 0 10 50 = Err KeyError.
Proof.
  apply (cone_builder_needs_three_keys cones.cone_sensitivity_nm []
           (<["L" := [(0, 0)]]> ∅) 0.1 0.01 0 10 50); [lra | lra | | done].
  intros ([a Ha] & _). discriminate.
Defined.

(** X13. Without photons the cone builder returns the all-zero series:
    for each key of [cone_positions] an array of zeros with [ceil(T/dt)]
    rows and one column per receptor.  The normalisation denominator is
    taken non-zero: a zero one makes numpy produce NaN from 0/0, which the
    real-number reading of floats does not have. *)
Theorem cone_builder_no_photons (binding : option (R -> string -> R))
    (cone_positions : gmap string (list (R * R))) (T dt t0 sigma_um photons_per_L1 : R) :
  dt <> 0 -> (0 <= Rceil (T / dt))%Z ->
  is_Some (cone_positions !! "S") -> is_Some (cone_positions !! "M") ->
  is_Some (cone_positions !! "L") -> photons_per_L1 + eps <> 0 ->
  build_L_series_for_cones binding [] cone_positions T dt t0 sigma_um photons_per_L1
  = Ok ((fun pos => replicate (Z.to_nat (Rceil (T / dt))) (replicate (length pos) 0))
        <$> cone_positions).
Proof.
  intros Hdt Hn HS HM HL _. rewrite build_cones_unfold by done.
  rewrite bool_decide_false by lia. cbn [andb]. rewrite for_each_nil.
  cbn [mbind result_bind]. rewrite normalize_all.
  pose proof (zero_series_inv cone_positions (Z.to_nat (Rceil (T / dt)))) as Hinv.
  rewrite bool_decide_true by (by rewrite !(series_inv_keys cone_positions _ _ _ Hinv)).
  rewrite normalized_zero_series. f_equal. unfold zero_series.
  apply map_fmap_ext. intros tkey pos _. by rewrite n_receptors_length.
Qed.

Lemma cone_builder_no_photons_witness :
  let cone_positions : gmap string (list (R * R)) :=
    <["S" := []]> (<["M" := []]> (<["L" := [(0, 0)]]> ∅)) in
  build_L_series_for_cones module_binding [] cone_positions 0.1 0.01 0 10 50
  = Ok ((fun pos => replicate (Z.to_nat (Rceil (0.1 / 0.01))) (replicate (length pos) 0))
        <$> cone_positions).
Proof.
  intros cone_positions.
  apply (cone_builder_no_photons module_binding cone_positions 0.1 0.01 0 10 50);
    [lra | | by eexists | by eexists | by eexists | unfold eps; lra].
  replace (Rceil (0.1 / 0.01)) with 10%Z; [lia|].
  symmetry. apply Rceil_unique. lra.
Defined.

(** X14. With the globals the module's own statements leave (the bare
    name [cone_sensitivity_nm] unbound), the cone builder raises
    [NameError] as soon as one photon passes the time and position
    filters; when none does, the photons are ignored and the result is the
    one for the empty list. *)
Theorem cone_builder_as_written (photons : list Photon)
    (cone_positions : gmap string (list (R * R))) (T dt t0 sigma_um photons_per_L1 : R) :
  0 < T -> 0 < dt ->
  (Exists (fun ph => is_Some (retained T dt t0 ph)) photons ->
   build_L_series_for_cones module_binding photons cone_positions
     T dt t0 sigma_um photons_per_L1 = Err NameError) /\
  (Forall (fun ph => retained T dt t0 ph = None) photons ->
   build_L_series_for_cones module_binding photons cone_positions
     T dt t0 sigma_um photons_per_L1
   = build_L_series_for_cones module_binding [] cone_positions
       T dt t0 sigma_um photons_per_L1).
Proof.
  intros HT Hdt. pose proof (Rceil_pos T dt HT Hdt) as Hn.
  rewrite !build_cones_unfold by lra. rewrite bool_decide_false by lia. cbn [andb].
  unfold module_binding. rewrite !cone_loop_unbound by lra. split.
  - intros Hex. replace (existsb _ photons) with true; [done|].
    symmetry. apply existsb_exists. apply Exists_exists in Hex as (ph & Hin & Hr).
    exists ph. split; [by apply list_elem_of_In | by apply bool_decide_eq_true].
  - intros Hall. replace (existsb _ photons) with false; [done|].
    symmetry. apply not_true_is_false. intros Hex.
    apply existsb_exists in Hex as (ph & Hin & Hr).
    apply bool_decide_eq_true in Hr. rewrite Forall_forall in Hall.
    rewrite (Hall ph) in Hr by (by apply list_elem_of_In). by destruct Hr.
Qed.

Lemma cone_builder_as_written_witness :
  let ph := {| lambda_nm := 560; x := Some 0; y := Some 0; t := Some 0.01 |} in
  let cone_positions : gmap string (list (R * R)) :=
    <["S" := []]> (<["M" := []]> (<["L" := [(0, 0)]]> ∅)) in
  build_L_series_for_cones module_binding [ph] cone_positions 0.1 0.01 0 10 50
  = Err NameError.
Proof.
  intros ph cone_positions.
  apply (cone_builder_as_written [ph] cone_positions 0.1 0.01 0 10 50); [lra | lra |].
  apply Exists_cons_hd. unfold retained, ph. cbn [t x y default from_option].
  unfold Datatypes.id. rewrite time_bin_index_in_window by lra. by eexists.
Defined.

(** X15. Both builders compute the number of steps before they look at
    anything else: [dt = 0] raises [ZeroDivisionError]; a negative
    [ceil(T/dt)] raises [ValueError] in the rod builder, and in the cone
    builder as soon as [cone_positions] has a key. *)
Theorem builders_reject_bad_steps (binding : option (R -> string -> R))
    (photons : list Photon) (cone_positions : gmap string (list (R * R)))
    (rod_positions : list (R * R)) (T dt t0 sigma_um ppl_cones ppl_rods : R) :
  (dt = 0 ->
   build_L_series_for_cones binding photons cone_positions T dt t0 sigma_um ppl_cones
     = Err ZeroDivisionError /\
   build_L_series_for_rods photons rod_positions T dt t0 sigma_um ppl_rods
     = Err ZeroDivisionError) /\
  (dt <> 0 -> (Rceil (T / dt) < 0)%Z ->
   build_L_series_for_rods photons rod_positions T dt t0 sigma_um ppl_rods
     = Err ValueError /\
   (cone_positions <> ∅ ->
    build_L_series_for_cones binding photons cone_positions T dt t0 sigma_um ppl_cones
      = Err ValueError)).
Proof.
  split.
  - intros ->. by rewrite build_cones_zero_dt, build_rods_zero_dt.
  - intros Hdt Hn. split.
    + rewrite build_rods_unfold by done. by rewrite bool_decide_true.
    + intros Hne. rewrite build_cones_unfold by done.
      by rewrite bool_decide_true, (bool_decide_false (cone_positions = ∅)).
Qed.

End ConeBuilderExtra.

(** ** The rod builder: results, monotonicity, dark bins *)

Section RodBuilderExtra.
Import photon photon_driver.
Local Open Scope R_scope.

Lemma rod_writes_shape (rod_positions : list (R * R)) (T dt t0 sigma_um : R)
    (ph : Photon) (w : Z * list R) :
  rod_positions <> [] ->
  w ∈ rod_writes rod_positions T dt t0 sigma_um ph ->
  length w.2 = length rod_positions /\ forall v, v ∈ w.2 -> 0 <= v <= 1.
Proof.
  intros Hne. unfold rod_writes.
  destruct (retained T dt t0 ph) as [[[k px] py]|]; [|by intros ?%not_elem_of_nil].
  intros ->%list_elem_of_singleton. cbn [snd].
  destruct (psf_weights_ok px py sigma_um rod_positions Hne) as [Hrun Hlen].
  apply psf_weights_range in Hrun; [|by rewrite !length_map].
  rewrite length_map in Hrun. done.
Qed.

Lemma in_concat_map_elem {A B : Type} (g : A -> list B) (xs : list A) (w : B) :
  In w (concat (map g xs)) -> exists x0, x0 ∈ xs /\ w ∈ g x0.
Proof.
  intros (ws & Hws & Hw)%in_concat. apply in_map_iff in Hws as (x0 & <- & Hx).
  exists x0. split; by apply list_elem_of_In.
Qed.

Lemma foldl_radd_shape (n N : nat) (ws : list (Z * list R)) (a : list (list R)) :
  Forall (fun w => length w.2 = N) ws -> has_shape n N a ->
  has_shape n N (foldl (fun a w => radd w.1 w.2 a) a ws).
Proof.
  revert a. induction ws as [|w ws IH]; intros a Hws Ha; cbn; [done|].
  inversion Hws; subst. apply IH; [done|]. by apply radd_shape.
Qed.

(** The rod builder for a positive window and step and at least one
    receptor: the loop cannot fail, the result is the clipped, scaled fold
    of the row updates. *)
Lemma build_rods_closed (photons : list Photon) (rod_positions : list (R * R))
    (T dt t0 sigma_um photons_per_L1 : R) :
  0 < T -> 0 < dt -> rod_positions <> [] ->
  build_L_series_for_rods photons rod_positions T dt t0 sigma_um photons_per_L1
  = Ok (np_clip2
          (np_div2
             (foldl (fun a w => radd w.1 w.2 a)
                (replicate (Z.to_nat (Rceil (T / dt)))
                   (replicate (length rod_positions) 0))
                (concat (map (rod_writes rod_positions T dt t0 sigma_um) photons)))
             (photons_per_L1 + eps)) 0 1).
Proof.
  intros HT Hdt Hne. pose proof (Rceil_pos T dt HT Hdt) as Hn.
  rewrite build_rods_unfold by lra. rewrite bool_decide_false by lia. cbn zeta.
  rewrite n_receptors_length. rewrite decide_False by (by destruct rod_positions).
  rewrite (rod_loop_closed rod_positions (Z.to_nat (Rceil (T / dt))))
    by (done || lra || apply length_replicate).
  destruct (existsb _ _) eqn:Hex; [|done]. exfalso.
  apply existsb_exists in Hex as (w & Hw & Hf).
  apply in_concat_map in Hw as (ph & Hw). apply rod_writes_bin in Hw.
  rewrite (bin_index_never_fails T dt t0 _ _ HT Hdt Hw) in Hf. done.
Qed.

(** For a positive window and step the rod builder of the real-number
    reading returns, with the shape it allocated. *)
Lemma build_rods_shape (photons : list Photon) (rod_positions : list (R * R))
    (T dt t0 sigma_um photons_per_L1 : R) :
  0 < T -> 0 < dt ->
  exists Lr,
    build_L_series_for_rods photons rod_positions T dt t0 sigma_um photons_per_L1 = Ok Lr
    /\ has_shape (Z.to_nat (Rceil (T / dt))) (length rod_positions) Lr.
Proof.
  intros HT Hdt. pose proof (Rceil_pos T dt HT Hdt) as Hn.
  destruct rod_positions as [|p pos] eqn:Hpos.
  - rewrite build_rods_unfold by lra. rewrite bool_decide_false by lia. cbn.
    eexists. split; [done|]. apply zeros_shape.
  - rewrite <- Hpos. rewrite build_rods_closed by (done || by rewrite Hpos).
    eexists. split; [done|]. unfold np_clip2, np_div2.
    do 2 apply map_map_shape. apply foldl_radd_shape; [|apply zeros_shape].
    apply Forall_forall. intros w Hw%list_elem_of_In.
    apply in_concat_map in Hw as (ph & Hw).
    apply rod_writes_shape in Hw; [tauto | by rewrite Hpos].
Qed.

(** X16. For [T > 0] and [dt > 0], every array the rod builder returns
    has [ceil(T/dt)] rows and one column per rod. *)
Theorem rod_builder_returns_shape (photons : list Photon) (rod_positions : list (R * R))
    (T dt t0 sigma_um photons_per_L1 : R) (Lr : list (list R)) :
  0 < T -> 0 < dt ->
  build_L_series_for_rods photons rod_positions T dt t0 sigma_um photons_per_L1 = Ok Lr ->
  has_shape (Z.to_nat (Rceil (T / dt))) (length rod_positions) Lr.
Proof.
  intros HT Hdt Hrun.
  destruct (build_rods_shape photons rod_positions T dt t0 sigma_um photons_per_L1
              HT Hdt) as (Lr' & Hrun' & Hshape).
  rewrite Hrun in Hrun'. by injection Hrun' as <-.
Qed.

Lemma rod_builder_returns_shape_witness :
  let ph := {| lambda_nm := 500; x := Some 10; y := Some 0; t := Some 0.01 |} in
  exists Lr,
    build_L_series_for_rods [ph] [(0, 0); (100, 0)] 0.1 0.01 0 10 10 = Ok Lr
    /\ has_shape (Z.to_nat (Rceil (0.1 / 0.01))) 2 Lr.
Proof.
  intros ph.
  destruct (build_rods_shape [ph] [(0, 0); (100, 0)] 0.1 0.01 0 10 10)
    as (Lr & Hrun & _); [lra | lra |].
  exists Lr. split; [exact Hrun|].
  apply (rod_builder_returns_shape [ph] [(0, 0); (100, 0)] 0.1 0.01 0 10 10 Lr);
    [lra | lra | exact Hrun].
Defined.

Lemma clip_zero (c : R) : clip 0 1 (0 / c) = 0.
Proof.
  unfold Rdiv. rewrite Rmult_0_l. unfold clip, Rmin, Rmax.
  destruct (Rle_dec 0 0); [|lra]. destruct (Rle_dec 1 0); lra.
Qed.

Lemma rod_builder_zero_output_aux (photons : list Photon)
    (T dt t0 sigma_um photons_per_L1 : R) :
  0 < T -> 0 < dt ->
  build_L_series_for_rods photons [] T dt t0 sigma_um photons_per_L1
  = Ok (replicate (Z.to_nat (Rceil (T / dt))) []).
Proof.
  intros HT Hdt. pose proof (Rceil_pos T dt HT Hdt) as Hn.
  rewrite build_rods_unfold by lra. by rewrite bool_decide_false by lia.
Qed.

(** X17. Without rods, or without photons and with a non-zero
    normalisation denominator, the rod builder returns the all-zero array
    of [ceil(T/dt)] rows and one column per rod; with no rod neither the
    photons nor the denominator are looked at. *)
Theorem rod_builder_zero_output (photons : list Photon) (rod_positions : list (R * R))
    (T dt t0 sigma_um photons_per_L1 : R) :
  dt <> 0 -> (0 <= Rceil (T / dt))%Z ->
  rod_positions = [] \/ (photons = [] /\ photons_per_L1 + eps <> 0) ->
  build_L_series_for_rods photons rod_positions T dt t0 sigma_um photons_per_L1
  = Ok (replicate (Z.to_nat (Rceil (T / dt))) (replicate (length rod_positions) 0)).
Proof.
  intros Hdt Hn Hcase. rewrite build_rods_unfold by done.
  rewrite bool_decide_false by lia. cbn zeta. rewrite n_receptors_length.
  case_decide as HN; [done|].
  destruct Hcase as [-> | [-> _]]; [done|].
  cbn [for_each mbind result_bind]. f_equal.
  unfold np_clip2, np_div2. rewrite !fmap_replicate. by rewrite clip_zero.
Qed.

Lemma rod_builder_zero_output_witness :
  let ph := {| lambda_nm := 500; x := Some 10; y := Some 0; t := Some 0.01 |} in
  build_L_series_for_rods [ph] [] 0.1 0.01 0 10 10
  = Ok (replicate (Z.to_nat (Rceil (0.1 / 0.01))) (replicate 0 0)).
Proof.
  intros ph.
  apply (rod_builder_zero_output [ph] [] 0.1 0.01 0 10 10); [lra | | by left].
  replace (Rceil (0.1 / 0.01)) with 10%Z; [lia|].
  symmetry. apply Rceil_unique. lra.
Defined.

Lemma array_le_refl (a : list (list R)) : array_le a a.
Proof.
  unfold array_le. apply Forall_Forall2_diag, Forall_forall. intros row _.
  apply Forall_Forall2_diag, Forall_forall. intros v _. lra.
Qed.

Lemma row_le_add (row v : list R) :
  length row = length v -> (forall u, u ∈ v -> 0 <= u) ->
  Forall2 Rle row (zip_with Rplus row v).
Proof.
  revert v. induction row as [|r row IH]; intros [|u v] Hlen Hpos; cbn; try done.
  constructor.
  - assert (0 <= u) by (apply Hpos; left). lra.
  - apply IH; [by injection Hlen|]. intros z Hz. apply Hpos. by right.
Qed.

Lemma radd_increases (n N : nat) (k : Z) (v : list R) (a : list (list R)) :
  has_shape n N a -> length v = N -> (forall u, u ∈ v -> 0 <= u) ->
  array_le a (radd k v a).
Proof.
  intros [_ Hrows] Hv Hpos. unfold radd, array_le.
  destruct (np_index (length a) k) as [i|]; [|apply array_le_refl].
  apply Forall2_alter_r; [apply array_le_refl|].
  intros row row' Hrow Hrow' _. rewrite Hrow in Hrow'. injection Hrow' as <-.
  apply row_le_add; [|done].
  rewrite Hv. apply Hrows. apply list_elem_of_lookup. eauto.
Qed.

Lemma scale_clip_monotone (c : R) (a b : list (list R)) :
  0 < c -> array_le a b ->
  array_le (np_clip2 (np_div2 a c) 0 1) (np_clip2 (np_div2 b c) 0 1).
Proof.
  intros Hc Hab. unfold array_le, np_clip2, np_div2.
  apply Forall2_fmap, Forall2_fmap.
  eapply Forall2_impl; [exact Hab|]. intros r1 r2 Hr. cbn.
  apply Forall2_fmap, Forall2_fmap.
  eapply Forall2_impl; [exact Hr|]. intros u1 u2 Hu. cbn.
  assert (Hd : u1 / c <= u2 / c).
  { unfold Rdiv. apply Rmult_le_compat_r; [|done]. left. by apply Rinv_0_lt_compat. }
  unfold clip. apply Rle_min_compat_l. by apply Rle_max_compat_l.
Qed.

(** Both runs of the real-number reading return, and the one with the
    extra photon dominates. *)
Lemma rod_drive_monotone_closed (before after : list Photon) (ph : Photon)
    (rod_positions : list (R * R)) (T dt t0 sigma_um photons_per_L1 : R) :
  0 < T -> 0 < dt -> 0 < photons_per_L1 + eps ->
  exists small big,
    build_L_series_for_rods (before ++ after) rod_positions
      T dt t0 sigma_um photons_per_L1 = Ok small /\
    build_L_series_for_rods (before ++ ph :: after) rod_positions
      T dt t0 sigma_um photons_per_L1 = Ok big /\
    array_le small big.
Proof.
  intros HT Hdt Hc. destruct rod_positions as [|p pos] eqn:Hpos.
  { rewrite !rod_builder_zero_output_aux by lra.
    do 2 eexists. split; [done|]. split; [done|]. apply array_le_refl. }
  rewrite <- Hpos. assert (Hne : rod_positions <> []) by (by rewrite Hpos).
  rewrite !build_rods_closed by done.
  do 2 eexists. split; [done|]. split; [done|].
  apply scale_clip_monotone; [done|].
  set (writes := rod_writes rod_positions T dt t0 sigma_um).
  set (step := fun (a : list (list R)) (w : Z * list R) => radd w.1 w.2 a).
  set (zeros := replicate _ _).
  assert (Hperm : concat (map writes (before ++ ph :: after))
                  ≡ₚ concat (map writes (before ++ after)) ++ writes ph).
  { rewrite !map_app, !concat_app. cbn [map concat].
    rewrite <- (assoc app). apply Permutation_app_head, Permutation_app_comm. }
  rewrite (foldl_pure_perm step (fun a w1 w2 => radd_comm _ _ _ _ a) _ _ zeros Hperm).
  rewrite foldl_app.
  assert (Hshape : has_shape (Z.to_nat (Rceil (T / dt))) (length rod_positions)
                     (foldl step zeros (concat (map writes (before ++ after))))).
  { apply foldl_radd_shape; [|apply zeros_shape].
    apply Forall_forall. intros w Hw%list_elem_of_In.
    apply in_concat_map in Hw as (ph' & Hw).
    by apply rod_writes_shape in Hw as [Hw _]. }
  revert Hshape. generalize (foldl step zeros (concat (map writes (before ++ after)))).
  intros a Ha. unfold writes, rod_writes.
  destruct (retained T dt t0 ph) as [[[k px] py]|]; [|apply array_le_refl].
  cbn [foldl]. unfold step. cbn [fst snd].
  destruct (psf_weights_ok px py sigma_um rod_positions Hne) as [Hrun Hlen].
  apply psf_weights_range in Hrun as [_ Hrange]; [|by rewrite !length_map].
  eapply radd_increases; [exact Ha | exact Hlen |].
  intros u Hu. by apply Hrange.
Qed.

(** X18. More light never lowers the rod drive: for [T > 0], [dt > 0] and
    a positive normalisation denominator, when the builder returns both
    without and with one more photon, put anywhere in the list, every entry
    of the array with the photon is at least the entry without it. *)
Theorem rod_drive_monotone_in_photons (before after : list Photon) (ph : Photon)
    (rod_positions : list (R * R)) (T dt t0 sigma_um photons_per_L1 : R)
    (small big : list (list R)) :
  0 < T -> 0 < dt -> 0 < photons_per_L1 + eps ->
  build_L_series_for_rods (before ++ after) rod_positions
    T dt t0 sigma_um photons_per_L1 = Ok small ->
  build_L_series_for_rods (before ++ ph :: after) rod_positions
    T dt t0 sigma_um photons_per_L1 = Ok big ->
  array_le small big.
Proof.
  intros HT Hdt Hc Hsmall Hbig.
  destruct (rod_drive_monotone_closed before after ph rod_positions T dt t0 sigma_um
              photons_per_L1 HT Hdt Hc) as (small' & big' & Hs & Hb & Hle).
  rewrite Hsmall in Hs. rewrite Hbig in Hb.
  injection Hs as <-. by injection Hb as <-.
Qed.

Lemma rod_drive_monotone_in_photons_witness :
  let ph := {| lambda_nm := 500; x := Some 10; y := Some 0; t := Some 0.01 |} in
  exists small big,
    build_L_series_for_rods ([] ++ []) [(0, 0); (100, 0)] 0.1 0.01 0 10 10 = Ok small /\
    build_L_series_for_rods ([] ++ ph :: []) [(0, 0); (100, 0)] 0.1 0.01 0 10 10 = Ok big /\
    array_le small big.
Proof.
  intros ph.
  assert (Hc : 0 < 10 + eps) by (unfold eps; lra).
  destruct (rod_drive_monotone_closed [] [] ph [(0, 0); (100, 0)] 0.1 0.01 0 10 10)
    as (small & big & Hs & Hb & _); [lra | lra | exact Hc |].
  exists small, big. split; [exact Hs|]. split; [exact Hb|].
  apply (rod_drive_monotone_in_photons [] [] ph [(0, 0); (100, 0)] 0.1 0.01 0 10 10
           small big); [lra | lra | exact Hc | exact Hs | exact Hb].
Defined.

Lemma radd_other_row (k : Z) (v : list R) (a : list (list R)) (j : nat) :
  (0 <= k)%Z -> k <> Z.of_nat j -> radd k v a !! j = a !! j.
Proof.
  intros Hk Hne. unfold radd, np_index.
  case_decide as H1; [|case_decide as H2; [lia | done]].
  apply list_lookup_alter_ne. lia.
Qed.

Lemma foldl_radd_other_rows (ws : list (Z * list R)) (a : list (list R)) (j : nat) :
  Forall (fun w => (0 <= w.1)%Z /\ w.1 <> Z.of_nat j) ws ->
  foldl (fun a w => radd w.1 w.2 a) a ws !! j = a !! j.
Proof.
  revert a. induction ws as [|w ws IH]; intros a Hws; cbn; [done|].
  inversion Hws as [|? ? [Hk Hne] Hrest]; subst.
  rewrite IH by done. by apply radd_other_row.
Qed.

(** The run of the real-number reading returns, and row [j] is the row
    of zeros it was allocated as. *)
Lemma rod_dark_bin_closed (photons : list Photon)
    (rod_positions : list (R * R)) (T dt t0 sigma_um photons_per_L1 : R) (j : nat) :
  0 < T -> 0 < dt ->
  (j < Z.to_nat (Rceil (T / dt)))%nat ->
  (forall ph k px py, ph ∈ photons -> retained T dt t0 ph = Some (k, px, py) ->
                      k <> Z.of_nat j) ->
  exists Lr,
    build_L_series_for_rods photons rod_positions T dt t0 sigma_um photons_per_L1 = Ok Lr
    /\ Lr !! j = Some (replicate (length rod_positions) 0).
Proof.
  intros HT Hdt Hj Hdark. destruct rod_positions as [|p pos] eqn:Hpos.
  { rewrite rod_builder_zero_output_aux by lra. eexists. split; [done|].
    by apply lookup_replicate_2. }
  rewrite <- Hpos. assert (Hne : rod_positions <> []) by (by rewrite Hpos).
  rewrite build_rods_closed by done. eexists. split; [done|].
  unfold np_clip2, np_div2. rewrite !list_lookup_fmap.
  rewrite foldl_radd_other_rows.
  - rewrite lookup_replicate_2 by done. cbn. f_equal.
    rewrite !fmap_replicate. by rewrite clip_zero.
  - apply Forall_forall. intros w Hw%list_elem_of_In.
    apply in_concat_map_elem in Hw as (ph & Hph & Hw).
    pose proof (rod_writes_bin _ _ _ _ _ _ _ Hw) as Hbin.
    apply bin_index_valid in Hbin as [Hk0 _]; [|done..]. split; [done|].
    unfold rod_writes in Hw.
    destruct (retained T dt t0 ph) as [[[k px] py]|] eqn:Hr;
      [|by apply not_elem_of_nil in Hw].
    apply list_elem_of_singleton in Hw as ->. cbn [fst]. by eapply Hdark.
Qed.

(** X19. A time bin that no retained photon falls into stays dark: for
    [T > 0], [dt > 0] and a non-zero normalisation denominator, if no
    photon that passes the filters has bin index [j], row [j] of every
    array the rod builder returns is all zeros. *)
Theorem rod_bin_without_photon_is_dark (photons : list Photon)
    (rod_positions : list (R * R)) (T dt t0 sigma_um photons_per_L1 : R) (j : nat)
    (Lr : list (list R)) :
  0 < T -> 0 < dt -> photons_per_L1 + eps <> 0 ->
  (j < Z.to_nat (Rceil (T / dt)))%nat ->
  (forall ph k px py, ph ∈ photons -> retained T dt t0 ph = Some (k, px, py) ->
                      k <> Z.of_nat j) ->
  build_L_series_for_rods photons rod_positions T dt t0 sigma_um photons_per_L1 = Ok Lr ->
  Lr !! j = Some (replicate (length rod_positions) 0).
Proof.
  intros HT Hdt _ Hj Hdark Hrun.
  destruct (rod_dark_bin_closed photons rod_positions T dt t0 sigma_um photons_per_L1 j
              HT Hdt Hj Hdark) as (Lr' & Hrun' & Hrow).
  rewrite Hrun in Hrun'. by injection Hrun' as <-.
Qed.

Lemma rod_bin_without_photon_is_dark_witness :
  let ph := {| lambda_nm := 500; x := Some 10; y := Some 0; t := None |} in
  exists Lr,
    build_L_series_for_rods [ph] [(0, 0); (100, 0)] 0.1 0.01 0 10 10 = Ok Lr
    /\ Lr !! 3%nat = Some (replicate 2 0).
Proof.
  intros ph.
  assert (Hn : Rceil (0.1 / 0.01) = 10%Z) by (apply Rceil_unique; lra).
  assert (Hdark : forall ph' k px py, ph' ∈ [ph] ->
             retained 0.1 0.01 0 ph' = Some (k, px, py) -> k <> Z.of_nat 3).
  { intros ph' k px py Hin%list_elem_of_singleton Hr. subst ph'.
    apply retained_bin in Hr. unfold ph in Hr. cbn [t default from_option] in Hr.
    rewrite time_bin_index_in_window in Hr by lra. injection Hr as <-.
    replace (Rfloor ((0 - 0) / 0.01)) with 0%Z; [lia|].
    symmetry. apply Rfloor_unique. lra. }
  assert (Hj : (3 < Z.to_nat (Rceil (0.1 / 0.01)))%nat) by (rewrite Hn; lia).
  assert (Hc : 10 + eps <> 0) by (unfold eps; lra).
  destruct (rod_dark_bin_closed [ph] [(0, 0); (100, 0)] 0.1 0.01 0 10 10 3)
    as (Lr & Hrun & _); [lra | lra | exact Hj | exact Hdark |].
  exists Lr. split; [exact Hrun|].
  apply (rod_bin_without_photon_is_dark [ph] [(0, 0); (100, 0)] 0.1 0.01 0 10 10 3 Lr);
    [lra | lra | exact Hc | exact Hj | exact Hdark | exact Hrun].
Defined.

End RodBuilderExtra.

(** ** Hexagonal patches: exceptions, centroid, content *)

Section HexPatchExtra.
Import hexagonal_layer.
Local Open Scope R_scope.

Variable create_hex_grid : Z -> Z -> R -> list (R * R).
Variable rng_normal : option Z -> R -> nat -> nat -> R * R.

(** X20. With [create_hex_grid] read as a function that returns its
    points for all arguments, and with a seed the random generator
    accepts ([None] or a non-negative integer) whenever jitter is drawn,
    [make_hex_circular_patch] raises only [ZeroDivisionError], and exactly
    for a positive radius with a zero pitch; a radius [<= 0] returns the
    empty patch even when the pitch is zero. *)
Theorem hex_patch_error_iff (radius_um pitch_um jitter_um : R)
    (seed : option Z) (center : R * R) (e : exn) :
  (jitter_um <= 0 \/ forall s, seed = Some s -> (0 <= s)%Z) ->
  (make_hex_circular_patch create_hex_grid rng_normal
     radius_um pitch_um jitter_um seed center = Err e
   <-> e = ZeroDivisionError /\ 0 < radius_um /\ pitch_um = 0).
Proof.
  intros _.
  unfold make_hex_circular_patch, grid_dims, py_div. cbn zeta.
  destruct (Rle_dec radius_um 0) as [Hr|Hr].
  - split; [done|]. intros (_ & Hpos & _). lra.
  - destruct (Req_dec_T pitch_um 0) as [Hp|Hp]; cbn.
    + split; [intros [= <-]; repeat split; [lra | done] | by intros (-> & _)].
    + split; [done|]. by intros (_ & _ & Hz).
Qed.

Lemma np_sum_map_minus (l : list R) (m : R) :
  np_sum (map (fun v => v - m) l) = np_sum l - INR (length l) * m.
Proof.
  induction l as [|v l IH]; [cbn; lra|].
  cbn [map np_sum foldr length]. fold (np_sum (map (fun v => v - m) l)).
  fold (np_sum l). rewrite IH, S_INR. lra.
Qed.

Lemma np_mean_centered (l : list R) :
  l <> [] -> np_mean (map (fun v => v - np_mean l) l) = 0.
Proof.
  intros Hne. unfold np_mean at 1. rewrite np_sum_map_minus, length_map.
  unfold np_mean. assert (Hn : INR (length l) <> 0).
  { apply not_0_INR. by destruct l. }
  field. done.
Qed.

(** X21. Recentring puts the centroid at the origin: after the two
    mean subtractions both coordinate means of a non-empty point set are
    zero (in exact arithmetic), and the number of points is unchanged. *)
Theorem recenter_centroid_at_origin (coords : list (R * R)) :
  coords <> [] ->
  np_mean (map fst (recenter coords)) = 0 /\
  np_mean (map snd (recenter coords)) = 0 /\
  length (recenter coords) = length coords.
Proof.
  intros Hne. unfold recenter. cbn zeta.
  rewrite !map_map. cbn [fst snd]. repeat split.
  - rewrite <- (map_map fst (fun v => v - np_mean (map fst coords))).
    apply np_mean_centered. by destruct coords.
  - erewrite (map_ext (fun p : R * R => p.2 - _)); [|intros p; reflexivity].
    rewrite <- (map_map snd (fun v => v - np_mean (map snd coords))).
    apply np_mean_centered. by destruct coords.
  - by rewrite !length_map.
Qed.

Lemma recenter_centroid_at_origin_witness :
  np_mean (map fst (recenter [(1, 2); (3, 6)])) = 0 /\
  np_mean (map snd (recenter [(1, 2); (3, 6)])) = 0 /\
  length (recenter [(1, 2); (3, 6)]) = 2%nat.
Proof.
  apply (recenter_centroid_at_origin [(1, 2); (3, 6)]). discriminate.
Defined.

Lemma make_hex_circular_patch_run (radius_um pitch_um jitter_um : R)
    (seed : option Z) (center : R * R) :
  0 < radius_um -> pitch_um <> 0 ->
  exists nx ny,
    grid_dims radius_um pitch_um = Ok (nx, ny) /\
    make_hex_circular_patch create_hex_grid rng_normal
      radius_um pitch_um jitter_um seed center
    = Ok {| radius_um := radius_um; pitch_um := pitch_um; jitter_um := jitter_um;
            seed := seed; center := center;
            coords :=
              radial_sort
                (translate center
                   (add_jitter rng_normal jitter_um seed
                      (circular_mask radius_um
                         (recenter (create_hex_grid nx ny pitch_um))))) |}.
Proof.
  intros Hr Hp. destruct (grid_dims_nonzero radius_um pitch_um Hp) as [[nx ny] Hd].
  exists nx, ny. split; [done|]. unfold make_hex_circular_patch.
  destruct (Rle_dec radius_um 0); [lra|]. by rewrite Hd.
Qed.

(** X22. For a positive pitch and without jitter the patch holds
    exactly the recentred grid points that lie within [radius_um] of the
    origin, each translated by [center], with their multiplicities: no
    point is lost, added or moved otherwise. *)
Theorem hex_patch_content_without_jitter (radius_um pitch_um jitter_um : R)
    (seed : option Z) (center : R * R) :
  0 < radius_um -> 0 < pitch_um -> jitter_um <= 0 ->
  exists nx ny patch,
    grid_dims radius_um pitch_um = Ok (nx, ny) /\
    make_hex_circular_patch create_hex_grid rng_normal
      radius_um pitch_um jitter_um seed center = Ok patch /\
    coords patch
      ≡ₚ translate center
           (circular_mask radius_um (recenter (create_hex_grid nx ny pitch_um))) /\
    forall q, q ∈ recenter (create_hex_grid nx ny pitch_um) ->
      (q.1 ^ 2 + q.2 ^ 2 <= radius_um ^ 2
       <-> (q.1 + center.1, q.2 + center.2) ∈ coords patch).
Proof.
  intros Hr Hp Hj.
  destruct (make_hex_circular_patch_run radius_um pitch_um jitter_um seed center Hr
              ltac:(lra)) as (nx & ny & Hd & Hrun).
  exists nx, ny. eexists. split; [done|]. split; [exact Hrun|]. cbn [coords].
  assert (Hperm : radial_sort
                    (translate center
                       (add_jitter rng_normal jitter_um seed
                          (circular_mask radius_um
                             (recenter (create_hex_grid nx ny pitch_um)))))
                  ≡ₚ translate center
                       (circular_mask radius_um
                          (recenter (create_hex_grid nx ny pitch_um)))).
  { rewrite radial_sort_perm. unfold add_jitter.
    destruct (Rlt_dec 0 jitter_um); [lra | done]. }
  split; [exact Hperm|]. intros q Hq. rewrite Hperm. unfold translate. split.
  - intros Hin. apply list_elem_of_fmap. exists q. split; [done|].
    unfold circular_mask. cbn zeta. apply list_elem_of_In, filter_In.
    split; [by apply list_elem_of_In | by apply bool_decide_eq_true].
  - intros Hin. apply list_elem_of_fmap in Hin as (q' & Heq & Hq').
    apply circular_mask_in in Hq'. injection Heq as H1 H2.
    assert (q.1 = q'.1) by lra. assert (q.2 = q'.2) by lra.
    destruct q, q'; cbn in *; subst. done.
Qed.

Lemma filter_length_bound {A : Type} (f : A -> bool) (l : list A) :
  (length (List.filter f l) <= length l)%nat.
Proof.
  induction l as [|a l IH]; cbn; [done|]. destruct (f a); cbn; lia.
Qed.

(** X23. Jitter moves points but neither adds nor removes any: for a
    positive pitch, every jitter and a seed the random generator accepts
    ([None] or a non-negative integer) whenever jitter is drawn, the patch
    has as many points as the masked, recentred grid, and at most as many
    as the generated grid. *)
Theorem hex_patch_point_count (radius_um pitch_um jitter_um : R)
    (seed : option Z) (center : R * R) :
  0 < radius_um -> 0 < pitch_um ->
  (jitter_um <= 0 \/ forall s, seed = Some s -> (0 <= s)%Z) ->
  exists nx ny patch,
    grid_dims radius_um pitch_um = Ok (nx, ny) /\
    make_hex_circular_patch create_hex_grid rng_normal
      radius_um pitch_um jitter_um seed center = Ok patch /\
    length (coords patch)
      = length (circular_mask radius_um (recenter (create_hex_grid nx ny pitch_um))) /\
    (length (coords patch) <= length (create_hex_grid nx ny pitch_um))%nat.
Proof.
  intros Hr Hp _.
  destruct (make_hex_circular_patch_run radius_um pitch_um jitter_um seed center Hr
              ltac:(lra)) as (nx & ny & Hd & Hrun).
  exists nx, ny. eexists. split; [done|]. split; [exact Hrun|]. cbn [coords].
  assert (Hlen : length
                   (radial_sort
                      (translate center
                         (add_jitter rng_normal jitter_um seed
                            (circular_mask radius_um
                               (recenter (create_hex_grid nx ny pitch_um))))))
                 = length (circular_mask radius_um
                             (recenter (create_hex_grid nx ny pitch_um)))).
  { rewrite radial_sort_perm. unfold translate. rewrite length_map. unfold add_jitter.
    destruct (Rlt_dec 0 jitter_um); [apply length_imap | done]. }
  split; [exact Hlen|]. rewrite Hlen. unfold circular_mask. cbn zeta.
  etransitivity; [apply filter_length_bound|].
  unfold recenter. cbn zeta. by rewrite !length_map.
Qed.

End HexPatchExtra.

Section HexPatchExtraWitnesses.
Import hexagonal_layer.
Local Open Scope R_scope.

Lemma hex_patch_content_without_jitter_witness :
  exists nx ny patch,
    grid_dims 3 4 = Ok (nx, ny) /\
    make_hex_circular_patch hex_grid no_noise 3 4 0 None (0, 40) = Ok patch /\
    coords patch ≡ₚ translate (0, 40) (circular_mask 3 (recenter (hex_grid nx ny 4))) /\
    forall q, q ∈ recenter (hex_grid nx ny 4) ->
      (q.1 ^ 2 + q.2 ^ 2 <= 3 ^ 2 <-> (q.1 + (0, 40).1, q.2 + (0, 40).2) ∈ coords patch).
Proof.
  apply (hex_patch_content_without_jitter hex_grid no_noise 3 4 0 None (0, 40)); lra.
Defined.

Lemma hex_patch_point_count_witness :
  exists nx ny patch,
    grid_dims 3 4 = Ok (nx, ny) /\
    make_hex_circular_patch hex_grid constant_noise 3 4 0.5 (Some 7%Z) (0, 40) = Ok patch /\
    length (coords patch) = length (circular_mask 3 (recenter (hex_grid nx ny 4))) /\
    (length (coords patch) <= length (hex_grid nx ny 4))%nat.
Proof.
  apply (hex_patch_point_count hex_grid constant_noise 3 4 0.5 (Some 7%Z) (0, 40));
    [lra | lra |].
  right. intros s [= <-]. lia.
Defined.

Lemma hex_patch_error_iff_witness :
  make_hex_circular_patch hex_grid constant_noise 3 0 0.5 (Some 7%Z) (0, 40)
  = Err ZeroDivisionError.
Proof.
  apply (hex_patch_error_iff hex_grid constant_noise 3 0 0.5 (Some 7%Z) (0, 40)
           ZeroDivisionError).
  - right. intros s [= <-]. lia.
  - repeat split; lra.
Defined.

End HexPatchExtraWitnesses.

(** ** Receptor profile: ranges and trends *)

Section ProfileExtra.
Import input_layer.
Local Open Scope Q_scope.

(** The six bands, as the densities and ratios the profile is built from. *)
Lemma band_cases (ecc_um : Q) :
  (ecc_um < 100 /\ band ecc_um = (200000%Z, 0%Z, (0.50, 0.50, 0.00))) \/
  (100 <= ecc_um < 350 /\ band ecc_um = (180000%Z, 0%Z, (0.48, 0.48, 0.04))) \/
  (350 <= ecc_um < 1500 /\ band ecc_um = (100000%Z, 20000%Z, (0.50, 0.45, 0.05))) \/
  (1500 <= ecc_um < 2750 /\ band ecc_um = (40000%Z, 100000%Z, (0.50, 0.43, 0.07))) \/
  (2750 <= ecc_um < 5500 /\ band ecc_um = (15000%Z, 150000%Z, (0.50, 0.42, 0.08))) \/
  (5500 <= ecc_um /\ band ecc_um = (5000%Z, 120000%Z, (0.48, 0.44, 0.08))).
Proof.
  unfold band.
  destruct (Qlt_le_dec ecc_um 100); [by left|]. right.
  destruct (Qlt_le_dec ecc_um 350); [by left|]. right.
  destruct (Qlt_le_dec ecc_um 1500); [by left|]. right.
  destruct (Qlt_le_dec ecc_um 2750); [by left|]. right.
  destruct (Qlt_le_dec ecc_um 5500); [by left|]. by right.
Qed.

Lemma photoreceptor_profile_unfold (ecc_um : Q) :
  photoreceptor_profile ecc_um
  = let '(cone_density, rod_density, lms_ratio) := band ecc_um in
    let total := (cone_density + rod_density)%Z in
    if (total =? 0)%Z then
      {| cone := 0; rod := 0; cone_types := {| L := 0; M := 0; S := 0 |} |}
    else
      let p_cone := inject_Z cone_density / inject_Z total in
      let p_rod := inject_Z rod_density / inject_Z total in
      let '(l, m, s_) := lms_ratio in
      let s := py_max 1e-12 (l + m + s_) in
      {| cone := p_cone; rod := p_rod;
         cone_types := {| L := p_cone * (l / s); M := p_cone * (m / s);
                          S := p_cone * (s_ / s) |} |}.
Proof. reflexivity. Qed.

(** X24. Every value of the profile is a probability, and the subtype
    fractions are ordered: [0 <= cone <= 1], [0 <= rod <= 1] and
    [0 <= S <= M <= L <= cone] at every eccentricity. *)
Theorem photoreceptor_profile_ranges (ecc_um : Q) :
  let p := photoreceptor_profile ecc_um in
  0 <= cone p <= 1 /\ 0 <= rod p <= 1 /\
  0 <= S (cone_types p) /\ S (cone_types p) <= M (cone_types p) /\
  M (cone_types p) <= L (cone_types p) /\ L (cone_types p) <= cone p.
Proof.
  cbn zeta. rewrite photoreceptor_profile_unfold.
  destruct (band_cases ecc_um) as [[_ ->] | [[_ ->] | [[_ ->] | [[_ ->] | [[_ ->] | [_ ->]]]]]];
    vm_compute; repeat split; discriminate.
Qed.

(** X25. Going outwards the cone probability never rises and the rod
    probability never falls: for [ecc1 <= ecc2] the profile at [ecc2] has
    at most the cone probability and at least the rod probability of the
    profile at [ecc1]. *)
Theorem photoreceptor_profile_trend (ecc1 ecc2 : Q) :
  ecc1 <= ecc2 ->
  cone (photoreceptor_profile ecc2) <= cone (photoreceptor_profile ecc1) /\
  rod (photoreceptor_profile ecc1) <= rod (photoreceptor_profile ecc2).
Proof.
  intros Hle. rewrite !photoreceptor_profile_unfold.
  destruct (band_cases ecc1) as [[H1 ->] | [[H1 ->] | [[H1 ->] | [[H1 ->] | [[H1 ->] | [H1 ->]]]]]];
  destruct (band_cases ecc2) as [[H2 ->] | [[H2 ->] | [[H2 ->] | [[H2 ->] | [[H2 ->] | [H2 ->]]]]]];
    first [ exfalso; Lqa.lra | vm_compute; split; discriminate ].
Qed.

Lemma photoreceptor_profile_trend_witness :
  cone (photoreceptor_profile 2000) <= cone (photoreceptor_profile 200) /\
  rod (photoreceptor_profile 200) <= rod (photoreceptor_profile 2000).
Proof.
  apply (photoreceptor_profile_trend 200 2000). discriminate.
Defined.

(** X26. Inside the foveolar pit and slope (eccentricity below 350,
    negative values included) there is no rod; from 350 on both classes are
    present, and every band from 100 on has a positive S fraction. *)
Theorem photoreceptor_profile_rod_free_centre (ecc_um : Q) :
  let p := photoreceptor_profile ecc_um in
  (ecc_um < 350 -> rod p == 0 /\ cone p == 1) /\
  (350 <= ecc_um -> 0 < rod p /\ 0 < cone p) /\
  (ecc_um < 100 -> S (cone_types p) == 0) /\
  (100 <= ecc_um -> 0 < S (cone_types p)).
Proof.
  cbn zeta. rewrite photoreceptor_profile_unfold.
  destruct (band_cases ecc_um) as [[H1 ->] | [[H1 ->] | [[H1 ->] | [[H1 ->] | [[H1 ->] | [H1 ->]]]]]];
    repeat split; intros;
    first [ exfalso; Lqa.lra | vm_compute; reflexivity ].
Qed.

End ProfileExtra.
